(** * Quake Monitor: early-warning reconciliation, feeds, geocoding, fitting
      and wave animation

    A shallow embedding of the logic of [src/App.tsx] and
    [src/components/MapComponent.tsx], and the properties of it that the
    specification states.

    Conventions of the embedding.
    - A JavaScript string is the list of its UTF-16 code units.
    - A JavaScript number is [number]: NaN, the two infinities, or a finite
      value, a rational.  The operators [+], [-], [*] and [/] are
      [Num.fadd], [Num.fsub], [Num.fmul] and [Num.fdiv]: the exact result
      ([Num.add] and the like) rounded to the nearest binary64 value, ties
      to even, with overflow to an infinity and gradual underflow
      ([Num.round64]); a numeric literal and a parsed text are rounded the
      same way ([Num.ofQ]).  -0 is identified with +0.  The audio and
      speech logic work on integers far below 2^53 (time stamps, counts
      below 10000), where a difference is exact and the floor of a quotient
      is the floor of the exact quotient; they are written with the exact
      operations.
    - Wall-clock instants ([Date.now()]) are integers, in milliseconds.
    - React state is passed explicitly: a handler is a function from the
      state before to the state after. *)

From Stdlib Require Import List Bool ZArith NArith QArith Qabs Lia Lqa.
From Stdlib Require Import Strings.String Strings.Ascii.
From Stdlib Require Import Qround Qreduction Qpower DecimalString.
From Stdlib Require Import Sorting.Sorted Sorting.Permutation.
Import ListNotations.

(* ------------------------------------------------------------------ *)
(** ** JavaScript strings *)

Module JsString.

Definition unit := N.
Definition t := list unit.

(** ASCII literals, written as Rocq strings. *)
Fixpoint lit (s : string) : t :=
  match s with
  | EmptyString => []
  | String c s' => N_of_ascii c :: lit s'
  end.

Fixpoint eqb (a b : t) : bool :=
  match a, b with
  | [], [] => true
  | x :: a', y :: b' => N.eqb x y && eqb a' b'
  | _, _ => false
  end.

(** [name.startsWith(k)] *)
Fixpoint startsWith (name k : t) : bool :=
  match k, name with
  | [], _ => true
  | y :: k', x :: name' => N.eqb x y && startsWith name' k'
  | _ :: _, [] => false
  end.

(** [name.includes(k)] *)
Fixpoint includes (name k : t) : bool :=
  startsWith name k ||
  match name with
  | [] => false
  | _ :: name' => includes name' k
  end.

(** Truthiness of a string: the empty string is falsy. *)
Definition truthy (s : t) : bool :=
  match s with [] => false | _ :: _ => true end.

Definition isDigit (c : unit) : bool := (48 <=? c)%N && (c <=? 57)%N.

(** [s.replace(/[^0-9]/g, '')] *)
Definition keepDigits (s : t) : t := filter isDigit s.

(** White space and line terminators skipped by [parseFloat] and
    [parseInt] (ECMAScript StrWhiteSpaceChar). *)
Definition isWhiteSpace (c : unit) : bool :=
  existsb (N.eqb c)
    [9; 10; 11; 12; 13; 32; 160; 5760; 8232; 8233; 8239; 8287; 12288; 65279]%N
  || ((8192 <=? c)%N && (c <=? 8202)%N).

Fixpoint trimStart (s : t) : t :=
  match s with
  | c :: s' => if isWhiteSpace c then trimStart s' else s
  | [] => []
  end.

(** The longest prefix of decimal digits, and what follows it. *)
Fixpoint spanDigits (s : t) : t * t :=
  match s with
  | c :: s' =>
      if isDigit c then let (d, r) := spanDigits s' in (c :: d, r)
      else ([], s)
  | [] => ([], [])
  end.

(** The integer written by a list of digits. *)
Definition digitsValue (d : t) : Z :=
  fold_left (fun acc c => 10 * acc + (Z.of_N c - 48))%Z d 0%Z.

End JsString.

Abbreviation jsstring := JsString.t.

(* ------------------------------------------------------------------ *)
(** ** JavaScript numbers *)

Inductive number : Type :=
| NaN
| NegInf
| PosInf
| Fin (q : Q).

Module Num.

Definition isNaN (a : number) : bool :=
  match a with NaN => true | _ => false end.

Definition isFinite (a : number) : bool :=
  match a with Fin _ => true | _ => false end.

Definition ofZ (z : Z) : number := Fin (inject_Z z).

Definition Qltb (a b : Q) : bool := negb (Qle_bool b a).

(** [a < b] *)
Definition lt (a b : number) : bool :=
  match a, b with
  | NaN, _ | _, NaN => false
  | _, NegInf => false
  | NegInf, _ => true
  | PosInf, _ => false
  | Fin _, PosInf => true
  | Fin x, Fin y => Qltb x y
  end.

(** [a > b] *)
Definition gt (a b : number) : bool := lt b a.

(** [a <= b] *)
Definition le (a b : number) : bool :=
  match a, b with
  | NaN, _ | _, NaN => false
  | NegInf, _ => true
  | _, PosInf => true
  | Fin x, Fin y => Qle_bool x y
  | _, _ => false
  end.

(** [a === b] *)
Definition seq (a b : number) : bool :=
  match a, b with
  | NegInf, NegInf | PosInf, PosInf => true
  | Fin x, Fin y => Qeq_bool x y
  | _, _ => false
  end.

Definition neg (a : number) : number :=
  match a with
  | NaN => NaN
  | NegInf => PosInf
  | PosInf => NegInf
  | Fin x => Fin (- x)
  end.

(** The exact operations, before rounding. *)
Definition add (a b : number) : number :=
  match a, b with
  | NaN, _ | _, NaN => NaN
  | PosInf, NegInf | NegInf, PosInf => NaN
  | PosInf, _ | _, PosInf => PosInf
  | NegInf, _ | _, NegInf => NegInf
  | Fin x, Fin y => Fin (x + y)
  end.

Definition sub (a b : number) : number := add a (neg b).

(** The infinity with the sign of [x], for [x] not zero. *)
Definition signedInf (x : Q) : number :=
  if Qltb x 0 then NegInf else PosInf.

Definition mul (a b : number) : number :=
  match a, b with
  | NaN, _ | _, NaN => NaN
  | Fin x, Fin y => Fin (x * y)
  | Fin x, PosInf | PosInf, Fin x =>
      if Qeq_bool x 0 then NaN else signedInf x
  | Fin x, NegInf | NegInf, Fin x =>
      if Qeq_bool x 0 then NaN else signedInf (- x)
  | PosInf, PosInf | NegInf, NegInf => PosInf
  | PosInf, NegInf | NegInf, PosInf => NegInf
  end.

(** Division; a zero divisor is +0. *)
Definition div (a b : number) : number :=
  match a, b with
  | NaN, _ | _, NaN => NaN
  | Fin x, Fin y =>
      if Qeq_bool y 0
      then (if Qeq_bool x 0 then NaN else signedInf x)
      else Fin (x / y)
  | Fin _, _ => Fin 0
  | PosInf, Fin y => if Qltb y 0 then NegInf else PosInf
  | NegInf, Fin y => if Qltb y 0 then PosInf else NegInf
  | _, _ => NaN
  end.

(** [Math.min(a, b)] *)
Definition min (a b : number) : number :=
  match a, b with
  | NaN, _ | _, NaN => NaN
  | _, _ => if lt b a then b else a
  end.

(** *** Rounding to binary64 *)

Definition pow2 (e : Z) : Q := Qpower 2 e.

(** The exponent of the binade of [q]: [2^e <= q < 2^(e+1)], for [q > 0]. *)
Definition ilog2 (q : Q) : Z :=
  let e0 := (Z.log2 (Qnum q) - Z.log2 (Zpos (Qden q)))%Z in
  if Qle_bool (pow2 e0) q then e0 else (e0 - 1)%Z.

(** The nearest integer, ties to even. *)
Definition rne (m : Q) : Z :=
  let f := Qfloor m in
  let r := m - inject_Z f in
  if Qltb r (1 # 2) then f
  else if Qltb (1 # 2) r then (f + 1)%Z
  else if Z.even f then f else (f + 1)%Z.

(** The exponent of the unit in the last place at [q]: 53 significant
    bits, and no unit below [2^-1074]. *)
Definition ulpExp (q : Q) : Z := Z.max (ilog2 q - 52) (-1074).

(** The nearest multiple of the unit, for [q > 0]. *)
Definition roundPos (q : Q) : Q :=
  let c := ulpExp q in inject_Z (rne (q / pow2 c)) * pow2 c.

(** A magnitude rounded: from [2^1024] on the result is an infinity (so
    every magnitude from [2^1024 - 2^970] on overflows). *)
Definition roundMag (q : Q) : number :=
  let r := roundPos q in
  if Qle_bool (pow2 1024) r then PosInf else Fin (Qred r).

(** The Number value for a rational: the nearest binary64 value, in lowest
    terms. *)
Definition round64 (q : Q) : number :=
  let q := Qred q in
  if Qltb 0 q then roundMag q
  else if Qltb q 0 then neg (roundMag (- q))
  else Fin 0.

Definition ofQ (q : Q) : number := round64 q.

Definition round (a : number) : number :=
  match a with Fin q => round64 q | _ => a end.

(** The operators [+], [-], [*], [/]. *)
Definition fadd (a b : number) : number := round (add a b).
Definition fsub (a b : number) : number := round (sub a b).
Definition fmul (a b : number) : number := round (mul a b).
Definition fdiv (a b : number) : number := round (div a b).

(** The relative and the absolute bound of one rounding error. *)
Definition eps64 : Q := pow2 (-53).
Definition eta64 : Q := pow2 (-1075).

(** A number that is not negative: an infinity, or finite and at least 0. *)
Definition nonneg (a : number) : Prop :=
  a = PosInf \/ exists r, a = Fin r /\ 0 <= r.

End Num.

(* ------------------------------------------------------------------ *)
(** ** The built-in parsers [parseFloat] and [parseInt(_, 10)] *)

Module Parse.
Import JsString.

(** An optional sign: whether it is a minus, and what follows. *)
Definition spanSign (s : t) : bool * t :=
  match s with
  | c :: s' =>
      if N.eqb c 45 then (true, s')
      else if N.eqb c 43 then (false, s')
      else (false, s)
  | [] => (false, [])
  end.

(** ExponentPart: [e] or [E], an optional sign, at least one digit.  An
    absent or incomplete exponent is not part of the literal. *)
Definition exponentPart (s : t) : Z :=
  match s with
  | c :: s' =>
      if N.eqb c 101 || N.eqb c 69 then
        let (minus, s'') := spanSign s' in
        let (d, _) := spanDigits s'' in
        match d with
        | [] => 0
        | _ => if minus then - digitsValue d else digitsValue d
        end
      else 0
  | [] => 0
  end%Z.

(** The value of the longest prefix that is an unsigned decimal literal
    (digits, an optional fraction, an optional exponent); [None] when no
    prefix is one. *)
Definition unsignedDecimal (s : t) : option Q :=
  let (ip, r1) := spanDigits s in
  let (fp, r2) :=
    match r1 with
    | c :: r => if N.eqb c 46 then spanDigits r else ([], r1)
    | [] => ([], [])
    end in
  match ip ++ fp with
  | [] => None
  | m => Some (inject_Z (digitsValue m)
               * Qpower 10 (exponentPart r2 - Z.of_nat (List.length fp)))
  end.

Definition parseFloat (s : t) : number :=
  let (minus, r) := spanSign (trimStart s) in
  if startsWith r (lit "Infinity")
  then (if minus then NegInf else PosInf)
  else match unsignedDecimal r with
       | None => NaN
       | Some q => Num.ofQ (if minus then - q else q)
       end.

(** [parseInt(s, 10)] *)
Definition parseInt10 (s : t) : number :=
  let (minus, r) := spanSign (trimStart s) in
  let (d, _) := spanDigits r in
  match d with
  | [] => NaN
  | _ => Num.ofQ (inject_Z (if minus then - digitsValue d else digitsValue d))
  end.

End Parse.

(* ------------------------------------------------------------------ *)
(** ** Early-warning frames and the live state ([types.ts]) *)

Module WolfxEEWData.
Record t : Type := mk {
  Type_ : jsstring;
  Title : jsstring;
  Hypocenter : jsstring;
  Magnitude : jsstring;
  Depth : option jsstring;
  MaxIntensity : jsstring;
  AnnouncedTime : jsstring;
  EventID : jsstring;
  isCancel : option bool;
  isFinal : option bool
}.
End WolfxEEWData.

Record EEWState : Type := mkEEWState {
  isActive : bool;
  isWarning : bool;
  isFinal : option bool;
  hypocenterName : option jsstring;
  magnitude : option number;
  depth : option number;
  maxIntensity : option jsstring;
  areas : list jsstring;
  occurredTime : option jsstring;
  title : option jsstring;
  updatedTime : option Z
}.

(** An optional boolean used as a condition: [undefined] is falsy. *)
Definition truthyFlag (b : option bool) : bool :=
  match b with Some true => true | _ => false end.

(** The state literal [{ isActive, isWarning, isFinal, areas: [] }] with
    every optional field but [isFinal] left out. *)
Definition bareState (active warning final : bool) : EEWState :=
  mkEEWState active warning (Some final) None None None None [] None None None.

(** The initial value of [liveEEW]. *)
Definition initialEEW : EEWState := bareState false false false.

(** The markers looked for in a frame's title. *)
Definition cancelMarker : jsstring := [21462; 28040]%N.   (* 取消 *)
Definition warningMarker : jsstring := [35686; 22577]%N.  (* 警報 *)
Definition warningWord : jsstring := JsString.lit "Warning".

(** [data.isCancel || data.Title.includes("取消")] *)
Definition isCancelFrame (data : WolfxEEWData.t) : bool :=
  truthyFlag (WolfxEEWData.isCancel data)
  || JsString.includes (WolfxEEWData.Title data) cancelMarker.

(** "Parse Magnitude safely" *)
Definition parseMagnitude (text : jsstring) : option number :=
  if JsString.truthy text then
    let m := Parse.parseFloat text in
    if negb (Num.isNaN m) then Some m else None
  else None.

(** "Parse Depth safely (e.g. "10km" -> 10)" *)
Definition parseDepth (text : option jsstring) : option number :=
  match text with
  | Some s =>
      if JsString.truthy s then
        let d := Parse.parseInt10 (JsString.keepDigits s) in
        if negb (Num.isNaN d) then Some d else None
      else None
  | None => None
  end.

(** [handleLiveWolfxEEW]: the new value of [liveEEW] after a frame that
    arrives at instant [now].  The state before is not read. *)
Definition handleLiveWolfxEEW (now : Z) (data : WolfxEEWData.t)
    (prev : EEWState) : EEWState :=
  if isCancelFrame data then bareState false false true
  else
    let warning :=
      JsString.includes (WolfxEEWData.Title data) warningMarker
      || JsString.includes (WolfxEEWData.Title data) warningWord in
    {| isActive := true;
       isWarning := warning;
       isFinal := Some (truthyFlag (WolfxEEWData.isFinal data) || false);
       hypocenterName := Some (WolfxEEWData.Hypocenter data);
       magnitude := parseMagnitude (WolfxEEWData.Magnitude data);
       depth := parseDepth (WolfxEEWData.Depth data);
       maxIntensity := Some (WolfxEEWData.MaxIntensity data);
       areas := [];
       occurredTime := Some (WolfxEEWData.AnnouncedTime data);
       title := Some (WolfxEEWData.Title data);
       updatedTime := Some now |}.

(** A run of frames, each with its arrival instant, handled in order. *)
Definition handleFrames (frames : list (Z * WolfxEEWData.t))
    (st : EEWState) : EEWState :=
  fold_left (fun s f => handleLiveWolfxEEW (fst f) (snd f) s) frames st.

(** The frames of one event: all bear the event id [eid]. *)
Definition sameEvent (eid : jsstring) (frames : list (Z * WolfxEEWData.t)) : Prop :=
  Forall (fun f => WolfxEEWData.EventID (snd f) = eid) frames.

Definition carriesFinality (data : WolfxEEWData.t) : bool :=
  truthyFlag (WolfxEEWData.isFinal data).

(* ------------------------------------------------------------------ *)
(** ** The inactivity timeout of [App] *)

Inductive ViewMode : Type := live | history | simulation.

Definition ViewMode_eqb (a b : ViewMode) : bool :=
  match a, b with
  | live, live | history, history | simulation, simulation => true
  | _, _ => false
  end.

(** The effect returns early, and installs no interval, unless the mode is
    live and the state is active:
    [if (mode !== 'live' || !liveEEW.isActive) return;] *)
Definition timeoutInstalled (mode : ViewMode) (liveEEW : EEWState) : bool :=
  negb (negb (ViewMode_eqb mode live) || negb (isActive liveEEW)).

(** [liveEEW.updatedTime && Date.now() - liveEEW.updatedTime > 20000] *)
Definition isStale (now : Z) (liveEEW : EEWState) : bool :=
  match updatedTime liveEEW with
  | Some t => negb (Z.eqb t 0) && (20000 <? now - t)%Z
  | None => false
  end.

(** [prev => ({ ...prev, isActive: false, areas: [] })] *)
Definition deactivate (prev : EEWState) : EEWState :=
  {| isActive := false;
     isWarning := isWarning prev;
     isFinal := isFinal prev;
     hypocenterName := hypocenterName prev;
     magnitude := magnitude prev;
     depth := depth prev;
     maxIntensity := maxIntensity prev;
     areas := [];
     occurredTime := occurredTime prev;
     title := title prev;
     updatedTime := updatedTime prev |}.

(** One firing of the interval callback.  The callback reads the state it
    was created with ([captured]) and updates the current one ([prev]). *)
Definition timeoutTick (now : Z) (captured prev : EEWState) : EEWState :=
  if isStale now captured then deactivate prev else prev.

(** The periodic check once the effect has been re-run for the current
    state: the interval that fires is the one installed for [liveEEW], so
    the state captured is the current one.  (Between a change of [liveEEW]
    and that re-run, an interval installed for an earlier state can still
    fire: that firing is [timeoutTick] with the earlier state as
    [captured].) *)
Definition stalenessCheck (mode : ViewMode) (now : Z) (liveEEW : EEWState)
    : EEWState :=
  if timeoutInstalled mode liveEEW then timeoutTick now liveEEW liveEEW
  else liveEEW.

(* ------------------------------------------------------------------ *)
(** ** The two feeds ([App], effect 5) *)

Module Feed.

Inductive ConnStatus : Type := connected | disconnected.

(** [WebSocket.readyState] *)
Inductive ReadyState : Type := CONNECTING | OPEN | CLOSING | CLOSED.

Inductive FeedId : Type := P2P | Wolfx.

(** A pending [setTimeout(connectP2P, d)] or [setTimeout(connectWolfx, d)]. *)
Record Timer : Type := mkTimer { reconnects : FeedId; delay : Z }.

(** A finalized report: the fields this development reads. *)
Record P2PQuakeData : Type := mkQuake {
  _id : jsstring;
  code : Z;
  time : jsstring
}.

(** A decoded early-warning message: the two tag fields the handler
    probes, and the object seen as a [WolfxEEWData]. *)
Record WolfxMessage : Type := mkMessage {
  tagType : option jsstring;   (* data.Type *)
  tagtype : option jsstring;   (* data.type *)
  frame : WolfxEEWData.t
}.

(** What [JSON.parse(event.data)] gives: it throws, or it returns [null]
    (on which any property access throws), or a value. *)
Inductive parsed (A : Type) : Type :=
| SyntaxError
| Null
| Value (a : A).
Arguments SyntaxError {A}.
Arguments Null {A}.
Arguments Value {A} a.

Record AppState : Type := mkApp {
  liveQuake : option P2PQuakeData;
  liveEEW : EEWState;
  p2pStatus : ConnStatus;
  wolfxStatus : ConnStatus;
  p2pWs : option ReadyState;      (* p2pWsRef.current *)
  wolfxWs : option ReadyState;    (* wolfxWsRef.current *)
  timers : list Timer;
  consoleErrors : nat
}.

(** How a handler ends: it returns, or an exception leaves it uncaught. *)
Inductive completion : Type :=
| Returns (st : AppState)
| Throws (st : AppState).

Definition stateOf (c : completion) : AppState :=
  match c with Returns st | Throws st => st end.

Definition RECONNECT_DELAY : Z := 5000.

Definition jma_eew : jsstring := JsString.lit "jma_eew".

Definition tagIs (tag : option jsstring) (s : jsstring) : bool :=
  match tag with Some t => JsString.eqb t s | None => false end.

(** [ws.close()] *)
Definition closeSocket (ws : option ReadyState) : option ReadyState :=
  match ws with
  | Some CLOSED => Some CLOSED
  | Some _ => Some CLOSING
  | None => None
  end.

Section Handlers.

Variable payload : Type.
(** [JSON.parse] followed by the cast each handler makes. *)
Variable parseP2P : payload -> parsed P2PQuakeData.
Variable parseWolfx : payload -> parsed WolfxMessage.

Definition handleNewLiveQuake (data : P2PQuakeData) (st : AppState) : AppState :=
  mkApp (Some data) (liveEEW st) (p2pStatus st) (wolfxStatus st)
        (p2pWs st) (wolfxWs st) (timers st) (consoleErrors st).

Definition setLiveEEW (e : EEWState) (st : AppState) : AppState :=
  mkApp (liveQuake st) e (p2pStatus st) (wolfxStatus st)
        (p2pWs st) (wolfxWs st) (timers st) (consoleErrors st).

(** [connectP2P] / [connectWolfx]: a new socket replaces the ref. *)
Definition connect (f : FeedId) (st : AppState) : AppState :=
  match f with
  | P2P => mkApp (liveQuake st) (liveEEW st) (p2pStatus st) (wolfxStatus st)
                 (Some CONNECTING) (wolfxWs st) (timers st) (consoleErrors st)
  | Wolfx => mkApp (liveQuake st) (liveEEW st) (p2pStatus st) (wolfxStatus st)
                   (p2pWs st) (Some CONNECTING) (timers st) (consoleErrors st)
  end.

(** [ws.onopen] *)
Definition onopen (f : FeedId) (st : AppState) : completion :=
  Returns
    match f with
    | P2P => mkApp (liveQuake st) (liveEEW st) connected (wolfxStatus st)
                   (Some OPEN) (wolfxWs st) (timers st) (consoleErrors st)
    | Wolfx => mkApp (liveQuake st) (liveEEW st) (p2pStatus st) connected
                     (p2pWs st) (Some OPEN) (timers st) (consoleErrors st)
    end.

(** [ws.onmessage] of [connectP2P]: no [try]. *)
Definition onmessageP2P (ev : payload) (st : AppState) : completion :=
  match parseP2P ev with
  | SyntaxError => Throws st
  | Null => Throws st
  | Value data =>
      Returns (if Z.eqb (code data) 551 then handleNewLiveQuake data st else st)
  end.

(** [ws.onmessage] of [connectWolfx]: the body is inside [try], and the
    [catch] logs. *)
Definition onmessageWolfx (now : Z) (ev : payload) (st : AppState) : completion :=
  match parseWolfx ev with
  | SyntaxError | Null =>
      Returns (mkApp (liveQuake st) (liveEEW st) (p2pStatus st) (wolfxStatus st)
                     (p2pWs st) (wolfxWs st) (timers st) (S (consoleErrors st)))
  | Value data =>
      Returns
        (if tagIs (tagType data) jma_eew || tagIs (tagtype data) jma_eew
         then setLiveEEW (handleLiveWolfxEEW now (frame data) (liveEEW st)) st
         else st)
  end.

Definition onmessage (f : FeedId) (now : Z) (ev : payload) (st : AppState)
    : completion :=
  match f with
  | P2P => onmessageP2P ev st
  | Wolfx => onmessageWolfx now ev st
  end.

(** [ws.onclose]: mark disconnected, schedule the reconnection. *)
Definition onclose (f : FeedId) (st : AppState) : completion :=
  Returns
    match f with
    | P2P => mkApp (liveQuake st) (liveEEW st) disconnected (wolfxStatus st)
                   (Some CLOSED) (wolfxWs st)
                   (timers st ++ [mkTimer P2P RECONNECT_DELAY]) (consoleErrors st)
    | Wolfx => mkApp (liveQuake st) (liveEEW st) (p2pStatus st) disconnected
                     (p2pWs st) (Some CLOSED)
                     (timers st ++ [mkTimer Wolfx RECONNECT_DELAY]) (consoleErrors st)
    end.

(** [ws.onerror = () => ws.close()] *)
Definition onerror (f : FeedId) (st : AppState) : completion :=
  Returns
    match f with
    | P2P => mkApp (liveQuake st) (liveEEW st) (p2pStatus st) (wolfxStatus st)
                   (closeSocket (p2pWs st)) (wolfxWs st) (timers st) (consoleErrors st)
    | Wolfx => mkApp (liveQuake st) (liveEEW st) (p2pStatus st) (wolfxStatus st)
                     (p2pWs st) (closeSocket (wolfxWs st)) (timers st) (consoleErrors st)
    end.

Definition statusOf (f : FeedId) (st : AppState) : ConnStatus :=
  match f with P2P => p2pStatus st | Wolfx => wolfxStatus st end.

Definition socketOf (f : FeedId) (st : AppState) : option ReadyState :=
  match f with P2P => p2pWs st | Wolfx => wolfxWs st end.

(** The payload cannot be read: [JSON.parse] throws on it. *)
Definition failsToParse (f : FeedId) (ev : payload) : Prop :=
  match f with
  | P2P => parseP2P ev = SyntaxError
  | Wolfx => parseWolfx ev = SyntaxError
  end.

End Handlers.

Arguments onmessageP2P {payload} parseP2P ev st.
Arguments onmessageWolfx {payload} parseWolfx now ev st.
Arguments onmessage {payload} parseP2P parseWolfx f now ev st.
Arguments failsToParse {payload} parseP2P parseWolfx f ev.

(** A connected application, both sockets open, nothing scheduled. *)
Definition bothOpen : AppState :=
  mkApp None initialEEW connected connected (Some OPEN) (Some OPEN) [] 0.

End Feed.

(* ------------------------------------------------------------------ *)
(** ** The map: gazetteer, fitting, animation ([MapComponent]) *)

(** A geographic point as d3 takes it: [[lon, lat]]. *)
Definition Coordinate : Type := (number * number)%type.

(** A point of the projected plane, in pixels. *)
Definition Pixel : Type := (number * number)%type.

Record ViewportTransform : Type := mkTransform {
  k : number;
  tx : number;
  ty : number
}.

(** [d3.zoomIdentity] *)
Definition zoomIdentity : ViewportTransform :=
  mkTransform (Fin 1) (Fin 0) (Fin 0).

(** A transform applied to a pixel ([transform.apply] of d3-zoom):
    [[p[0] * k + x, p[1] * k + y]]. *)
Definition applyTransform (t : ViewportTransform) (p : Pixel) : Pixel :=
  (Num.fadd (Num.fmul (fst p) (k t)) (tx t), Num.fadd (Num.fmul (snd p) (k t)) (ty t)).

Definition V_P_WAVE : number := Fin (13 # 2).
Definition V_S_WAVE : number := Fin (7 # 2).
Definition KM_PER_DEG : number := Num.ofQ (11132 # 100).

(** The zoom range of [fitBounds], and the zoom of a single point. *)
Definition MAX_FIT_ZOOM : number := Fin 8.
Definition MIN_FIT_ZOOM : number := Num.ofQ (2 # 10).
Definition SINGLE_POINT_ZOOM : number := Fin 8.
Definition DEFAULT_PADDING : number := Num.ofQ (35 # 100).

(** A string-or-undefined used as a condition. *)
Definition truthyMatch (m : option jsstring) : bool :=
  match m with Some s => JsString.truthy s | None => false end.

Section Gazetteer.

(** [STATION_COORDINATES] ([constants/stationCoordinates.ts]): place name
    to [[lat, lon]], in the order [Object.keys] lists it. *)
Variable STATION_COORDINATES : list (jsstring * (number * number)).

Definition keys : list jsstring := map fst STATION_COORDINATES.

(** [STATION_COORDINATES[key]] *)
Definition station (key : jsstring) : option (number * number) :=
  option_map snd (find (fun e => JsString.eqb (fst e) key) STATION_COORDINATES).

Definition findCoordinate (name : jsstring) : option Coordinate :=
  let match0 := find (fun k => JsString.eqb k name) keys in
  let match1 :=
    if negb (truthyMatch match0)
    then find (fun k => JsString.startsWith name k) keys else match0 in
  let match2 :=
    if negb (truthyMatch match1)
    then find (fun k => JsString.includes name k) keys else match1 in
  if truthyMatch match2 then
    match match2 with
    | Some key =>
        match station key with
        | Some (lat, lon) => Some (lon, lat)
        | None => None
        end
    | None => None
    end
  else None.

(** The resolution as the specification words it: the first key equal to
    the name; failing that, the first key the name starts with; failing
    that, the first key the name contains; failing that, unresolved. *)
Definition coordinateOf (key : jsstring) : option Coordinate :=
  option_map (fun v => (snd v, fst v)) (station key).

Definition resolveByPriority (name : jsstring) : option Coordinate :=
  match find (fun k => JsString.eqb k name) keys with
  | Some key => coordinateOf key
  | None =>
      match find (fun k => JsString.startsWith name k) keys with
      | Some key => coordinateOf key
      | None =>
          match find (fun k => JsString.includes name k) keys with
          | Some key => coordinateOf key
          | None => None
          end
      end
  end.

End Gazetteer.

(** The refs [fitBounds] needs: the svg element, the container with its
    size, the zoom behaviour, the projection. *)
Record MapRefs : Type := mkRefs {
  svgRef : bool;
  containerRef : option (number * number);   (* width, height *)
  zoomBehaviorRef : bool;
  projectionRef : option (Coordinate -> Pixel)
}.

(** The running bounding box: minX, maxX, minY, maxY. *)
Record Bounds : Type := mkBounds {
  minX : number; maxX : number; minY : number; maxY : number
}.

Definition noBounds : Bounds := mkBounds PosInf NegInf PosInf NegInf.

(** The body of the [forEach] over the projected points. *)
Definition extendBounds (b : Bounds) (p : Pixel) : Bounds :=
  let (x, y) := p in
  mkBounds (if Num.lt x (minX b) then x else minX b)
           (if Num.gt x (maxX b) then x else maxX b)
           (if Num.lt y (minY b) then y else minY b)
           (if Num.gt y (maxY b) then y else maxY b).

Definition boundsOf (projectedCoords : list Pixel) : Bounds :=
  fold_left extendBounds projectedCoords noBounds.

(** [(width * (1 - paddingPercent * 2)) / boundsWidth] *)
Definition fitFactor (extent paddingPercent boundsExtent : number) : number :=
  Num.fdiv (Num.fmul extent (Num.fsub (Fin 1) (Num.fmul paddingPercent (Fin 2))))
           boundsExtent.

(** "Clamp zoom" *)
Definition clampZoom (k0 : number) : number :=
  let k1 := if Num.gt k0 MAX_FIT_ZOOM then MAX_FIT_ZOOM else k0 in
  if Num.lt k1 MIN_FIT_ZOOM then MIN_FIT_ZOOM else k1.

(** [fitBounds]: the transform the viewport is sent to (by a transition),
    or the current one when the function returns without a call. *)
Definition fitBounds (refs : MapRefs) (coordinates : list Coordinate)
    (paddingPercent : number) (current : ViewportTransform) : ViewportTransform :=
  match svgRef refs, containerRef refs, zoomBehaviorRef refs,
        coordinates, projectionRef refs with
  | true, Some (width, height), true, _ :: _, Some projection =>
      let projectedCoords := map projection coordinates in
      let b := boundsOf projectedCoords in
      if Num.seq (minX b) PosInf then current
      else
        let boundsWidth := Num.fsub (maxX b) (minX b) in
        let boundsHeight := Num.fsub (maxY b) (minY b) in
        if Num.seq boundsWidth (Fin 0) && Num.seq boundsHeight (Fin 0) then
          (* "Handle single point (Epicenter only)" *)
          let k := SINGLE_POINT_ZOOM in
          mkTransform k
            (Num.fsub (Num.fdiv width (Fin 2)) (Num.fmul k (minX b)))
            (Num.fsub (Num.fdiv height (Fin 2)) (Num.fmul k (minY b)))
        else
          let scaleX := fitFactor width paddingPercent boundsWidth in
          let scaleY := fitFactor height paddingPercent boundsHeight in
          let k := clampZoom (Num.min scaleX scaleY) in
          mkTransform k
            (Num.fsub (Num.fdiv width (Fin 2))
               (Num.fdiv (Num.fmul k (Num.fadd (minX b) (maxX b))) (Fin 2)))
            (Num.fsub (Num.fdiv height (Fin 2))
               (Num.fdiv (Num.fmul k (Num.fadd (minY b) (maxY b))) (Fin 2)))
  | _, _, _, _, _ => current
  end.

(** A pixel with both components finite. *)
Definition finitePixel (p : Pixel) : bool :=
  Num.isFinite (fst p) && Num.isFinite (snd p).

(** The bounding box is a single point: both extents are zero. *)
Definition singlePoint (b : Bounds) : bool :=
  Num.seq (Num.fsub (maxX b) (minX b)) (Fin 0)
  && Num.seq (Num.fsub (maxY b) (minY b)) (Fin 0).

(** [b] is a box with finite corners [a <= a'], [c <= c'] that holds every
    pixel of [ps]. *)
Definition boundsAre (ps : list Pixel) (b : Bounds) (a a' c c' : Q) : Prop :=
  b = mkBounds (Fin a) (Fin a') (Fin c) (Fin c')
  /\ a <= a' /\ c <= c'
  /\ Forall (fun p => exists x y, p = (Fin x, Fin y)
                                  /\ (a <= x <= a') /\ (c <= y <= c')) ps.

(** The magnitudes the fitting is studied for: below [2^1000], so that no
    operation of [fitBounds] overflows. *)
Definition FIT_RANGE : Q := Num.pow2 1000.

Definition inRange (q : Q) : Prop := - FIT_RANGE <= q <= FIT_RANGE.

Definition inFitRange (p : Pixel) : Prop :=
  exists x y, p = (Fin x, Fin y)
              /\ Qabs x <= FIT_RANGE /\ Qabs y <= FIT_RANGE.

(** The room left for the rounding errors of [fitBounds] and of the
    transform along one axis: [2^-48] of the extent of the viewport plus
    the largest scaled coordinate, and of one pixel. *)
Definition fitTolerance (extent lo hi : Q) : Q :=
  Num.pow2 (-48) * (1 + extent + 8 * (Qabs lo + Qabs hi)).

(** A coordinate lies in the interval of the viewport left by the padding
    fraction on both sides, up to [tol]. *)
Definition withinPadded (extent paddingPercent tol : Q) (v : number) : Prop :=
  exists q, v = Fin q
            /\ paddingPercent * extent - tol <= q
            /\ q <= (1 - paddingPercent) * extent + tol.

(** A coordinate lies at the middle of the viewport, up to [tol]. *)
Definition atCentre (extent tol : Q) (v : number) : Prop :=
  exists q, v = Fin q /\ Qabs (q - extent / 2) <= tol.

(** A pixel lies in the viewport shrunk by the padding fraction on every
    side, exactly. *)
Definition insidePadded (width height paddingPercent : Q) (p : Pixel) : Prop :=
  withinPadded width paddingPercent 0 (fst p)
  /\ withinPadded height paddingPercent 0 (snd p).

(** A wave circle of the [.eew-waves] layer. *)
Inductive WaveType : Type := PWave | SWave.   (* type: 'P', type: 'S' *)

Record Wave : Type := mkWave { waveType : WaveType; radius : number }.

(** What the EEW effect and its animation loop act on. *)
Record MapState : Type := mkMap {
  transform : ViewportTransform;
  waves : list Wave;
  frameRequested : bool      (* animationFrameRef holds a pending callback *)
}.

Definition elapsedSec (now : Z) (startTime : number) : number :=
  Num.fdiv (Num.fsub (Num.ofZ now) startTime) (Fin 1000).

Definition pRadiusKm (elapsed : number) : number := Num.fmul elapsed V_P_WAVE.
Definition sRadiusKm (elapsed : number) : number := Num.fmul elapsed V_S_WAVE.
Definition pRadiusDeg (elapsed : number) : number :=
  Num.fdiv (pRadiusKm elapsed) KM_PER_DEG.
Definition sRadiusDeg (elapsed : number) : number :=
  Num.fdiv (sRadiusKm elapsed) KM_PER_DEG.

(** The time values of ECMAScript: integers of magnitude at most
    8.64e15 milliseconds. *)
Definition MAX_TIME : Z := 8640000000000000.
Definition timeValue (t : Z) : Prop := (- MAX_TIME <= t <= MAX_TIME)%Z.

(** One iteration of [animate], run at instant [now]. *)
Definition animate (now : Z) (startTime : number) (st : MapState) : MapState :=
  let e := elapsedSec now startTime in
  if Num.lt e (Fin 0) then
    mkMap (transform st) (waves st) true
  else
    mkMap (transform st)
          [mkWave PWave (pRadiusDeg e); mkWave SWave (sRadiusDeg e)]
          true.

(** No circle of the wave layer has a negative radius. *)
Definition noNegativeRadius (st : MapState) : Prop :=
  forall w, In w (waves st) -> Num.lt (radius w) (Fin 0) = false.

(** The loop over successive display refreshes. *)
Definition animateAll (startTime : number) (instants : list Z) (st : MapState)
    : MapState :=
  fold_left (fun s now => animate now startTime s) instants st.

Section EEWEffect.

Variable STATION_COORDINATES : list (jsstring * (number * number)).
(** [new Date(text).getTime()] *)
Variable getTime : jsstring -> number.

(** [areaCoords]: the origin, then each area name that resolves. *)
Definition areaCoords (origin : Coordinate) (areaNames : list jsstring)
    : list Coordinate :=
  origin ::
  flat_map (fun areaName =>
              match findCoordinate STATION_COORDINATES areaName with
              | Some c => [c]
              | None => []
              end) areaNames.

(** The points the effect hands to [fitBounds], when it makes the call. *)
Definition eewFitRequest (eew : EEWState) (isAutoZoomEnabled japanGeoData : bool)
    : option (list Coordinate) :=
  match hypocenterName eew with
  | Some name =>
      match findCoordinate STATION_COORDINATES name with
      | Some origin =>
          if isAutoZoomEnabled then
            match areas eew with
            | _ :: _ =>
                if japanGeoData then Some (areaCoords origin (areas eew))
                else Some [origin]
            | [] => Some [origin]
            end
          else None
      | None => None
      end
  | None => None
  end.

(** The guard of the effect:
    [!eew.isActive || !eew.occurredTime || !eew.hypocenterName ||
     !gRef.current || !projectionRef.current] *)
Definition eewIdle (refs : MapRefs) (gRef : bool) (eew : EEWState) : bool :=
  negb (isActive eew)
  || negb (truthyMatch (occurredTime eew))
  || negb (truthyMatch (hypocenterName eew))
  || negb gRef
  || match projectionRef refs with Some _ => false | None => true end.

(** The cleanup the effect returns, which React runs before the effect is
    run again: the pending animation frame is cancelled.  (A frame is
    pending only after a run that reached the loop, and such a run
    returned the cleanup.) *)
Definition eewCleanup (st : MapState) : MapState :=
  mkMap (transform st) (waves st) false.

(** The EEW effect of [MapComponent] run again at instant [now]: the
    cleanup of the run before, then the body up to the first iteration of
    the loop. *)
Definition eewEffect (refs : MapRefs) (gRef : bool)
    (isAutoZoomEnabled japanGeoData : bool) (now : Z)
    (eew : EEWState) (st : MapState) : MapState :=
  let st := eewCleanup st in
  if eewIdle refs gRef eew
  then mkMap (transform st) (if gRef then [] else waves st) false
  else
    match hypocenterName eew, occurredTime eew with
    | Some name, Some occurred =>
        match findCoordinate STATION_COORDINATES name with
        | None => st
        | Some origin =>
            let t :=
              match eewFitRequest eew isAutoZoomEnabled japanGeoData with
              | Some coords => fitBounds refs coords DEFAULT_PADDING (transform st)
              | None => transform st
              end in
            animate now (getTime occurred) (mkMap t (waves st) (frameRequested st))
        end
    | _, _ => st
    end.

End EEWEffect.

(* ------------------------------------------------------------------ *)
(** ** Sample data *)

Module Sample.

(** A frame of event "E1" with a given title, magnitude text, depth text
    and flags. *)
Definition frameE1 (title magnitudeText : jsstring) (depthText : option jsstring)
    (cancel final : option bool) : WolfxEEWData.t :=
  WolfxEEWData.mk (JsString.lit "jma_eew") title (JsString.lit "Wakayama")
    magnitudeText depthText (JsString.lit "3") (JsString.lit "2024/01/01 00:00:00")
    (JsString.lit "E1") cancel final.

(** 緊急地震速報（予報） is not needed in full: the handler only looks for
    the markers. *)
Definition forecastTitle : jsstring := [20104; 22577]%N.          (* 予報 *)
Definition warningTitle : jsstring := [35686; 22577]%N.           (* 警報 *)
Definition cancelTitle : jsstring := [21462; 28040]%N.            (* 取消 *)

Definition finalFrame : WolfxEEWData.t :=
  frameE1 warningTitle (JsString.lit "7.2") (Some (JsString.lit "10km"))
          None (Some true).

Definition updateFrame : WolfxEEWData.t :=
  frameE1 warningTitle (JsString.lit "7.2") (Some (JsString.lit "10km"))
          None None.

Definition cancelByTitle : WolfxEEWData.t :=
  frameE1 cancelTitle (JsString.lit "7.2") (Some (JsString.lit "10km"))
          None None.

Definition infiniteMagnitude : WolfxEEWData.t :=
  frameE1 forecastTitle (JsString.lit "Infinity") (Some (JsString.lit "10km"))
          None None.

(** An active, final warning last updated at instant 1000. *)
Definition finalState : EEWState :=
  handleLiveWolfxEEW 1000 finalFrame initialEEW.

(** A small gazetteer: 和歌山県, 大阪府. *)
Definition wakayama : jsstring := [21644; 27468; 23665; 30476]%N.
Definition osaka : jsstring := [22823; 38442; 24220]%N.
Definition wakayamaNorth : jsstring := (wakayama ++ [21271; 37096])%N.  (* 和歌山県北部 *)
Definition hokkaido : jsstring := [21271; 28023; 36947]%N.               (* 北海道 *)

Definition gazetteer : list (jsstring * (number * number)) :=
  [ (wakayama, (Fin (3423 # 100), Fin (13517 # 100)));
    (osaka, (Fin (3469 # 100), Fin (13550 # 100))) ].

(** A stand-in for the d3 projection, linear in both coordinates, on a
    viewport of 1000 by 1000 pixels centred on [[137, 38]]. *)
Definition linearProjection (c : Coordinate) : Pixel :=
  (Num.fadd (Fin 500) (Num.fmul (Fin 35) (Num.fsub (fst c) (Fin 137))),
   Num.fsub (Fin 500) (Num.fmul (Fin 35) (Num.fsub (snd c) (Fin 38)))).

Definition refs : MapRefs :=
  mkRefs true (Some (Fin 1000, Fin 1000)) true (Some linearProjection).

(** Two points fifty degrees of longitude and thirty of latitude apart. *)
Definition farApart : list Coordinate :=
  [(Fin 100, Fin 20); (Fin 150, Fin 50)].

(** Wakayama and Osaka, as [[lon, lat]]. *)
Definition closePair : list Coordinate :=
  [(Num.ofQ (13517 # 100), Num.ofQ (3423 # 100));
   (Num.ofQ (13550 # 100), Num.ofQ (3469 # 100))].

(** An active forecast whose epicentre name is not in the gazetteer and
    whose one target area is. *)
Definition unknownEpicentre : EEWState :=
  mkEEWState true false (Some false) (Some hokkaido) None None None
             [osaka] (Some (JsString.lit "2024-01-01T00:00:00Z")) None (Some 1000%Z).

(** An active forecast whose epicentre name resolves (by prefix) and
    whose one target area resolves too. *)
Definition knownEpicentre : EEWState :=
  mkEEWState true false (Some false) (Some wakayamaNorth) None None None
             [osaka] (Some (JsString.lit "2024-01-01T00:00:00Z")) None (Some 1000%Z).

(** Wakayama and Osaka as the gazetteer gives them, [[lon, lat]]. *)
Definition wakayamaPoint : Coordinate := (Fin (13517 # 100), Fin (3423 # 100)).
Definition osakaPoint : Coordinate := (Fin (13550 # 100), Fin (3469 # 100)).

(** A point with no latitude. *)
Definition noLatitude : Coordinate := (Fin 135, NaN).

(** Two points whose fit is not clamped: [[136, 27]] and [[144, 34]]. *)
Definition roundedPair : list Coordinate :=
  [(Fin 136, Fin 27); (Fin 144, Fin 34)].

End Sample.

(* ------------------------------------------------------------------ *)
(** ** Intensity grades ([types.ts]) and the USGS conversion
       ([SettingsModal]) *)

Module JMASeismicIntensity.

Inductive t : Type :=
| Scale10 | Scale20 | Scale30 | Scale40 | Scale45
| Scale50 | Scale55 | Scale60 | Scale70 | Unknown.

(** The numeric value of each member of the enum. *)
Definition value (s : t) : Z :=
  match s with
  | Scale10 => 10 | Scale20 => 20 | Scale30 => 30 | Scale40 => 40
  | Scale45 => 45 | Scale50 => 50 | Scale55 => 55 | Scale60 => 60
  | Scale70 => 70 | Unknown => -1
  end.

End JMASeismicIntensity.

(** "Helper to approximate USGS MMI/CDI to JMA Intensity" *)
Definition convertMMItoJMA (mmi : number) : JMASeismicIntensity.t :=
  if Num.lt mmi (Fin (15 # 10)) then JMASeismicIntensity.Scale10
  else if Num.lt mmi (Fin (25 # 10)) then JMASeismicIntensity.Scale20
  else if Num.lt mmi (Fin (35 # 10)) then JMASeismicIntensity.Scale30
  else if Num.lt mmi (Fin (45 # 10)) then JMASeismicIntensity.Scale40
  else if Num.lt mmi (Fin (55 # 10)) then JMASeismicIntensity.Scale45
  else if Num.lt mmi (Fin (65 # 10)) then JMASeismicIntensity.Scale50
  else if Num.lt mmi (Fin (75 # 10)) then JMASeismicIntensity.Scale55
  else if Num.lt mmi (Fin (85 # 10)) then JMASeismicIntensity.Scale60
  else JMASeismicIntensity.Scale70.

(** A number-or-null used as a condition: null, 0 and NaN are falsy. *)
Definition truthyNumber (n : option number) : bool :=
  match n with
  | Some NaN => false
  | Some (Fin q) => negb (Qeq_bool q 0)
  | Some _ => true
  | None => false
  end.

(** The grade given to a USGS feature:
    [mmi = f.properties.mmi || f.properties.cdi || null;
     jmaScale = mmi ? convertMMItoJMA(mmi) : -1] *)
Definition usgsScale (mmi cdi : option number) : JMASeismicIntensity.t :=
  let chosen :=
    if truthyNumber mmi then mmi
    else if truthyNumber cdi then cdi
    else None in
  if truthyNumber chosen then
    match chosen with
    | Some x => convertMMItoJMA x
    | None => JMASeismicIntensity.Unknown
    end
  else JMASeismicIntensity.Unknown.

(* ------------------------------------------------------------------ *)
(** ** The map: report auto-zoom and markers ([MapComponent]) *)

(** The fields of a report that the map reads. *)
Record Hypocenter : Type := mkHypocenter {
  name : jsstring;
  latitude : number;
  longitude : number
}.

Record QuakePoint : Type := mkPoint {
  pref : jsstring;
  addr : jsstring;
  scale : Z            (* a JMASeismicIntensity, by its number *)
}.

Record MapQuake : Type := mkMapQuake {
  hypocenter : option Hypocenter;     (* earthquake.hypocenter *)
  points : list QuakePoint
}.

(** [coords.length === 1 && (coords[0][0] < 120 || coords[0][0] > 155 ||
    coords[0][1] < 20 || coords[0][1] > 50)] *)
Definition isFarAway (coords : list Coordinate) : bool :=
  match coords with
  | [c] =>
      Num.lt (fst c) (Fin 120) || Num.gt (fst c) (Fin 155)
      || Num.lt (snd c) (Fin 20) || Num.gt (snd c) (Fin 50)
  | _ => false
  end.

(** The zoom of a far-away epicentre: "Zoom level 2 for world context". *)
Definition FAR_AWAY_ZOOM : number := Fin 2.

(** A [Map] from place name to intensity, in insertion order. *)
Definition PlotData : Type := list (jsstring * Z).

(** [plotData.get(key)] *)
Definition mapGet (key : jsstring) (m : PlotData) : option Z :=
  option_map snd (find (fun e => JsString.eqb (fst e) key) m).

(** [plotData.set(key, v)]: an existing key keeps its place. *)
Fixpoint mapSet (key : jsstring) (v : Z) (m : PlotData) : PlotData :=
  match m with
  | [] => [(key, v)]
  | (key', v') :: rest =>
      if JsString.eqb key' key then (key, v) :: rest
      else (key', v') :: mapSet key v rest
  end.

Inductive MarkerType : Type := intensity | epicenter.

Record MarkerData : Type := mkMarker {
  id : jsstring;
  x : number;
  y : number;
  type : MarkerType;
  markerScale : option Z
}.

Definition pointId (key : jsstring) : jsstring := JsString.lit "point-" ++ key.
Definition epicenterId : jsstring := JsString.lit "epicenter".

Section Reports.

Variable STATION_COORDINATES : list (jsstring * (number * number)).

(** The epicentre of a report, for the zoom: its coordinates when both are
    known (not -1), else its name looked up. *)
Definition epicentreCoords (q : MapQuake) : list Coordinate :=
  match hypocenter q with
  | Some h =>
      if negb (Num.seq (longitude h) (Fin (-1)))
         && negb (Num.seq (latitude h) (Fin (-1)))
      then [(longitude h, latitude h)]
      else if JsString.truthy (name h) then
        match findCoordinate STATION_COORDINATES (name h) with
        | Some c => [c]
        | None => []
        end
      else []
  | None => []
  end.

(** [findCoordinate(p.addr) || findCoordinate(p.pref)] *)
Definition pointCoordinate (p : QuakePoint) : option Coordinate :=
  match findCoordinate STATION_COORDINATES (addr p) with
  | Some c => Some c
  | None => findCoordinate STATION_COORDINATES (pref p)
  end.

(** The [coords] the report effect collects. *)
Definition quakeCoords (q : MapQuake) : list Coordinate :=
  epicentreCoords q
  ++ flat_map (fun p => match pointCoordinate p with
                        | Some c => [c]
                        | None => []
                        end) (points q).

(** "Auto Zoom for Earthquake Reports (Points + Epicenter)" *)
Definition quakeZoomEffect (refs : MapRefs) (isAutoZoomEnabled : bool)
    (latestQuake : option MapQuake) (eew : EEWState)
    (current : ViewportTransform) : ViewportTransform :=
  match latestQuake with
  | Some q =>
      if negb isAutoZoomEnabled || isActive eew then current
      else
        let coords := quakeCoords q in
        match coords with
        | [] => current
        | c0 :: _ =>
            if isFarAway coords then
              match svgRef refs, zoomBehaviorRef refs,
                    projectionRef refs, containerRef refs with
              | true, true, Some projection, Some (width, height) =>
                  let px := projection c0 in
                  let k := FAR_AWAY_ZOOM in
                  mkTransform k
                    (Num.fsub (Num.fdiv width (Fin 2)) (Num.fmul k (fst px)))
                    (Num.fsub (Num.fdiv height (Fin 2)) (Num.fmul k (snd px)))
              | _, _, _, _ => current
              end
            else fitBounds refs coords DEFAULT_PADDING current
        end
  | None => current
  end.

(** The gazetteer key a station observation is plotted at: the first key
    the address starts with, else the first key equal to the prefecture. *)
Definition matchedKey (p : QuakePoint) : option jsstring :=
  let cityMatch :=
    find (fun k => JsString.startsWith (addr p) k) (keys STATION_COORDINATES) in
  let found :=
    if truthyMatch cityMatch then cityMatch
    else
      let prefMatch :=
        find (fun k => JsString.eqb (pref p) k) (keys STATION_COORDINATES) in
      if truthyMatch prefMatch then prefMatch else None in
  match found with
  | Some key =>
      match station STATION_COORDINATES key with
      | Some _ => if JsString.truthy key then Some key else None
      | None => None
      end
  | None => None
  end.

(** The body of [latestQuake.points.forEach]:
    [currentMax = plotData.get(matchedKey) || -1;
     if (p.scale > currentMax) plotData.set(matchedKey, p.scale)] *)
Definition plotPoint (plotData : PlotData) (p : QuakePoint) : PlotData :=
  match matchedKey p with
  | Some key =>
      let currentMax :=
        match mapGet key plotData with
        | Some v => if Z.eqb v 0 then (-1)%Z else v
        | None => (-1)%Z
        end in
      if (currentMax <? scale p)%Z then mapSet key (scale p) plotData
      else plotData
  | None => plotData
  end.

Definition plotAll (ps : list QuakePoint) : PlotData :=
  fold_left plotPoint ps [].

(** [projection(c)], which may give null. *)
Variable project : Coordinate -> option Pixel.

(** The body of [plotData.forEach]. *)
Definition stationMarker (entry : jsstring * Z) : list MarkerData :=
  let (key, s) := entry in
  match station STATION_COORDINATES key with
  | None => []
  | Some (lat, lon) =>
      match project (lon, lat) with
      | Some screenCoords =>
          if (10 <=? s)%Z
          then [mkMarker (pointId key) (fst screenCoords) (snd screenCoords)
                         intensity (Some s)]
          else []
      | None => []
      end
  end.

(** "Points (Japan Stations)" *)
Definition stationMarkers (latestQuake : option MapQuake) (eew : EEWState)
    : list MarkerData :=
  match latestQuake with
  | Some q =>
      if negb (isActive eew) then flat_map stationMarker (plotAll (points q))
      else []
  | None => []
  end.

Definition epicenterAt (c : Coordinate) : list MarkerData :=
  match project c with
  | Some coords => [mkMarker epicenterId (fst coords) (snd coords) epicenter None]
  | None => []
  end.

(** "Epicenter Logic (Both EEW and Regular)" *)
Definition epicenterMarker (latestQuake : option MapQuake) (eew : EEWState)
    : list MarkerData :=
  if isActive eew && truthyMatch (hypocenterName eew) then
    match hypocenterName eew with
    | Some hypo =>
        let found :=
          find (fun k => JsString.includes hypo k) (keys STATION_COORDINATES) in
        if truthyMatch found then
          match found with
          | Some key =>
              match station STATION_COORDINATES key with
              | Some (lat, lon) => epicenterAt (lon, lat)
              | None => []
              end
          | None => []
          end
        else []
    | None => []
    end
  else
    match latestQuake with
    | Some q =>
        match hypocenter q with
        | Some h =>
            if negb (Num.seq (latitude h) (Fin (-1)))
               && negb (Num.seq (longitude h) (Fin (-1)))
            then epicenterAt (longitude h, latitude h)
            else []
        | None => []
        end
    | None => []
    end.

(** The [markers] array of the content effect. *)
Definition markers (latestQuake : option MapQuake) (eew : EEWState)
    : list MarkerData :=
  stationMarkers latestQuake eew ++ epicenterMarker latestQuake eew.

End Reports.

(** What the plot holds after the points [seen]: one entry per key, each
    the largest intensity among the points plotted at that key, above -1;
    and every key with a point of intensity above -1 has an entry. *)
Definition plotInvariant (G : list (jsstring * (number * number)))
    (seen : list QuakePoint) (m : PlotData) : Prop :=
  NoDup (map fst m)
  /\ (forall key v, In (key, v) m ->
        (-1 < v)%Z
        /\ (exists p, In p seen /\ matchedKey G p = Some key /\ scale p = v)
        /\ (forall p, In p seen -> matchedKey G p = Some key -> (scale p <= v)%Z))
  /\ (forall p key, In p seen -> matchedKey G p = Some key -> (-1 < scale p)%Z ->
        In key (map fst m)).

(* ------------------------------------------------------------------ *)
(** ** The alarm of [SoundService] and the display logic of [App] *)

Module Sound.

(** The one-shot sounds, by the method that plays them. *)
Inductive OneShot : Type := Forecast | Notification | QuakeInfo.

(** The service, as far as [App] drives it: the enabled flag, whether an
    audio context exists, the alarm interval it remembers, the intervals
    alive in the window, the handles given out, the tones started and the
    one-shot methods called (both newest last). *)
Record SoundService : Type := mkService {
  _enabled : bool;
  ctx : bool;
  loopInterval : option nat;
  intervals : list nat;
  handles : nat;
  tones : list Z;
  calls : list OneShot
}.

(** [playTone(freq, ...)]: silent unless enabled and with a context. *)
Definition playTone (freq : Z) (s : SoundService) : SoundService :=
  if negb (_enabled s) || negb (ctx s) then s
  else mkService (_enabled s) (ctx s) (loopInterval s) (intervals s)
                 (handles s) (tones s ++ [freq]) (calls s).

Definition playPong (s : SoundService) : SoundService := playTone 784 s.

(** [startAlarm]: nothing when an interval is remembered; else one pong
    and a new interval, whose handle is a positive integer. *)
Definition startAlarm (s : SoundService) : SoundService :=
  match loopInterval s with
  | Some _ => s
  | None =>
      let s1 := playPong s in
      let h := S (handles s1) in
      mkService (_enabled s1) (ctx s1) (Some h) (intervals s1 ++ [h])
                h (tones s1) (calls s1)
  end.

(** [window.clearInterval(h)] on the intervals alive. *)
Definition clearInterval (h : nat) (alive : list nat) : list nat :=
  filter (fun i => negb (Nat.eqb i h)) alive.

Definition stopAlarm (s : SoundService) : SoundService :=
  match loopInterval s with
  | Some h =>
      mkService (_enabled s) (ctx s) None (clearInterval h (intervals s))
                (handles s) (tones s) (calls s)
  | None => s
  end.

(** [set enabled(val)] *)
Definition setEnabled (val : bool) (s : SoundService) : SoundService :=
  let s1 := mkService val (ctx s) (loopInterval s) (intervals s)
                      (handles s) (tones s) (calls s) in
  if negb val then stopAlarm s1 else s1.

(** A call of [playForecast], [playNotification] or [playQuakeInfo]. *)
Definition play (o : OneShot) (s : SoundService) : SoundService :=
  mkService (_enabled s) (ctx s) (loopInterval s) (intervals s)
            (handles s) (tones s) (calls s ++ [o]).

(** The service as constructed. *)
Definition fresh (hasContext : bool) : SoundService :=
  mkService false hasContext None [] 0 [] [].

(** The intervals alive are exactly the one the service remembers. *)
Definition tidy (s : SoundService) : Prop :=
  intervals s = match loopInterval s with Some h => [h] | None => [] end.

End Sound.

Module App.

(** What a timeout of [startSimulation] does when it fires. *)
Inductive SimStep : Type :=
| SimWarning (originTime : jsstring)   (* "Step 2: Update EEW (Warning)" *)
| SimFinal                             (* "Step 3: Final Report (Simulated)" *)
| SimReport                            (* "Step 4: Final Quake Report" *)
| SimEnd.                              (* the last timeout: the warning ends *)

(** The timeouts of the simulation: the handles kept in
    [simulationTimersRef.current], the timeouts set and neither fired nor
    cleared, and the last handle [window.setTimeout] gave. *)
Record SimTimers : Type := mkTimers {
  timerIds : list nat;
  pending : list (nat * SimStep);
  lastTimer : nat
}.

Definition noTimers : SimTimers := mkTimers [] [] 0.

(** [simulationTimersRef.current.forEach(t => window.clearTimeout(t));
     simulationTimersRef.current = []] *)
Definition clearTimers (t : SimTimers) : SimTimers :=
  mkTimers []
    (filter (fun e => negb (existsb (Nat.eqb (fst e)) (timerIds t))) (pending t))
    (lastTimer t).

Record State : Type := mkState {
  liveQuake : option Feed.P2PQuakeData;
  liveEEW : EEWState;
  displayQuake : option Feed.P2PQuakeData;
  displayEEW : EEWState;
  mode : ViewMode;
  isSoundEnabled : bool;
  simulationTimers : SimTimers;
  prevEEWRef : EEWState;
  prevQuakeIdRef : jsstring;
  soundService : Sound.SoundService
}.

Definition withSound (s : Sound.SoundService) (st : State) : State :=
  mkState (liveQuake st) (liveEEW st) (displayQuake st) (displayEEW st)
          (mode st) (isSoundEnabled st) (simulationTimers st)
          (prevEEWRef st) (prevQuakeIdRef st) s.

Definition initial (hasContext : bool) : State :=
  mkState None initialEEW None initialEEW live false noTimers initialEEW []
          (Sound.fresh hasContext).

(** Effect 2: "Sync Display Data with Live Data when in 'live' mode" *)
Definition syncEffect (st : State) : State :=
  if ViewMode_eqb (mode st) live then
    mkState (liveQuake st) (liveEEW st) (liveQuake st) (liveEEW st)
            (mode st) (isSoundEnabled st) (simulationTimers st)
            (prevEEWRef st) (prevQuakeIdRef st) (soundService st)
  else st.

Section Audio.

(** [new Date(text).getTime()] *)
Variable getTime : jsstring -> number.

(** Effect 3: "Audio Logic Monitoring", run at instant [now]. *)
Definition audioEffect (now : Z) (st : State) : State :=
  if negb (isSoundEnabled st) then st
  else
    let currentEEW := displayEEW st in
    let prevEEW := prevEEWRef st in
    let s0 := soundService st in
    (* EEW Warning Loop Logic *)
    let s1 :=
      if isActive currentEEW && isWarning currentEEW
         && negb (truthyFlag (isFinal currentEEW))
      then Sound.startAlarm s0 else Sound.stopAlarm s0 in
    (* Case A: EEW Forecast Started (only if not warning) *)
    let s2 :=
      if isActive currentEEW && negb (isActive prevEEW)
         && negb (isWarning currentEEW)
      then Sound.play Sound.Forecast s1 else s1 in
    (* Case B: Final Report Reached *)
    let s3 :=
      if truthyFlag (isFinal currentEEW) && negb (truthyFlag (isFinal prevEEW))
         && isActive currentEEW
      then Sound.play Sound.Notification (Sound.stopAlarm s2) else s2 in
    (* Case C: New Quake Report *)
    let '(s4, prevId) :=
      match displayQuake st with
      | Some quake =>
          if negb (JsString.eqb (Feed._id quake) (prevQuakeIdRef st)) then
            let isRecent :=
              Num.gt (getTime (Feed.time quake))
                     (Num.sub (Num.ofZ now) (Fin (1000 * 60 * 10))) in
            ((if isRecent || ViewMode_eqb (mode st) simulation
              then Sound.play Sound.QuakeInfo s3 else s3),
             Feed._id quake)
          else (s3, prevQuakeIdRef st)
      | None => (s3, prevQuakeIdRef st)
      end in
    mkState (liveQuake st) (liveEEW st) (displayQuake st) (displayEEW st)
            (mode st) (isSoundEnabled st) (simulationTimers st)
            currentEEW prevId s4.

End Audio.

(** [handleNewLiveQuake] *)
Definition handleNewLiveQuake (data : Feed.P2PQuakeData) (st : State) : State :=
  mkState (Some data) (liveEEW st) (displayQuake st) (displayEEW st)
          (mode st) (isSoundEnabled st) (simulationTimers st)
          (prevEEWRef st) (prevQuakeIdRef st) (soundService st).

(** [setLiveEEW] with a new value. *)
Definition setLiveEEW (e : EEWState) (st : State) : State :=
  mkState (liveQuake st) e (displayQuake st) (displayEEW st)
          (mode st) (isSoundEnabled st) (simulationTimers st)
          (prevEEWRef st) (prevQuakeIdRef st) (soundService st).

(** [handleReturnHome] *)
Definition handleReturnHome (st : State) : State :=
  mkState (liveQuake st) (liveEEW st) (displayQuake st) (displayEEW st)
          live (isSoundEnabled st) (clearTimers (simulationTimers st))
          initialEEW (prevQuakeIdRef st) (Sound.stopAlarm (soundService st)).

(** [handleSelectHistoryQuake] *)
Definition handleSelectHistoryQuake (data : Feed.P2PQuakeData) (st : State) : State :=
  mkState (liveQuake st) (liveEEW st) (Some data) initialEEW
          history (isSoundEnabled st) (simulationTimers st)
          (prevEEWRef st) (prevQuakeIdRef st) (soundService st).

(** [toggleSound] *)
Definition toggleSound (st : State) : State :=
  let newState := negb (isSoundEnabled st) in
  let s1 := Sound.setEnabled newState (soundService st) in
  let s2 := if newState then Sound.play Sound.Notification s1 else s1 in
  mkState (liveQuake st) (liveEEW st) (displayQuake st) (displayEEW st)
          (mode st) newState (simulationTimers st)
          (prevEEWRef st) (prevQuakeIdRef st) s2.

(** The strings of the simulated event. *)
Definition simHypocenter : jsstring :=
  [21644; 27468; 23665; 30476; 21271; 37096]%N.           (* 和歌山県北部 *)
Definition simForecastTitle : jsstring :=
  [32202; 24613; 22320; 38663; 36895; 22577; 65288; 20104; 22577; 65289]%N.
                                                           (* 緊急地震速報（予報） *)
Definition simWarningTitle : jsstring :=
  [32202; 24613; 22320; 38663; 36895; 22577; 65288; 35686; 22577; 65289]%N.
                                                           (* 緊急地震速報（警報） *)
Definition simAreas : list jsstring :=
  [ [21644; 27468; 23665; 30476];     (* 和歌山県 *)
    [22823; 38442; 24220];            (* 大阪府 *)
    [22856; 33391; 30476];            (* 奈良県 *)
    [24499; 23798; 30476];            (* 徳島県 *)
    [20853; 24235; 30476] ]%N.        (* 兵庫県 *)

(** "Step 1: Initial EEW (Forecast)" *)
Definition simForecast (originTime : jsstring) (stamp : Z) : EEWState :=
  {| isActive := true;
     isWarning := false;
     isFinal := Some false;
     hypocenterName := Some simHypocenter;
     magnitude := Some (Num.ofQ (45 # 10));
     depth := Some (Fin 10);
     maxIntensity := Some (JsString.lit "3");
     areas := [[21644; 27468; 23665; 30476]%N];            (* 和歌山県 *)
     occurredTime := Some originTime;
     title := Some simForecastTitle;
     updatedTime := Some stamp |}.

(** "Step 2: Update EEW (Warning)" *)
Definition simWarning (originTime : jsstring) (stamp : Z) : EEWState :=
  {| isActive := true;
     isWarning := true;
     isFinal := Some false;
     hypocenterName := Some simHypocenter;
     magnitude := Some (Num.ofQ (72 # 10));
     depth := Some (Fin 10);
     maxIntensity := Some ([54; 24375]%N);                 (* 6強 *)
     areas := simAreas;
     occurredTime := Some originTime;
     title := Some simWarningTitle;
     updatedTime := Some stamp |}.

(** [prev => ({ ...prev, isFinal: true, updatedTime: Date.now() })] *)
Definition simFinal (stamp : Z) (prev : EEWState) : EEWState :=
  {| isActive := isActive prev;
     isWarning := isWarning prev;
     isFinal := Some true;
     hypocenterName := hypocenterName prev;
     magnitude := magnitude prev;
     depth := depth prev;
     maxIntensity := maxIntensity prev;
     areas := areas prev;
     occurredTime := occurredTime prev;
     title := title prev;
     updatedTime := Some stamp |}.

(** [mockQuake]: its id is ["sim_" + Date.now()]. *)
Definition simQuake (stamp : Z) (iso : jsstring) : Feed.P2PQuakeData :=
  Feed.mkQuake
    (JsString.lit "sim_" ++ JsString.lit (NilZero.string_of_int (Z.to_int stamp)))
    551 iso.

Definition withDisplay (q : option Feed.P2PQuakeData) (e : EEWState)
    (t : SimTimers) (st : State) : State :=
  mkState (liveQuake st) (liveEEW st) q e
          (mode st) (isSoundEnabled st) t
          (prevEEWRef st) (prevQuakeIdRef st) (soundService st).

(** [startSimulation]; [originTime] is
    [new Date(now.getTime() - 2000).toISOString()] and [stamp] is
    [Date.now()]. *)
Definition startSimulation (originTime : jsstring) (stamp : Z) (st : State)
    : State :=
  let st1 := handleReturnHome st in
  let t := simulationTimers st1 in
  let h := lastTimer t in
  mkState (liveQuake st1) (liveEEW st1) None (simForecast originTime stamp)
          simulation (isSoundEnabled st1)
          (mkTimers (timerIds t ++ [h + 1; h + 2; h + 3; h + 4])%nat
                    (pending t ++ [ ((h + 1)%nat, SimWarning originTime);
                                    ((h + 2)%nat, SimFinal);
                                    ((h + 3)%nat, SimReport);
                                    ((h + 4)%nat, SimEnd) ])
                    (h + 4)%nat)
          initialEEW (prevQuakeIdRef st1) (soundService st1).

(** The timeout with handle [id] fires, if it is pending, at instant
    [stamp]; [iso] is [new Date().toISOString()] then. *)
Definition fireTimer (id : nat) (stamp : Z) (iso : jsstring) (st : State) : State :=
  let t := simulationTimers st in
  match find (fun e => Nat.eqb (fst e) id) (pending t) with
  | None => st
  | Some (_, step) =>
      let t' := mkTimers (timerIds t)
                         (filter (fun e => negb (Nat.eqb (fst e) id)) (pending t))
                         (lastTimer t) in
      match step with
      | SimWarning originTime =>
          withDisplay (displayQuake st) (simWarning originTime stamp) t' st
      | SimFinal =>
          withDisplay (displayQuake st) (simFinal stamp (displayEEW st)) t' st
      | SimReport =>
          withDisplay (Some (simQuake stamp iso)) (displayEEW st) t' st
      | SimEnd =>
          withDisplay (displayQuake st) initialEEW t' st
      end
  end.

(** What can happen to the application, one event at a time. *)
Inductive Action : Type :=
| Sync                                        (* effect 2 runs *)
| Audio (now : Z)                             (* effect 3 runs *)
| Timeout (now : Z) (captured : EEWState)     (* an interval installed for
                                                 [captured] fires *)
| LiveQuake (data : Feed.P2PQuakeData)        (* a report arrives *)
| LiveEEW (now : Z) (data : WolfxEEWData.t)   (* an early-warning frame arrives *)
| SimTimer (id : nat) (stamp : Z) (iso : jsstring)
                                              (* a timeout of the simulation *)
| ReturnHome
| SelectHistory (data : Feed.P2PQuakeData)
| StartSimulation (originTime : jsstring) (stamp : Z)
| ToggleSound.

(** The actions that need no user: effects, timers and the feeds. *)
Definition background (a : Action) : bool :=
  match a with
  | Sync | Audio _ | Timeout _ _ | LiveQuake _ | LiveEEW _ _ | SimTimer _ _ _ => true
  | ReturnHome | SelectHistory _ | StartSimulation _ _ | ToggleSound => false
  end.

Section Run.

Variable getTime : jsstring -> number.

Definition step (st : State) (a : Action) : State :=
  match a with
  | Sync => syncEffect st
  | Audio now => audioEffect getTime now st
  | Timeout now captured =>
      (* the interval exists only if the effect installed it for [captured] *)
      if timeoutInstalled live captured
      then setLiveEEW (timeoutTick now captured (liveEEW st)) st
      else st
  | LiveQuake data => handleNewLiveQuake data st
  | LiveEEW now data =>
      setLiveEEW (handleLiveWolfxEEW now data (liveEEW st)) st
  | SimTimer id stamp iso => fireTimer id stamp iso st
  | ReturnHome => handleReturnHome st
  | SelectHistory data => handleSelectHistoryQuake data st
  | StartSimulation originTime stamp => startSimulation originTime stamp st
  | ToggleSound => toggleSound st
  end.

Definition run (actions : list Action) (st : State) : State :=
  fold_left step actions st.

End Run.

(** The condition under which the audio effect lets the alarm loop. *)
Definition alarmDue (e : EEWState) : bool :=
  isActive e && isWarning e && negb (truthyFlag (isFinal e)).

(** The alarm bookkeeping is sound: the intervals alive are exactly the one
    the service remembers, the service's flag is the application's, and an
    alarm is remembered only while sound is on. *)
Definition alarmInvariant (st : State) : Prop :=
  Sound.intervals (soundService st)
  = match Sound.loopInterval (soundService st) with
    | Some h => [h]
    | None => []
    end
  /\ Sound._enabled (soundService st) = isSoundEnabled st
  /\ (Sound.loopInterval (soundService st) <> None -> isSoundEnabled st = true).

(** Every pending timeout of the simulation has its handle in
    [simulationTimersRef.current]: returning home clears it. *)
Definition timersTracked (st : State) : Prop :=
  forall e, In e (pending (simulationTimers st)) ->
            In (fst e) (timerIds (simulationTimers st)).

End App.

(* ------------------------------------------------------------------ *)
(** ** Reading numbers and times aloud ([SoundService]) *)

Module Speech.

(** [Math.floor] *)
Definition floor (a : number) : number :=
  match a with
  | Fin q => Fin (inject_Z (Qfloor q))
  | _ => a
  end.

(** The integer part of a rational, towards zero. *)
Definition Qtrunc (q : Q) : Z :=
  if Qle_bool 0 q then Qfloor q else Qceiling q.

(** [a % b] *)
Definition rem (a b : number) : number :=
  match a, b with
  | NaN, _ | _, NaN => NaN
  | Fin x, Fin y =>
      if Qeq_bool y 0 then NaN
      else Fin (x - y * inject_Z (Qtrunc (x / y)))
  | Fin x, _ => Fin x
  | _, _ => NaN
  end.

(** A number used as a condition: 0 and NaN are falsy. *)
Definition truthy (a : number) : bool :=
  match a with
  | NaN => false
  | Fin q => negb (Qeq_bool q 0)
  | _ => true
  end.

(** The keys of [VOICE_ASSETS], in the order of the table. *)
Definition VOICE_ASSET_KEYS : list jsstring :=
  map JsString.lit
    [ "0"; "1"; "2"; "3"; "4"; "5"; "6"; "7"; "8"; "9"; "10"; "100"; "1000";
      "point"; "ji"; "fun"; "byou"; "km"; "gozen"; "gogo";
      "jishin"; "sokuhou"; "eew_yohou"; "eew_keihou"; "shindo"; "jaku"; "kyou";
      "shingen"; "magnitude"; "fukasa"; "desu"; "arimasita"; "kaijo";
      "chime"; "ping" ]%string.

Definition isAssetKey (key : jsstring) : bool :=
  existsb (JsString.eqb key) VOICE_ASSET_KEYS.

Section Keys.

(** [toString] of a number that is not an integer of magnitude at most
    2^53: its digits depend on the binary64 value. *)
Variable formatOther : Q -> jsstring.

(** [n.toString()] *)
Definition toString (a : number) : jsstring :=
  match a with
  | NaN => JsString.lit "NaN"
  | PosInf => JsString.lit "Infinity"
  | NegInf => JsString.lit "-Infinity"
  | Fin q =>
      if Qeq_bool q (inject_Z (Qfloor q))
         && Qle_bool (Qabs q) (inject_Z (2 ^ 53))
      then JsString.lit (NilZero.string_of_int (Z.to_int (Qfloor q)))
      else formatOther q
  end.

(** One place of the number; the blocks for 1000, 100 and 10 have this one
    shape: when [n >= unit], push the count of units (unless it is 1) and
    the unit's key, and reduce [n] modulo the unit. *)
Definition place (unit : Q) (unitKey : string) (state : number * list jsstring)
    : number * list jsstring :=
  let (n, keys) := state in
  if Num.le (Fin unit) n then
    let count := floor (Num.div n (Fin unit)) in
    let n' := rem n (Fin unit) in
    (n', (if Num.gt count (Fin 1) then keys ++ [toString count] else keys)
         ++ [JsString.lit unitKey])
  else (n, keys).

(** [getNumberKeys]: "数字を読み上げるためのキー配列を生成する" *)
Definition getNumberKeys (num : number) : list jsstring :=
  let n := floor num in
  if Num.lt n (Fin 0) || Num.le (Fin 10000) n then [toString n]
  else
    let s1 := place 1000 "1000" (n, []) in
    let s2 := place 100 "100" s1 in
    let (n3, keys) := place 10 "10" s2 in
    if Num.gt n3 (Fin 0) then keys ++ [toString n3]
    else match keys with
         | [] => [JsString.lit "0"]
         | _ :: _ => keys
         end.

(** [getTimeKeys], from the hours and minutes the date gives. *)
Definition getTimeKeys (h m : number) : list jsstring :=
  let ampm := if Num.lt h (Fin 12) then JsString.lit "gozen" else JsString.lit "gogo" in
  let hour12 := if truthy (rem h (Fin 12)) then rem h (Fin 12) else Fin 12 in
  [ampm] ++ getNumberKeys hour12 ++ [JsString.lit "ji"]
  ++ (if Num.seq m (Fin 0) then []
      else getNumberKeys m ++ [JsString.lit "fun"]).

End Keys.

(** The number a run of numeral keys says, in the Japanese way: a digit
    before a unit multiplies it, a unit alone counts once, and the parts
    add up. *)
Definition isUnit (v : Z) : bool :=
  Z.eqb v 10 || Z.eqb v 100 || Z.eqb v 1000.

Fixpoint spoken (values : list Z) : Z :=
  match values with
  | [] => 0
  | d :: rest =>
      match rest with
      | u :: rest' =>
          if (d <? 10)%Z && isUnit u then d * u + spoken rest'
          else d + spoken rest
      | [] => d
      end
  end.

Definition said (keys : list jsstring) : Z :=
  spoken (map JsString.digitsValue keys).

Fixpoint keysEqb (a b : list jsstring) : bool :=
  match a, b with
  | [], [] => true
  | x :: a', y :: b' => JsString.eqb x y && keysEqb a' b'
  | _, _ => false
  end.

(** The check made of each number below 10000. *)
Definition numberKeysOk (formatOther : Q -> jsstring) (z : Z) : bool :=
  let keys := getNumberKeys formatOther (Num.ofZ z) in
  forallb isAssetKey keys && Z.eqb (said keys) z
  && negb (Nat.eqb (List.length keys) 0).

(** The check made of each time of day. *)
Definition timeKeysOk (formatOther : Q -> jsstring) (hm : Z * Z) : bool :=
  let (h, m) := hm in
  let hourKeys :=
    getNumberKeys formatOther
      (Num.ofZ (if Z.eqb (h mod 12) 0 then 12 else h mod 12)) in
  let minuteKeys := getNumberKeys formatOther (Num.ofZ m) in
  forallb isAssetKey (getTimeKeys formatOther (Num.ofZ h) (Num.ofZ m))
  && keysEqb
       (getTimeKeys formatOther (Num.ofZ h) (Num.ofZ m))
       ([if (h <? 12)%Z then JsString.lit "gozen" else JsString.lit "gogo"]
        ++ hourKeys ++ [JsString.lit "ji"]
        ++ (if Z.eqb m 0 then [] else minuteKeys ++ [JsString.lit "fun"])).

End Speech.

(* ------------------------------------------------------------------ *)
(** ** The intensity report of [InfoPanel] *)

Module InfoPanel.

(** The order of [areas.sort()]: strings by their code units. *)
Fixpoint stringLeb (a b : jsstring) : bool :=
  match a, b with
  | [], _ => true
  | _ :: _, [] => false
  | u :: a', v :: b' =>
      if N.ltb u v then true
      else if N.eqb u v then stringLeb a' b' else false
  end.

(** [Array.prototype.sort] under an order [leb]: the stable arrangement in
    which each element is before those it is [leb] to. *)
Fixpoint insertBy {A : Type} (leb : A -> A -> bool) (a : A) (l : list A) : list A :=
  match l with
  | [] => [a]
  | b :: rest => if leb a b then a :: l else b :: insertBy leb a rest
  end.

Definition sortBy {A : Type} (leb : A -> A -> bool) (l : list A) : list A :=
  fold_right (insertBy leb) [] l.

(** [Array.from(new Set(values))]: first occurrences, in order. *)
Definition dedupe (values : list Z) : list Z :=
  fold_left (fun seen v => if existsb (Z.eqb v) seen then seen else seen ++ [v])
            values [].

(** "Get unique scales sorted desc" *)
Definition uniqueScales (pts : list QuakePoint) : list Z :=
  sortBy (fun a b => (b <=? a)%Z) (dedupe (map scale pts)).

(** A [Map] from prefecture to its addresses, in insertion order. *)
Definition PrefsMap : Type := list (jsstring * list jsstring).

Definition mapHas (key : jsstring) (m : PrefsMap) : bool :=
  existsb (fun e => JsString.eqb (fst e) key) m.

(** [if (!prefsMap.get(key)?.includes(a)) prefsMap.get(key)?.push(a)] *)
Fixpoint pushArea (key a : jsstring) (m : PrefsMap) : PrefsMap :=
  match m with
  | [] => []
  | (key', areas) :: rest =>
      if JsString.eqb key' key
      then (key', if existsb (JsString.eqb a) areas then areas else areas ++ [a])
           :: rest
      else (key', areas) :: pushArea key a rest
  end.

(** The body of [pointsInScale.forEach]. *)
Definition addPoint (m : PrefsMap) (p : QuakePoint) : PrefsMap :=
  let m1 := if negb (mapHas (pref p) m) then m ++ [(pref p, [])] else m in
  pushArea (pref p) (addr p) m1.

Definition prefsMapOf (pointsInScale : list QuakePoint) : PrefsMap :=
  fold_left addPoint pointsInScale [].

Definition pointsInScale (pts : list QuakePoint) (s : Z) : list QuakePoint :=
  filter (fun p => Z.eqb (scale p) s) pts.

Record PrefGroup : Type := mkPref { name : jsstring; areas : list jsstring }.

Record ScaleGroup : Type := mkGroup { scale : Z; prefs : list PrefGroup }.

Definition groupOf (pts : list QuakePoint) (s : Z) : ScaleGroup :=
  mkGroup s (map (fun e => mkPref (fst e) (sortBy stringLeb (snd e)))
                 (prefsMapOf (pointsInScale pts s))).

(** [intensityGroups]; a report without points gives none. *)
Definition intensityGroups (pts : list QuakePoint) : list ScaleGroup :=
  map (groupOf pts) (uniqueScales pts).

(** What [prefsMapOf] holds after the points [seen]: one entry per
    prefecture, holding without repetition exactly the addresses seen under
    it. *)
Definition prefsInvariant (seen : list QuakePoint) (m : PrefsMap) : Prop :=
  NoDup (map fst m)
  /\ (forall key areas, In (key, areas) m ->
        NoDup areas
        /\ forall a, In a areas <-> exists p, In p seen /\ pref p = key /\ addr p = a)
  /\ (forall p, In p seen -> In (pref p) (map fst m)).

End InfoPanel.

(* ================================================================== *)
(** * Properties *)

(** ** Strings and numbers *)

Module JsStringFacts.
Import JsString.

Lemma eqb_eq (a b : t) : eqb a b = true <-> a = b.
Proof.
  revert b; induction a as [|x a IH]; intros [|y b]; simpl;
    try (split; congruence).
  rewrite andb_true_iff, N.eqb_eq, IH. split.
  - intros [-> ->]; reflexivity.
  - intros H; inversion H; auto.
Qed.

Lemma startsWith_refl (a : t) : startsWith a a = true.
Proof. induction a; simpl; [|rewrite N.eqb_refl]; auto. Qed.

Lemma startsWith_includes (name k : t) :
  startsWith name k = true -> includes name k = true.
Proof. destruct name; simpl; intros ->; reflexivity. Qed.

Lemma keepDigits_all (s : t) : forallb isDigit (keepDigits s) = true.
Proof.
  unfold keepDigits. induction s as [|c s IH]; simpl; auto.
  destruct (isDigit c) eqn:E; simpl; auto. rewrite E; auto.
Qed.

Lemma spanDigits_all (s : t) :
  forallb isDigit s = true -> spanDigits s = (s, []).
Proof.
  induction s as [|c s IH]; simpl; auto.
  intros H. apply andb_true_iff in H as [-> H].
  rewrite (IH H). reflexivity.
Qed.

Lemma trimStart_digits (s : t) :
  forallb isDigit s = true -> trimStart s = s.
Proof.
  destruct s as [|c s]; simpl; auto.
  intros H. apply andb_true_iff in H as [H _].
  assert (isWhiteSpace c = false) as ->; auto.
  unfold isDigit in H. apply andb_true_iff in H as [H1 H2].
  apply N.leb_le in H1, H2.
  unfold isWhiteSpace. apply orb_false_iff. split.
  - simpl. repeat (apply orb_false_iff; split); try reflexivity;
      apply N.eqb_neq; lia.
  - apply andb_false_iff. left. apply N.leb_gt. lia.
Qed.

Lemma digitsValue_from (d : t) (acc : Z) :
  forallb isDigit d = true -> (0 <= acc)%Z ->
  (0 <= fold_left (fun a c => 10 * a + (Z.of_N c - 48))%Z d acc)%Z.
Proof.
  revert acc. induction d as [|c d IH]; cbn [fold_left forallb];
    intros acc H Hacc; auto.
  apply andb_true_iff in H as [Hc H]. apply IH; auto.
  unfold isDigit in Hc. apply andb_true_iff in Hc as [H1 H2].
  apply N.leb_le in H1, H2. lia.
Qed.

Lemma digitsValue_nonneg (d : t) :
  forallb isDigit d = true -> (0 <= digitsValue d)%Z.
Proof. intros H. apply digitsValue_from; [exact H | lia]. Qed.

End JsStringFacts.

Module NumFacts.
Import Num.

Lemma Qltb_lt (a b : Q) : Qltb a b = true <-> a < b.
Proof.
  unfold Qltb. rewrite negb_true_iff. split; intros H.
  - apply Qnot_le_lt. intros L. apply Qle_bool_iff in L. congruence.
  - destruct (Qle_bool b a) eqn:E; auto.
    apply Qle_bool_iff in E. apply Qle_not_lt in E. contradiction.
Qed.

Lemma Qltb_ge (a b : Q) : Qltb a b = false <-> b <= a.
Proof.
  unfold Qltb. rewrite negb_false_iff. apply Qle_bool_iff.
Qed.

Lemma lt_zero_false (x : Q) : lt (Fin x) (Fin 0) = false <-> 0 <= x.
Proof. cbn [lt]. apply Qltb_ge. Qed.

(** *** Powers of two and binades *)

Lemma pow2_pos e : 0 < pow2 e.
Proof. apply Qpower_0_lt. reflexivity. Qed.

Lemma pow2_add a b : pow2 (a + b) == pow2 a * pow2 b.
Proof. apply Qpower_plus. discriminate. Qed.

Lemma pow2_le a b : (a <= b)%Z -> pow2 a <= pow2 b.
Proof. intros H. apply Qpower_le_compat_l; [exact H | discriminate]. Qed.

Lemma pow2_lt a b : (a < b)%Z -> pow2 a < pow2 b.
Proof. intros H. apply Qpower_lt_compat_l; [exact H | reflexivity]. Qed.

Lemma pow2_lt_inv a b : pow2 a < pow2 b -> (a < b)%Z.
Proof. intros H. apply (Qpower_lt_compat_l_inv 2); [exact H | reflexivity]. Qed.

Lemma pow2_Z a : (0 <= a)%Z -> pow2 a == inject_Z (2 ^ a).
Proof. intros H. unfold pow2. rewrite Zpower_Qpower by exact H. reflexivity. Qed.

Lemma pow2_succ a : pow2 (a + 1) == 2 * pow2 a.
Proof. rewrite pow2_add. change (pow2 1) with 2. ring. Qed.

Lemma pow2_pred a : pow2 (a - 1) == pow2 a / 2.
Proof.
  assert (E : pow2 a == pow2 ((a - 1) + 1)) by (replace (a - 1 + 1)%Z with a by lia; reflexivity).
  rewrite pow2_succ in E. rewrite E. field.
Qed.

Lemma ilog2_spec q : 0 < q -> pow2 (ilog2 q) <= q /\ q < pow2 (ilog2 q + 1).
Proof.
  intros Hq. destruct q as [n d]. unfold ilog2. cbn [Qnum Qden].
  assert (Hn : (0 < n)%Z) by (unfold Qlt in Hq; cbn in Hq; lia).
  set (a := Z.log2 n). set (b := Z.log2 (Z.pos d)).
  destruct (Z.log2_spec n Hn) as [Ha1 Ha2]. fold a in Ha1, Ha2.
  destruct (Z.log2_spec (Z.pos d) eq_refl) as [Hb1 Hb2]. fold b in Hb1, Hb2.
  assert (Ha0 : (0 <= a)%Z) by apply Z.log2_nonneg.
  assert (Hb0 : (0 <= b)%Z) by apply Z.log2_nonneg.
  assert (Eq : n # d == inject_Z n / inject_Z (Z.pos d)) by (rewrite Qmake_Qdiv; reflexivity).
  assert (Hd : 0 < inject_Z (Z.pos d)) by reflexivity.
  (* bounds in Q *)
  assert (A1 : pow2 a <= inject_Z n) by (rewrite pow2_Z by lia; rewrite <- Zle_Qle; exact Ha1).
  assert (A2 : inject_Z n < pow2 (a + 1)).
  { rewrite pow2_Z by lia. rewrite <- Zlt_Qlt. replace (a + 1)%Z with (Z.succ a) by lia. exact Ha2. }
  assert (B1 : pow2 b <= inject_Z (Z.pos d)) by (rewrite pow2_Z by lia; rewrite <- Zle_Qle; exact Hb1).
  assert (B2 : inject_Z (Z.pos d) < pow2 (b + 1)).
  { rewrite pow2_Z by lia. rewrite <- Zlt_Qlt. replace (b + 1)%Z with (Z.succ b) by lia. exact Hb2. }
  assert (U : n # d < pow2 (a - b + 1)).
  { rewrite Eq. apply Qlt_shift_div_r; [exact Hd|].
    apply Qlt_le_trans with (pow2 (a + 1)); [exact A2|].
    replace (a + 1)%Z with ((a - b + 1) + b)%Z by lia. rewrite pow2_add.
    apply Qmult_le_l; [apply pow2_pos | exact B1]. }
  assert (L : pow2 (a - b - 1) < n # d).
  { rewrite Eq. apply Qlt_shift_div_l; [exact Hd|].
    apply Qlt_le_trans with (pow2 a); [|exact A1].
    replace a with ((a - b - 1) + (b + 1))%Z at 2 by lia. rewrite pow2_add.
    apply Qmult_lt_l; [apply pow2_pos | exact B2]. }
  destruct (Qle_bool (pow2 (a - b)) (n # d)) eqn:E.
  - apply Qle_bool_iff in E. split; [exact E | exact U].
  - split.
    + apply Qlt_le_weak. exact L.
    + replace (a - b - 1 + 1)%Z with (a - b)%Z by lia.
      apply Qnot_le_lt. intros C. apply Qle_bool_iff in C. congruence.
Qed.

Lemma ilog2_unique q e : 0 < q -> pow2 e <= q -> q < pow2 (e + 1) -> ilog2 q = e.
Proof.
  intros Hq H1 H2. destruct (ilog2_spec q Hq) as [S1 S2].
  assert (X1 : (e < ilog2 q + 1)%Z).
  { apply pow2_lt_inv. apply Qle_lt_trans with q; assumption. }
  assert (X2 : (ilog2 q < e + 1)%Z).
  { apply pow2_lt_inv. apply Qle_lt_trans with q; assumption. }
  lia.
Qed.

Lemma ilog2_le q q' : 0 < q -> q <= q' -> (ilog2 q <= ilog2 q')%Z.
Proof.
  intros Hq Hle. assert (Hq' : 0 < q') by (apply Qlt_le_trans with q; assumption).
  destruct (ilog2_spec q Hq) as [S1 _]. destruct (ilog2_spec q' Hq') as [_ S2].
  assert (X : (ilog2 q < ilog2 q' + 1)%Z).
  { apply pow2_lt_inv. apply Qle_lt_trans with q; [exact S1|].
    apply Qle_lt_trans with q'; assumption. }
  lia.
Qed.

Lemma ilog2_proper q q' : 0 < q -> q == q' -> ilog2 q = ilog2 q'.
Proof.
  intros Hq E. assert (Hq' : 0 < q') by (rewrite <- E; exact Hq).
  destruct (ilog2_spec q' Hq') as [S1 S2].
  apply ilog2_unique; [exact Hq | rewrite E; exact S1 | rewrite E; exact S2].
Qed.

(** rne *)
Lemma rne_cases m :
  (rne m = Qfloor m /\ m - inject_Z (Qfloor m) <= 1 # 2)
  \/ (rne m = (Qfloor m + 1)%Z /\ (1 # 2) <= m - inject_Z (Qfloor m)).
Proof.
  unfold rne.
  destruct (Qltb (m - inject_Z (Qfloor m)) (1 # 2)) eqn:E1.
  - left. apply Qltb_lt in E1. split; [reflexivity | lra].
  - apply Qltb_ge in E1.
    destruct (Qltb (1 # 2) (m - inject_Z (Qfloor m))) eqn:E2.
    + right. split; [reflexivity | exact E1].
    + apply Qltb_ge in E2. destruct (Z.even (Qfloor m)); [left | right]; split; auto.
Qed.

Lemma floor_bounds m : inject_Z (Qfloor m) <= m /\ m < inject_Z (Qfloor m) + 1.
Proof.
  split; [apply Qfloor_le|]. pose proof (Qlt_floor m) as H.
  rewrite inject_Z_plus in H. exact H.
Qed.

Lemma rne_error m : - (1 # 2) <= inject_Z (rne m) - m <= 1 # 2.
Proof.
  destruct (floor_bounds m) as [F1 F2].
  destruct (rne_cases m) as [[-> H] | [-> H]].
  - split; lra.
  - rewrite inject_Z_plus. change (inject_Z 1) with 1. split; lra.
Qed.

Lemma rne_ge_int m z : inject_Z z <= m -> (z <= rne m)%Z.
Proof.
  intros H. assert (Hf : (z <= Qfloor m)%Z).
  { rewrite <- (Qfloor_Z z). apply Qfloor_resp_le. exact H. }
  destruct (rne_cases m) as [[-> _] | [-> _]]; lia.
Qed.

Lemma rne_le_int m z : m <= inject_Z z -> (rne m <= z)%Z.
Proof.
  intros H. destruct (floor_bounds m) as [F1 F2].
  destruct (rne_cases m) as [[-> _] | [-> Hr]].
  - rewrite Zle_Qle. lra.
  - (* floor m + 1 <= z : since m >= floor + 1/2 and m <= z, floor < z *)
    assert (X : inject_Z (Qfloor m) < inject_Z z) by lra.
    rewrite <- Zlt_Qlt in X. lia.
Qed.

Lemma rne_Z z : rne (inject_Z z) = z.
Proof.
  apply Z.le_antisymm; [apply rne_le_int | apply rne_ge_int]; apply Qle_refl.
Qed.

Lemma Qltb_proper a a' b b' : a == a' -> b == b' -> Qltb a b = Qltb a' b'.
Proof.
  intros Ea Eb. destruct (Qltb a b) eqn:A, (Qltb a' b') eqn:B; auto;
    rewrite ?Qltb_lt, ?Qltb_ge in *; exfalso.
  - apply (Qlt_not_le _ _ A). rewrite Ea, Eb. exact B.
  - apply (Qlt_not_le _ _ B). rewrite <- Ea, <- Eb. exact A.
Qed.

Lemma rne_proper m m' : m == m' -> rne m = rne m'.
Proof.
  intros E. unfold rne.
  assert (Ef : Qfloor m = Qfloor m') by (rewrite E; reflexivity).
  rewrite Ef.
  rewrite (Qltb_proper (m - inject_Z (Qfloor m')) (m' - inject_Z (Qfloor m')) (1#2) (1#2))
    by (try rewrite E; reflexivity).
  rewrite (Qltb_proper (1#2) (1#2) (m - inject_Z (Qfloor m')) (m' - inject_Z (Qfloor m')))
    by (try rewrite E; reflexivity).
  reflexivity.
Qed.

Lemma rne_le m m' : m <= m' -> (rne m <= rne m')%Z.
Proof.
  intros H.
  assert (Hf : (Qfloor m <= Qfloor m')%Z) by (apply Qfloor_resp_le; exact H).
  destruct (Z.eq_dec (Qfloor m) (Qfloor m')) as [Ef | Nf].
  - unfold rne. rewrite <- Ef.
    set (f := Qfloor m) in *.
    destruct (Qltb (m - inject_Z f) (1 # 2)) eqn:A1;
    destruct (Qltb (m' - inject_Z f) (1 # 2)) eqn:B1;
    destruct (Qltb (1 # 2) (m - inject_Z f)) eqn:A2;
    destruct (Qltb (1 # 2) (m' - inject_Z f)) eqn:B2;
    rewrite ?Qltb_lt, ?Qltb_ge in *;
    destruct (Z.even f); try lia; exfalso; lra.
  - assert (X : (rne m <= Qfloor m + 1)%Z) by (destruct (rne_cases m) as [[-> _] | [-> _]]; lia).
    assert (Y : (Qfloor m' <= rne m')%Z) by (destruct (rne_cases m') as [[-> _] | [-> _]]; lia).
    lia.
Qed.

Lemma rne_nonneg m : 0 <= m -> (0 <= rne m)%Z.
Proof. intros H. apply rne_ge_int. exact H. Qed.

(** roundPos *)
Lemma ulpExp_le q q' : 0 < q -> q <= q' -> (ulpExp q <= ulpExp q')%Z.
Proof. intros H L. unfold ulpExp. pose proof (ilog2_le q q' H L). lia. Qed.

Lemma ulpExp_proper q q' : 0 < q -> q == q' -> ulpExp q = ulpExp q'.
Proof. intros H E. unfold ulpExp. rewrite (ilog2_proper q q' H E). reflexivity. Qed.

Lemma scaled q c : q / pow2 c * pow2 c == q.
Proof. field. intros C. pose proof (pow2_pos c). lra. Qed.

Lemma roundPos_proper q q' : 0 < q -> q == q' -> roundPos q == roundPos q'.
Proof.
  intros H E. unfold roundPos. rewrite (ulpExp_proper q q' H E).
  rewrite (rne_proper (q / pow2 (ulpExp q')) (q' / pow2 (ulpExp q'))); [reflexivity|].
  rewrite E. reflexivity.
Qed.

Lemma roundPos_error q :
  - (pow2 (ulpExp q) / 2) <= roundPos q - q <= pow2 (ulpExp q) / 2.
Proof.
  unfold roundPos. set (c := ulpExp q). set (m := q / pow2 c).
  pose proof (rne_error m) as [E1 E2]. pose proof (pow2_pos c) as Hc.
  assert (Eq : q == m * pow2 c) by (unfold m; rewrite scaled; reflexivity).
  assert (X : inject_Z (rne m) * pow2 c - q == (inject_Z (rne m) - m) * pow2 c).
  { rewrite Eq at 1. ring. }
  rewrite X.
  assert (Y1 : - (1 # 2) * pow2 c <= (inject_Z (rne m) - m) * pow2 c).
  { apply Qmult_le_compat_r; [exact E1 | lra]. }
  assert (Y2 : (inject_Z (rne m) - m) * pow2 c <= (1 # 2) * pow2 c).
  { apply Qmult_le_compat_r; [exact E2 | lra]. }
  unfold Qdiv. assert (I : / 2 == 1 # 2) by reflexivity. rewrite I. split; lra.
Qed.

(** a multiple of the unit below (above) [q] is below (above) the rounding *)
Lemma roundPos_ge_grid q z : inject_Z z * pow2 (ulpExp q) <= q -> inject_Z z * pow2 (ulpExp q) <= roundPos q.
Proof.
  intros H. unfold roundPos. set (c := ulpExp q) in *. pose proof (pow2_pos c) as Hc.
  apply Qmult_le_compat_r; [|lra]. rewrite <- Zle_Qle. apply rne_ge_int.
  apply Qle_shift_div_l; assumption.
Qed.

Lemma roundPos_le_grid q z : q <= inject_Z z * pow2 (ulpExp q) -> roundPos q <= inject_Z z * pow2 (ulpExp q).
Proof.
  intros H. unfold roundPos. set (c := ulpExp q) in *. pose proof (pow2_pos c) as Hc.
  apply Qmult_le_compat_r; [|lra]. rewrite <- Zle_Qle. apply rne_le_int.
  apply Qle_shift_div_r; assumption.
Qed.

Lemma roundPos_nonneg q : 0 <= q -> 0 <= roundPos q.
Proof.
  intros H. assert (X : inject_Z 0 * pow2 (ulpExp q) <= roundPos q).
  { apply roundPos_ge_grid. change (inject_Z 0) with 0. lra. }
  change (inject_Z 0) with 0 in X. lra.
Qed.

(** a power of two that is a multiple of both units *)
Lemma pow2_on_grid e c : (c <= e)%Z -> pow2 e == inject_Z (2 ^ (e - c)) * pow2 c.
Proof.
  intros H. rewrite <- pow2_Z by lia. rewrite <- pow2_add.
  replace (e - c + c)%Z with e by lia. reflexivity.
Qed.

Lemma roundPos_le q q' : 0 < q -> q <= q' -> roundPos q <= roundPos q'.
Proof.
  intros Hq Hle. assert (Hq' : 0 < q') by (apply Qlt_le_trans with q; assumption).
  pose proof (ulpExp_le q q' Hq Hle) as Hc.
  destruct (Z.eq_dec (ulpExp q) (ulpExp q')) as [Ec | Nc].
  - unfold roundPos. rewrite Ec. pose proof (pow2_pos (ulpExp q')) as Hp.
    apply Qmult_le_compat_r; [|lra]. rewrite <- Zle_Qle. apply rne_le.
    apply Qmult_le_compat_r; [exact Hle|]. apply Qlt_le_weak. apply Qinv_lt_0_compat. exact Hp.
  - (* the units differ: a power of two lies between *)
    assert (Hlt : (ulpExp q < ulpExp q')%Z) by lia.
    set (e' := ilog2 q').
    assert (Ec' : ulpExp q' = (e' - 52)%Z).
    { unfold ulpExp in *. fold e'. fold e' in Hlt. lia. }
    assert (He : (ilog2 q < e')%Z).
    { unfold ulpExp in Hlt. fold e' in Hlt. lia. }
    destruct (ilog2_spec q Hq) as [_ S2]. destruct (ilog2_spec q' Hq') as [S1' _]. fold e' in S1'.
    assert (M1 : q <= pow2 e').
    { apply Qlt_le_weak. apply Qlt_le_trans with (pow2 (ilog2 q + 1)); [exact S2|].
      apply pow2_le. lia. }
    apply Qle_trans with (pow2 e').
    + rewrite (pow2_on_grid e' (ulpExp q)) by lia.
      apply roundPos_le_grid. rewrite <- pow2_on_grid by lia. exact M1.
    + rewrite (pow2_on_grid e' (ulpExp q')) by lia.
      apply roundPos_ge_grid. rewrite <- pow2_on_grid by lia. exact S1'.
Qed.

Lemma roundPos_rel q : 0 < q -> - (eps64 * q + eta64) <= roundPos q - q <= eps64 * q + eta64.
Proof.
  intros Hq. pose proof (roundPos_error q) as [E1 E2].
  destruct (ilog2_spec q Hq) as [S1 _].
  assert (B : pow2 (ulpExp q) / 2 <= eps64 * q + eta64).
  { rewrite <- pow2_pred. unfold ulpExp.
    destruct (Z.max_spec (ilog2 q - 52) (-1074)) as [[_ ->] | [_ ->]].
    - change (-1074 - 1)%Z with (-1075)%Z. fold eta64.
      assert (0 <= eps64 * q).
      { apply Qmult_le_0_compat; [apply Qlt_le_weak, pow2_pos | lra]. }
      lra.
    - replace (ilog2 q - 52 - 1)%Z with (-53 + ilog2 q)%Z by lia.
      rewrite pow2_add. fold eps64.
      assert (eps64 * pow2 (ilog2 q) <= eps64 * q).
      { apply Qmult_le_l; [apply pow2_pos | exact S1]. }
      pose proof (pow2_pos (-1075)). unfold eta64. lra. }
  split; lra.
Qed.

(** values on the grid are kept *)
Lemma roundPos_exact q n j :
  q == inject_Z n * pow2 j -> (0 < n <= 2 ^ 53)%Z -> (-1074 <= j)%Z -> roundPos q == q.
Proof.
  intros Eq Hn Hj.
  assert (Hq : 0 < q).
  { rewrite Eq. apply Qmult_lt_0_compat; [|apply pow2_pos].
    change 0 with (inject_Z 0). rewrite <- Zlt_Qlt. lia. }
  assert (Hc : (ulpExp q <= j)%Z \/ (n = 2 ^ 53 /\ ulpExp q = j + 1)%Z).
  { destruct (ilog2_spec q Hq) as [S1 S2].
    destruct (Z.eq_dec n (2 ^ 53)) as [En | Nn].
    - right. split; [exact En|].
      assert (E53 : q == pow2 (53 + j)).
      { rewrite Eq, En, pow2_add, <- pow2_Z by lia. reflexivity. }
      assert (ilog2 q = 53 + j)%Z.
      { apply ilog2_unique; [exact Hq | rewrite E53; apply Qle_refl |].
        rewrite E53. apply pow2_lt. lia. }
      unfold ulpExp. lia.
    - left. assert (X : q < pow2 (53 + j)).
      { rewrite Eq, pow2_add. apply Qmult_lt_r; [apply pow2_pos|].
        rewrite pow2_Z by lia. rewrite <- Zlt_Qlt. lia. }
      assert (ilog2 q < 53 + j)%Z.
      { apply pow2_lt_inv. apply Qle_lt_trans with q; assumption. }
      unfold ulpExp. lia. }
  unfold roundPos. set (c := ulpExp q) in *.
  assert (Em : exists z, q / pow2 c == inject_Z z).
  { destruct Hc as [Hc | [En Hc]].
    - exists (n * 2 ^ (j - c))%Z. rewrite inject_Z_mult, <- pow2_Z by lia.
      rewrite Eq. replace j with ((j - c) + c)%Z at 1 by lia. rewrite pow2_add.
      field. intros C. pose proof (pow2_pos c). lra.
    - exists (2 ^ 52)%Z. rewrite Eq, En, Hc. rewrite <- !pow2_Z by lia.
      rewrite pow2_succ. change (pow2 53) with (2 * pow2 52).
      field. intros C. pose proof (pow2_pos j). lra. }
  destruct Em as (z & Ez). rewrite (rne_proper _ _ Ez), rne_Z, <- Ez. apply scaled.
Qed.

Lemma round64_proper q q' : q == q' -> round64 q = round64 q'.
Proof. intros E. unfold round64. rewrite (Qred_complete _ _ E). reflexivity. Qed.

Lemma roundMag_cases q : 0 < q ->
  (roundMag q = PosInf /\ pow2 1024 <= roundPos q)
  \/ (roundMag q = Fin (Qred (roundPos q)) /\ roundPos q < pow2 1024).
Proof.
  intros Hq. unfold roundMag. destruct (Qle_bool (pow2 1024) (roundPos q)) eqn:E.
  - left. split; [reflexivity | apply Qle_bool_iff; exact E].
  - right. split; [reflexivity|]. apply Qnot_le_lt. intros C. apply Qle_bool_iff in C. congruence.
Qed.

Lemma roundMag_nonneg q : 0 < q -> nonneg (roundMag q).
Proof.
  intros Hq. destruct (roundMag_cases q Hq) as [[-> _] | [-> _]]; [left; reflexivity|].
  right. eexists. split; [reflexivity|]. rewrite Qred_correct. apply roundPos_nonneg. lra.
Qed.

Lemma roundMag_le q q' : 0 < q -> q <= q' -> le (roundMag q) (roundMag q') = true.
Proof.
  intros Hq Hle. assert (Hq' : 0 < q') by lra.
  pose proof (roundPos_le q q' Hq Hle) as M.
  destruct (roundMag_cases q Hq) as [[-> O] | [-> O]];
  destruct (roundMag_cases q' Hq') as [[-> O'] | [-> O']]; cbn [le]; try reflexivity.
  - exfalso. lra.
  - apply Qle_bool_iff. rewrite !Qred_correct. exact M.
Qed.

Lemma sign_cases q :
  (0 < Qred q /\ 0 < q /\ round64 q = roundMag (Qred q))
  \/ (Qred q < 0 /\ q < 0 /\ round64 q = neg (roundMag (- Qred q)))
  \/ (q == 0 /\ round64 q = Fin 0).
Proof.
  unfold round64. pose proof (Qred_correct q) as E.
  destruct (Qltb 0 (Qred q)) eqn:A.
  - left. apply Qltb_lt in A. split; [exact A|]. split; [lra | reflexivity].
  - apply Qltb_ge in A. destruct (Qltb (Qred q) 0) eqn:B.
    + right. left. apply Qltb_lt in B. split; [exact B|]. split; [lra | reflexivity].
    + right. right. apply Qltb_ge in B. split; [lra | reflexivity].
Qed.

Lemma round64_zero : round64 0 = Fin 0.
Proof. reflexivity. Qed.

Lemma round64_nonneg q : 0 <= q -> nonneg (round64 q).
Proof.
  intros H. destruct (sign_cases q) as [(A & _ & ->) | [(_ & B & _) | (_ & ->)]].
  - apply roundMag_nonneg. exact A.
  - exfalso. lra.
  - right. exists 0. split; [reflexivity | lra].
Qed.

Lemma le_neg a b : le a b = true -> le (neg b) (neg a) = true.
Proof.
  destruct a as [| | |x], b as [| | |y]; cbn; try reflexivity; try discriminate.
  rewrite !Qle_bool_iff. intros H. lra.
Qed.

Lemma nonneg_le_zero a : nonneg a -> le (Fin 0) a = true /\ le (neg a) (Fin 0) = true.
Proof.
  intros [-> | (r & -> & Hr)]; cbn; [split; reflexivity|].
  rewrite !Qle_bool_iff. split; lra.
Qed.

Lemma le_trans a b c : le a b = true -> le b c = true -> le a c = true.
Proof.
  destruct a as [| | |x], b as [| | |y], c as [| | |z]; cbn; try reflexivity; try discriminate.
  rewrite !Qle_bool_iff. intros. lra.
Qed.

Lemma round64_le q q' : q <= q' -> le (round64 q) (round64 q') = true.
Proof.
  intros H. pose proof (Qred_correct q) as E. pose proof (Qred_correct q') as E'.
  destruct (sign_cases q) as [(A & A0 & ->) | [(B & B0 & ->) | (Z0 & ->)]];
  destruct (sign_cases q') as [(A' & A0' & ->) | [(B' & B0' & ->) | (Z0' & ->)]];
  try (exfalso; lra).
  - apply roundMag_le; lra.
  - apply le_trans with (Fin 0).
    + apply (nonneg_le_zero _ (roundMag_nonneg (- Qred q) ltac:(lra))).
    + apply (nonneg_le_zero _ (roundMag_nonneg (Qred q') A')).
  - apply le_neg. apply roundMag_le; lra.
  - apply (nonneg_le_zero _ (roundMag_nonneg (- Qred q) ltac:(lra))).
  - apply (nonneg_le_zero _ (roundMag_nonneg (Qred q') A')).
  - reflexivity.
Qed.

Lemma pow2_1023_exact : roundPos (pow2 1023) == pow2 1023.
Proof.
  apply (roundPos_exact _ 1 1023); [|lia|lia].
  change (inject_Z 1) with 1. ring.
Qed.

(** no overflow below 2^1023, and the error of the rounding *)
Lemma roundMag_err q B :
  0 < q -> q <= B -> B <= pow2 1023 ->
  exists r, roundMag q = Fin r
            /\ - (eps64 * B + eta64) <= r - q <= eps64 * B + eta64 /\ 0 <= r.
Proof.
  intros Hq HB HB'.
  assert (M : roundPos q <= pow2 1023).
  { rewrite <- pow2_1023_exact. apply roundPos_le; lra. }
  assert (L : pow2 1023 < pow2 1024) by (apply pow2_lt; lia).
  destruct (roundMag_cases q Hq) as [[_ O] | [-> _]]; [exfalso; lra|].
  eexists. split; [reflexivity|]. rewrite Qred_correct.
  pose proof (roundPos_rel q Hq) as [R1 R2].
  assert (eps64 * q <= eps64 * B) by (apply Qmult_le_l; [apply pow2_pos | exact HB]).
  split; [split; lra|]. apply roundPos_nonneg. lra.
Qed.

Lemma eps_eta_nonneg B : 0 <= B -> 0 <= eps64 * B + eta64.
Proof.
  intros H. pose proof (pow2_pos (-1075)). fold eta64 in *.
  assert (0 <= eps64 * B) by (apply Qmult_le_0_compat; [apply Qlt_le_weak, pow2_pos | exact H]).
  lra.
Qed.

Lemma round64_err q B :
  - B <= q <= B -> B <= pow2 1023 ->
  exists r, round64 q = Fin r
            /\ - (eps64 * B + eta64) <= r - q <= eps64 * B + eta64.
Proof.
  intros [H1 H2] HB. pose proof (Qred_correct q) as E.
  destruct (sign_cases q) as [(A & A0 & ->) | [(N & N0 & ->) | (Z0 & ->)]].
  - destruct (roundMag_err (Qred q) B A ltac:(lra) HB) as (r & -> & [R1 R2] & _).
    exists r. split; [reflexivity|]. split; lra.
  - destruct (roundMag_err (- Qred q) B ltac:(lra) ltac:(lra) HB) as (r & -> & [R1 R2] & _).
    exists (- r). split; [reflexivity|]. split; lra.
  - exists 0. split; [reflexivity|].
    pose proof (eps_eta_nonneg B ltac:(lra)). split; lra.
Qed.

(** the sign of the result *)
Lemma round64_err_pos q B :
  0 <= q <= B -> B <= pow2 1023 ->
  exists r, round64 q = Fin r
            /\ - (eps64 * B + eta64) <= r - q <= eps64 * B + eta64 /\ 0 <= r.
Proof.
  intros [H1 H2] HB.
  destruct (round64_err q B ltac:(split; lra) HB) as (r & E & R).
  exists r. split; [exact E|]. split; [exact R|].
  destruct (round64_nonneg q H1) as [C | (r' & C & Hr)]; congruence.
Qed.

Lemma round64_exact q n j :
  q == inject_Z n * pow2 j -> (Z.abs n <= 2 ^ 53)%Z -> (-1074 <= j)%Z ->
  Qabs q < pow2 1024 ->
  round64 q = Fin (Qred q).
Proof.
  intros Eq Hn Hj Hb. pose proof (Qred_correct q) as E. pose proof (pow2_pos j) as Pj.
  destruct (sign_cases q) as [(A & A0 & ->) | [(N & N0 & ->) | (Z0 & ->)]].
  - assert (X : roundPos (Qred q) == Qred q).
    { apply (roundPos_exact _ n j); [rewrite E; exact Eq | | exact Hj].
      split; [|lia]. destruct (Z_lt_le_dec 0 n) as [P|P]; [exact P|]. exfalso.
      assert (inject_Z n <= 0) by (change 0 with (inject_Z 0); rewrite <- Zle_Qle; exact P).
      assert (inject_Z n * pow2 j <= 0 * pow2 j) by (apply Qmult_le_compat_r; lra). lra. }
    destruct (roundMag_cases (Qred q) A) as [[_ O] | [-> _]].
    + exfalso. rewrite Qabs_pos in Hb by lra. lra.
    + f_equal. apply Qred_complete. rewrite X. exact E.
  - assert (X : roundPos (- Qred q) == - Qred q).
    { apply (roundPos_exact _ (- n) j); [rewrite E, Eq, inject_Z_opp; ring | | exact Hj].
      split; [|lia]. destruct (Z_lt_le_dec n 0) as [P|P]; [lia|]. exfalso.
      assert (0 <= inject_Z n) by (change 0 with (inject_Z 0); rewrite <- Zle_Qle; exact P).
      assert (0 <= inject_Z n * pow2 j) by (apply Qmult_le_0_compat; lra). lra. }
    destruct (roundMag_cases (- Qred q) ltac:(lra)) as [[_ O] | [-> _]].
    + exfalso. rewrite Qabs_neg in Hb by lra. lra.
    + cbn [neg]. f_equal. rewrite (Qred_complete _ _ X), Qred_opp.
      rewrite (Qred_complete _ _ (Qred_correct q)).
      destruct (Qred q) as [u v]. unfold Qopp. cbn. rewrite Z.opp_involutive. reflexivity.
  - f_equal. symmetry. change 0 with (Qred 0). apply Qred_complete. exact Z0.
Qed.

(** the operators on finite operands *)
Lemma fadd_err x y B :
  - B <= x + y <= B -> B <= pow2 1023 ->
  exists r, fadd (Fin x) (Fin y) = Fin r
            /\ - (eps64 * B + eta64) <= r - (x + y) <= eps64 * B + eta64.
Proof. intros H HB. exact (round64_err (x + y) B H HB). Qed.

Lemma fsub_err x y B :
  - B <= x - y <= B -> B <= pow2 1023 ->
  exists r, fsub (Fin x) (Fin y) = Fin r
            /\ - (eps64 * B + eta64) <= r - (x - y) <= eps64 * B + eta64.
Proof. intros H HB. exact (round64_err (x + - y) B H HB). Qed.

Lemma fmul_err x y B :
  - B <= x * y <= B -> B <= pow2 1023 ->
  exists r, fmul (Fin x) (Fin y) = Fin r
            /\ - (eps64 * B + eta64) <= r - x * y <= eps64 * B + eta64.
Proof. intros H HB. exact (round64_err (x * y) B H HB). Qed.

Lemma fdiv_err x y B :
  ~ y == 0 -> - B <= x / y <= B -> B <= pow2 1023 ->
  exists r, fdiv (Fin x) (Fin y) = Fin r
            /\ - (eps64 * B + eta64) <= r - x / y <= eps64 * B + eta64.
Proof.
  intros Hy H HB. unfold fdiv. cbn [div].
  destruct (Qeq_bool y 0) eqn:E; [apply Qeq_bool_iff in E; contradiction|].
  exact (round64_err (x / y) B H HB).
Qed.

Lemma eps64_value : eps64 = 1 # 9007199254740992.
Proof. reflexivity. Qed.

Lemma eta64_small : 0 < eta64 /\ eta64 <= 1 # 1267650600228229401496703205376.
Proof.
  split; [apply pow2_pos|]. apply Qle_bool_iff. vm_compute. reflexivity.
Qed.

Lemma Qmult_le_l_weak (x y z : Q) : 0 <= z -> x <= y -> z * x <= z * y.
Proof.
  intros Hz H. rewrite (Qmult_comm z x), (Qmult_comm z y).
  apply Qmult_le_compat_r; assumption.
Qed.

(** *** Sign and order through the operators *)

Lemma round64_mono_fin q q' r r' :
  q <= q' -> round64 q = Fin r -> round64 q' = Fin r' -> r <= r'.
Proof.
  intros H E E'. pose proof (round64_le q q' H) as L.
  rewrite E, E' in L. cbn in L. apply Qle_bool_iff. exact L.
Qed.

Lemma nonneg_lt a : nonneg a -> lt a (Fin 0) = false.
Proof.
  intros [-> | (r & -> & Hr)]; [reflexivity|]. apply lt_zero_false. exact Hr.
Qed.

Lemma round_nonneg a : nonneg a -> nonneg (round a).
Proof.
  intros [-> | (r & -> & Hr)]; [left; reflexivity|]. cbn [round].
  apply round64_nonneg. exact Hr.
Qed.

Lemma fmul_nonneg a c : nonneg a -> 0 < c -> nonneg (fmul a (Fin c)).
Proof.
  intros Ha Hc. unfold fmul. apply round_nonneg.
  destruct Ha as [-> | (r & -> & Hr)]; cbn [mul].
  - destruct (Qeq_bool c 0) eqn:E; [apply Qeq_bool_iff in E; lra|].
    unfold signedInf. destruct (Qltb c 0) eqn:E'; [apply Qltb_lt in E'; lra|].
    left. reflexivity.
  - right. exists (r * c). split; [reflexivity|]. apply Qmult_le_0_compat; lra.
Qed.

Lemma fdiv_nonneg a c : nonneg a -> 0 < c -> nonneg (fdiv a (Fin c)).
Proof.
  intros Ha Hc. unfold fdiv. apply round_nonneg.
  destruct Ha as [-> | (r & -> & Hr)]; cbn [div].
  - destruct (Qltb c 0) eqn:E'; [apply Qltb_lt in E'; lra|]. left. reflexivity.
  - destruct (Qeq_bool c 0) eqn:E; [apply Qeq_bool_iff in E; lra|].
    right. exists (r / c). split; [reflexivity|].
    apply Qle_shift_div_l; lra.
Qed.

Lemma ofQ_not_NaN (q : Q) : isNaN (ofQ q) = false.
Proof.
  unfold ofQ.
  destruct (sign_cases q) as [(A & _ & ->) | [(N & _ & ->) | (_ & ->)]].
  - destruct (roundMag_cases (Qred q) A) as [[-> _] | [-> _]]; reflexivity.
  - destruct (roundMag_cases (- Qred q) ltac:(lra)) as [[-> _] | [-> _]]; reflexivity.
  - reflexivity.
Qed.

(** The rounding on known binary64 results: 0.1 + 0.2 is
    0.30000000000000004, and so is 1 - 0.35 * 2; 2^53 + 1 is a tie and
    goes to the even neighbour; the largest finite number stays, and what
    lies half an ulp above it overflows; half the least subnormal goes to
    zero. *)
Example round64_samples :
  fadd (ofQ (1 # 10)) (ofQ (2 # 10)) = ofQ (30000000000000004 # 100000000000000000)
  /\ fsub (Fin 1) (fmul (ofQ (35 # 100)) (Fin 2))
     = ofQ (30000000000000004 # 100000000000000000)
  /\ ofQ (3 # 10) <> ofQ (30000000000000004 # 100000000000000000)
  /\ ofQ 9007199254740993 = Fin 9007199254740992
  /\ ofQ 9007199254740995 = Fin 9007199254740996
  /\ ofQ (pow2 1024 - pow2 971) = Fin (pow2 1024 - pow2 971)
  /\ ofQ (pow2 1024 - pow2 970 - 1) = Fin (pow2 1024 - pow2 971)
  /\ ofQ (pow2 1024 - pow2 970) = PosInf
  /\ ofQ (- pow2 1024) = NegInf
  /\ ofQ (pow2 (-1075)) = Fin 0
  /\ ofQ (3 * pow2 (-1075)) = Fin (pow2 (-1073)).
Proof.
  repeat match goal with |- _ /\ _ => split end;
    try (vm_compute; reflexivity).
  vm_compute. discriminate.
Qed.

End NumFacts.

(* ------------------------------------------------------------------ *)
(** ** The reconciliation of early-warning frames *)

Lemma handleFrames_app (xs ys : list (Z * WolfxEEWData.t)) (st : EEWState) :
  handleFrames (xs ++ ys) st = handleFrames ys (handleFrames xs st).
Proof. unfold handleFrames. apply fold_left_app. Qed.

Lemma handle_non_cancel (now : Z) (data : WolfxEEWData.t) (prev : EEWState) :
  isCancelFrame data = false ->
  isActive (handleLiveWolfxEEW now data prev) = true
  /\ isFinal (handleLiveWolfxEEW now data prev) = Some (carriesFinality data)
  /\ magnitude (handleLiveWolfxEEW now data prev)
     = parseMagnitude (WolfxEEWData.Magnitude data)
  /\ depth (handleLiveWolfxEEW now data prev)
     = parseDepth (WolfxEEWData.Depth data)
  /\ updatedTime (handleLiveWolfxEEW now data prev) = Some now.
Proof.
  intros H. unfold handleLiveWolfxEEW. rewrite H. cbn.
  rewrite orb_false_r. repeat split; reflexivity.
Qed.

(** C1, as stated, fails: two frames of event "E1", neither a cancellation,
    the first carrying the finality flag and the second not.  After the
    first the state is final; after the second it is not, although a frame
    of the sequence carried finality. *)
Lemma isFinal_reverts_counterexample :
  let frames := [(1000%Z, Sample.finalFrame); (2000%Z, Sample.updateFrame)] in
  sameEvent (JsString.lit "E1") frames
  /\ forallb (fun f => negb (isCancelFrame (snd f))) frames = true
  /\ existsb (fun f => carriesFinality (snd f)) frames = true
  /\ isFinal (handleFrames [(1000%Z, Sample.finalFrame)] initialEEW) = Some true
  /\ isFinal (handleFrames frames initialEEW) = Some false.
Proof.
  cbv zeta. split.
  - repeat constructor.
  - repeat split; reflexivity.
Qed.

(** C1, amended: after a non-empty run of non-cancel frames of one event,
    [isFinal] is the finality flag of the last frame handled (false when the
    frame has none), whatever the earlier frames carried; the state is
    active. *)
Theorem isFinal_follows_last_frame
    (eid : jsstring) (frames : list (Z * WolfxEEWData.t))
    (last : Z * WolfxEEWData.t) (st : EEWState) :
  sameEvent eid (frames ++ [last]) ->
  Forall (fun f => isCancelFrame (snd f) = false) (frames ++ [last]) ->
  isFinal (handleFrames (frames ++ [last]) st) = Some (carriesFinality (snd last))
  /\ isActive (handleFrames (frames ++ [last]) st) = true.
Proof.
  intros _ Hnc. rewrite handleFrames_app. cbn.
  apply Forall_app in Hnc as [_ Hl]. inversion_clear Hl as [|? ? Hlast _].
  destruct (handle_non_cancel (fst last) (snd last) (handleFrames frames st) Hlast)
    as (Ha & Hf & _).
  split; assumption.
Qed.

Lemma isFinal_follows_last_frame_witness :
  isFinal (handleFrames ([(1000%Z, Sample.finalFrame)] ++ [(2000%Z, Sample.updateFrame)])
                        initialEEW) = Some false
  /\ isActive (handleFrames ([(1000%Z, Sample.finalFrame)] ++ [(2000%Z, Sample.updateFrame)])
                            initialEEW) = true.
Proof.
  apply (isFinal_follows_last_frame (JsString.lit "E1")).
  - repeat constructor.
  - repeat constructor.
Defined.

(** C2: a frame whose cancel flag is set, or whose title contains the
    cancel marker, leaves the state inactive with no target areas, whatever
    the state before was. *)
Theorem cancel_frame_deactivates
    (now : Z) (data : WolfxEEWData.t) (prev : EEWState) :
  WolfxEEWData.isCancel data = Some true
  \/ JsString.includes (WolfxEEWData.Title data) cancelMarker = true ->
  isActive (handleLiveWolfxEEW now data prev) = false
  /\ areas (handleLiveWolfxEEW now data prev) = [].
Proof.
  intros H. unfold handleLiveWolfxEEW.
  assert (isCancelFrame data = true) as ->.
  { unfold isCancelFrame. apply orb_true_iff.
    destruct H as [-> | ->]; [left | right]; reflexivity. }
  split; reflexivity.
Qed.

Lemma cancel_frame_deactivates_witness :
  isActive Sample.finalState = true
  /\ isWarning Sample.finalState = true
  /\ isFinal Sample.finalState = Some true
  /\ isActive (handleLiveWolfxEEW 5000 Sample.cancelByTitle Sample.finalState) = false
  /\ areas (handleLiveWolfxEEW 5000 Sample.cancelByTitle Sample.finalState) = [].
Proof.
  repeat (split; [reflexivity|]).
  apply cancel_frame_deactivates. right. reflexivity.
Defined.

(** C10, as stated, fails: the magnitude text "Infinity" parses to the
    number Infinity, which is not NaN, so the state's magnitude is a number
    that is not finite. *)
Lemma magnitude_infinite_counterexample :
  isCancelFrame Sample.infiniteMagnitude = false
  /\ magnitude (handleLiveWolfxEEW 1000 Sample.infiniteMagnitude initialEEW)
     = Some PosInf
  /\ Num.isFinite PosInf = false.
Proof. repeat split; reflexivity. Qed.

(** The parsers round as the numbers of the language do. *)
Example parsers_round :
  Parse.parseInt10 (JsString.lit "9007199254740993") = Fin 9007199254740992
  /\ Parse.parseFloat (JsString.lit "1e-400") = Fin 0
  /\ Parse.parseFloat (JsString.lit "1e400") = PosInf
  /\ Parse.parseFloat (JsString.lit "1.7976931348623159e308") = PosInf
  /\ Parse.parseFloat (JsString.lit "0.1")
     = Fin (3602879701896397 # 36028797018963968)
  /\ Parse.parseFloat (JsString.lit "7.2") = Num.ofQ (72 # 10).
Proof. repeat split; vm_compute; reflexivity. Qed.

(** The depth of a frame: the digits of the text, read as one integer. *)
Lemma parseDepth_value (text : jsstring) :
  parseDepth (Some text)
  = match JsString.keepDigits text with
    | [] => None
    | d => Some (Num.ofQ (inject_Z (JsString.digitsValue d)))
    end.
Proof.
  unfold parseDepth. destruct (JsString.truthy text) eqn:T.
  2: { destruct text; [reflexivity | discriminate]. }
  pose proof (JsStringFacts.keepDigits_all text) as Hd.
  remember (JsString.keepDigits text) as ds eqn:E. clear E.
  unfold Parse.parseInt10.
  rewrite (JsStringFacts.trimStart_digits _ Hd).
  assert (Parse.spanSign ds = (false, ds)) as ->.
  { destruct ds as [|c ds]; [reflexivity|]. simpl in Hd.
    apply andb_true_iff in Hd as [Hc _]. unfold JsString.isDigit in Hc.
    apply andb_true_iff in Hc as [H1 H2]. apply N.leb_le in H1, H2.
    unfold Parse.spanSign.
    destruct (N.eqb_spec c 45); [lia|]. destruct (N.eqb_spec c 43); [lia|].
    reflexivity. }
  rewrite (JsStringFacts.spanDigits_all _ Hd).
  destruct ds as [|c ds]; [reflexivity|].
  rewrite NumFacts.ofQ_not_NaN. reflexivity.
Qed.

Lemma depth_not_negative (d : jsstring) :
  forallb JsString.isDigit d = true ->
  Num.lt (Num.ofQ (inject_Z (JsString.digitsValue d))) (Fin 0) = false.
Proof.
  intros Hd. pose proof (JsStringFacts.digitsValue_nonneg d Hd) as Hz.
  assert (Hq : 0 <= inject_Z (JsString.digitsValue d)).
  { change 0 with (inject_Z 0). rewrite <- Zle_Qle. exact Hz. }
  destruct (NumFacts.round64_nonneg _ Hq) as [E | (r & E & Hr)];
    unfold Num.ofQ; rewrite E; [reflexivity|].
  apply NumFacts.lt_zero_false. exact Hr.
Qed.

(** C10, amended: a non-cancel frame is always processed (the state becomes
    active and is stamped).  Its magnitude is the number [parseFloat] gives
    for the text, the decimal value rounded to binary64, unless the text is
    empty or that number is NaN, in which case it is undefined; it is never
    NaN but may be an infinity.  Its depth is undefined when the text is
    absent or holds no digit, and else the Number value of the integer
    written by all the digits of the text, in order: rounded to binary64,
    an infinity when it overflows, never NaN and never negative. *)
Theorem parsed_fields_never_NaN
    (now : Z) (data : WolfxEEWData.t) (prev : EEWState) :
  isCancelFrame data = false ->
  let st := handleLiveWolfxEEW now data prev in
  let m := Parse.parseFloat (WolfxEEWData.Magnitude data) in
  isActive st = true /\ updatedTime st = Some now
  /\ magnitude st
     = (if JsString.truthy (WolfxEEWData.Magnitude data) && negb (Num.isNaN m)
        then Some m else None)
  /\ (forall x, magnitude st = Some x -> Num.isNaN x = false)
  /\ depth st
     = match WolfxEEWData.Depth data with
       | Some text =>
           match JsString.keepDigits text with
           | [] => None
           | d => Some (Num.ofQ (inject_Z (JsString.digitsValue d)))
           end
       | None => None
       end
  /\ (forall x, depth st = Some x ->
      Num.isNaN x = false /\ Num.lt x (Fin 0) = false).
Proof.
  intros Hnc st m.
  destruct (handle_non_cancel now data prev Hnc) as (Ha & _ & Hm & Hd & Hu).
  fold st in Ha, Hm, Hd, Hu. rewrite Hm, Hd.
  split; [exact Ha|]. split; [exact Hu|].
  assert (Em : parseMagnitude (WolfxEEWData.Magnitude data)
               = (if JsString.truthy (WolfxEEWData.Magnitude data)
                     && negb (Num.isNaN m)
                  then Some m else None)).
  { unfold parseMagnitude. fold m.
    destruct (JsString.truthy _); [|reflexivity].
    destruct (Num.isNaN m); reflexivity. }
  split; [exact Em|]. split.
  - rewrite Em. intros x Hx.
    destruct (JsString.truthy _); [|discriminate].
    destruct (Num.isNaN m) eqn:E; [discriminate|].
    cbn in Hx. injection Hx as <-. exact E.
  - assert (Ed : parseDepth (WolfxEEWData.Depth data)
                 = match WolfxEEWData.Depth data with
                   | Some text =>
                       match JsString.keepDigits text with
                       | [] => None
                       | d => Some (Num.ofQ (inject_Z (JsString.digitsValue d)))
                       end
                   | None => None
                   end).
    { destruct (WolfxEEWData.Depth data) as [text|]; [|reflexivity].
      apply parseDepth_value. }
    split; [exact Ed|]. rewrite Ed. intros x Hx.
    destruct (WolfxEEWData.Depth data) as [text|]; [|discriminate].
    pose proof (JsStringFacts.keepDigits_all text) as Hall.
    destruct (JsString.keepDigits text) as [|c d]; [discriminate|].
    injection Hx as <-. split.
    + apply NumFacts.ofQ_not_NaN.
    + apply depth_not_negative. exact Hall.
Qed.

Lemma parsed_fields_never_NaN_witness :
  let st := handleLiveWolfxEEW 1000 Sample.finalFrame initialEEW in
  isActive st = true /\ updatedTime st = Some 1000%Z
  /\ magnitude st = Some (Num.ofQ (72 # 10))
  /\ depth st = Some (Fin 10).
Proof.
  destruct (parsed_fields_never_NaN 1000 Sample.finalFrame initialEEW eq_refl)
    as (Ha & Hu & Hm & _ & Hd & _).
  split; [exact Ha|]. split; [exact Hu|]. split.
  - etransitivity; [exact Hm|]. vm_compute. reflexivity.
  - etransitivity; [exact Hd|]. vm_compute. reflexivity.
Defined.

(* ------------------------------------------------------------------ *)
(** ** The inactivity timeout *)

Lemma timeoutInstalled_iff (mode : ViewMode) (st : EEWState) :
  timeoutInstalled mode st = true <-> mode = live /\ isActive st = true.
Proof.
  unfold timeoutInstalled. destruct mode, (isActive st); cbn; split;
    try discriminate; try (intros [? ?]; discriminate); auto.
Qed.

(** C3, as stated, fails: an active state with [isFinal = true], last
    updated at instant 1000, is under the periodic check in live mode, and
    the check at instant 30000 clears it. *)
Lemma final_state_times_out_counterexample :
  isActive Sample.finalState = true
  /\ isFinal Sample.finalState = Some true
  /\ updatedTime Sample.finalState = Some 1000%Z
  /\ timeoutInstalled live Sample.finalState = true
  /\ isActive (stalenessCheck live 30000 Sample.finalState) = false
  /\ areas (stalenessCheck live 30000 Sample.finalState) = [].
Proof. repeat split; reflexivity. Qed.

(** C3, amended: the periodic check is installed exactly while the mode is
    live and the state is active, final or not.  Under it, a state whose
    recorded (non-zero) update instant is more than 20000 ms old is made
    inactive and loses its areas, its other fields kept, [isFinal]
    included. *)
Theorem staleness_timeout (mode : ViewMode) (now t : Z) (st : EEWState) :
  mode = live ->
  isActive st = true ->
  updatedTime st = Some t ->
  t <> 0%Z ->
  (20000 < now - t)%Z ->
  (forall m s, timeoutInstalled m s = true <-> m = live /\ isActive s = true)
  /\ timeoutInstalled mode st = true
  /\ stalenessCheck mode now st = deactivate st
  /\ isActive (stalenessCheck mode now st) = false
  /\ areas (stalenessCheck mode now st) = []
  /\ isFinal (stalenessCheck mode now st) = isFinal st.
Proof.
  intros Hm Ha Hu Ht Hold.
  assert (Hi : timeoutInstalled mode st = true)
    by (apply timeoutInstalled_iff; auto).
  assert (Hs : stalenessCheck mode now st = deactivate st).
  { unfold stalenessCheck, timeoutTick, isStale. rewrite Hi, Hu.
    apply Z.eqb_neq in Ht. rewrite Ht. apply Z.ltb_lt in Hold. rewrite Hold.
    reflexivity. }
  split; [exact timeoutInstalled_iff|]. split; [exact Hi|].
  rewrite Hs. repeat split; reflexivity.
Qed.

Lemma staleness_timeout_witness :
  (forall m s, timeoutInstalled m s = true <-> m = live /\ isActive s = true)
  /\ timeoutInstalled live Sample.finalState = true
  /\ stalenessCheck live 30000 Sample.finalState = deactivate Sample.finalState
  /\ isActive (stalenessCheck live 30000 Sample.finalState) = false
  /\ areas (stalenessCheck live 30000 Sample.finalState) = []
  /\ isFinal (stalenessCheck live 30000 Sample.finalState) = isFinal Sample.finalState.
Proof.
  apply (staleness_timeout live 30000 1000 Sample.finalState);
    [reflexivity | reflexivity | reflexivity | discriminate | reflexivity].
Defined.

(** Outside live mode, on an inactive state, or within the window, the
    check changes nothing. *)
Lemma stalenessCheck_unchanged (mode : ViewMode) (now : Z) (st : EEWState) :
  timeoutInstalled mode st = false \/ isStale now st = false ->
  stalenessCheck mode now st = st.
Proof.
  unfold stalenessCheck, timeoutTick. intros [-> | ->]; auto.
  destruct (timeoutInstalled mode st); reflexivity.
Qed.

(* ------------------------------------------------------------------ *)
(** ** The feeds *)

Module FeedFacts.
Import Feed.

Lemma onclose_schedules (f : FeedId) (st : AppState) :
  onclose f st
  = Returns (stateOf (onclose f st))
  /\ statusOf f (stateOf (onclose f st)) = disconnected
  /\ socketOf f (stateOf (onclose f st)) = Some CLOSED
  /\ timers (stateOf (onclose f st)) = timers st ++ [mkTimer f 5000].
Proof. destruct f; repeat split. Qed.

Lemma onerror_closes (f : FeedId) (st : AppState) :
  socketOf f (stateOf (onerror f st)) = closeSocket (socketOf f st)
  /\ timers (stateOf (onerror f st)) = timers st.
Proof. destruct f; split; reflexivity. Qed.

(** C4, as stated, fails: with both feeds connected and open, a message
    that [JSON.parse] rejects leaves the feed that received it connected,
    its socket open and no reconnection scheduled; this on either feed. *)
Lemma parse_failure_keeps_connection_counterexample :
  let parseP2P := fun _ : unit => @SyntaxError P2PQuakeData in
  let parseWolfx := fun _ : unit => @SyntaxError WolfxMessage in
  let afterWolfx := stateOf (onmessage parseP2P parseWolfx Wolfx 1000 tt bothOpen) in
  let afterP2P := stateOf (onmessage parseP2P parseWolfx P2P 1000 tt bothOpen) in
  (failsToParse parseP2P parseWolfx Wolfx tt
   /\ statusOf Wolfx afterWolfx = connected
   /\ socketOf Wolfx afterWolfx = Some OPEN
   /\ timers afterWolfx = [])
  /\ (failsToParse parseP2P parseWolfx P2P tt
      /\ statusOf P2P afterP2P = connected
      /\ socketOf P2P afterP2P = Some OPEN
      /\ timers afterP2P = []).
Proof. repeat split; reflexivity. Qed.

(** C4, amended: on either feed, a message whose payload fails to parse is
    dropped and the connection is left as it was: status, socket and
    pending reconnections are unchanged, and so are the live report and the
    live state; the early-warning handler catches the error, logs it and
    returns.  It is the close event, which the error event forces by
    closing the socket, that marks the feed disconnected and schedules one
    reconnection after 5000 ms, from any state, however many went
    before. *)
Theorem parse_failure_drops_message
    (payload : Type)
    (parseP2P : payload -> parsed P2PQuakeData)
    (parseWolfx : payload -> parsed WolfxMessage)
    (f : FeedId) (now : Z) (ev : payload) (st : AppState) :
  failsToParse parseP2P parseWolfx f ev ->
  let after := onmessage parseP2P parseWolfx f now ev st in
  statusOf f (stateOf after) = statusOf f st
  /\ socketOf f (stateOf after) = socketOf f st
  /\ timers (stateOf after) = timers st
  /\ liveQuake (stateOf after) = liveQuake st
  /\ liveEEW (stateOf after) = liveEEW st
  /\ (f = Wolfx -> after = Returns (stateOf after)
                    /\ consoleErrors (stateOf after) = S (consoleErrors st))
  /\ (forall s, statusOf f (stateOf (onclose f s)) = disconnected
                /\ timers (stateOf (onclose f s)) = timers s ++ [mkTimer f 5000])
  /\ (forall s, socketOf f (stateOf (onerror f s)) = closeSocket (socketOf f s)).
Proof.
  intros Hfail after. subst after.
  destruct f; cbn in Hfail; cbn [onmessage];
    unfold onmessageP2P, onmessageWolfx; rewrite Hfail; cbn;
    repeat split; auto; discriminate.
Qed.

Lemma parse_failure_drops_message_witness :
  let parseP2P := fun _ : unit => @SyntaxError P2PQuakeData in
  let parseWolfx := fun _ : unit => @SyntaxError WolfxMessage in
  let after := onmessage parseP2P parseWolfx Wolfx 1000 tt bothOpen in
  statusOf Wolfx (stateOf after) = connected
  /\ socketOf Wolfx (stateOf after) = Some OPEN
  /\ timers (stateOf after) = []
  /\ liveQuake (stateOf after) = None
  /\ liveEEW (stateOf after) = initialEEW
  /\ (Wolfx = Wolfx -> after = Returns (stateOf after)
                        /\ consoleErrors (stateOf after) = 1%nat)
  /\ (forall s, statusOf Wolfx (stateOf (onclose Wolfx s)) = disconnected
                /\ timers (stateOf (onclose Wolfx s))
                   = timers s ++ [mkTimer Wolfx 5000])
  /\ (forall s, socketOf Wolfx (stateOf (onerror Wolfx s))
                = closeSocket (socketOf Wolfx s)).
Proof.
  intros parseP2P parseWolfx.
  apply (parse_failure_drops_message unit parseP2P parseWolfx Wolfx 1000 tt bothOpen).
  reflexivity.
Defined.

End FeedFacts.

(* ------------------------------------------------------------------ *)
(** ** The wave animation *)

Lemma KM_PER_DEG_value : exists kq, KM_PER_DEG = Fin kq /\ 111 < kq < 112.
Proof. eexists. split; [vm_compute; reflexivity|]. split; reflexivity. Qed.

Lemma radius_not_negative (e : number) :
  Num.lt e (Fin 0) = false ->
  Num.lt (pRadiusDeg e) (Fin 0) = false /\ Num.lt (sRadiusDeg e) (Fin 0) = false.
Proof.
  destruct KM_PER_DEG_value as (kq & EK & HK1 & _).
  assert (HK : 0 < kq) by lra.
  unfold pRadiusDeg, sRadiusDeg, pRadiusKm, sRadiusKm, V_P_WAVE, V_S_WAVE.
  rewrite EK. intros H.
  destruct e as [| | |x].
  - split; reflexivity.
  - discriminate.
  - split; apply NumFacts.nonneg_lt, NumFacts.fdiv_nonneg; try exact HK;
      apply NumFacts.fmul_nonneg; try reflexivity; left; reflexivity.
  - apply NumFacts.lt_zero_false in H.
    split; apply NumFacts.nonneg_lt, NumFacts.fdiv_nonneg; try exact HK;
      apply NumFacts.fmul_nonneg; try reflexivity; right; exists x; auto.
Qed.

Lemma animate_keeps_radii (now : Z) (startTime : number) (st : MapState) :
  noNegativeRadius st -> noNegativeRadius (animate now startTime st).
Proof.
  unfold noNegativeRadius, animate. intros Hst w.
  destruct (Num.lt (elapsedSec now startTime) (Fin 0)) eqn:E; cbn [waves].
  - apply Hst.
  - destruct (radius_not_negative _ E) as [Hp Hs].
    intros [<- | [<- | []]]; assumption.
Qed.

Lemma animateAll_keeps_radii (startTime : number) (instants : list Z)
    (st : MapState) :
  noNegativeRadius st -> noNegativeRadius (animateAll startTime instants st).
Proof.
  unfold animateAll. revert st.
  induction instants as [|now rest IH]; intros st H; cbn [fold_left]; auto.
  apply IH. apply animate_keeps_radii. exact H.
Qed.

(** C8: in an iteration where the elapsed time since the origin instant is
    negative, [animate] draws nothing: the wave layer and the transform are
    as before, and the next frame is requested.  Hence, from a layer with
    no negative radius, no run of iterations ever leaves a circle of
    negative radius. *)
Theorem animate_idles_before_origin
    (now : Z) (startTime : number) (st : MapState) :
  Num.lt (elapsedSec now startTime) (Fin 0) = true ->
  waves (animate now startTime st) = waves st
  /\ transform (animate now startTime st) = transform st
  /\ frameRequested (animate now startTime st) = true
  /\ (forall instants t w,
        In w (waves (animateAll startTime instants (mkMap t [] false))) ->
        Num.lt (radius w) (Fin 0) = false).
Proof.
  intros H. unfold animate. rewrite H. repeat split.
  intros instants t w.
  apply (animateAll_keeps_radii startTime instants (mkMap t [] false)).
  intros ? [].
Qed.

Lemma animate_idles_before_origin_witness :
  let st := mkMap zoomIdentity [mkWave PWave (Fin 1)] false in
  waves (animate 1000 (Num.ofZ 3000) st) = waves st
  /\ transform (animate 1000 (Num.ofZ 3000) st) = transform st
  /\ frameRequested (animate 1000 (Num.ofZ 3000) st) = true
  /\ (forall instants t w,
        In w (waves (animateAll (Num.ofZ 3000) instants (mkMap t [] false))) ->
        Num.lt (radius w) (Fin 0) = false).
Proof.
  intros st. apply (animate_idles_before_origin 1000 (Num.ofZ 3000) st).
  reflexivity.
Defined.

(** *** The elapsed time between two time values *)

Lemma pow2_55_small : Num.pow2 55 <= Num.pow2 1023.
Proof. apply NumFacts.pow2_le. lia. Qed.

Lemma difference_bounded (now T0 : Z) :
  timeValue now -> timeValue T0 ->
  - Num.pow2 55 <= inject_Z now + - inject_Z T0 <= Num.pow2 55.
Proof.
  unfold timeValue, MAX_TIME. intros Hn Ht.
  rewrite <- inject_Z_opp, <- inject_Z_plus.
  change (Num.pow2 55) with (inject_Z (2 ^ 55)). rewrite <- inject_Z_opp.
  rewrite <- !Zle_Qle. lia.
Qed.

(** The elapsed seconds are finite, of the sign of the difference of the
    instants, at least 1/1024 when the origin is in the past, and grow
    with the instant. *)
Lemma elapsed_value (now T0 : Z) :
  timeValue now -> timeValue T0 ->
  exists e, elapsedSec now (Num.ofZ T0) = Fin e
            /\ ((now < T0)%Z -> e < 0)
            /\ ((T0 <= now)%Z -> 0 <= e)
            /\ ((T0 < now)%Z -> 1 # 1024 <= e)
            /\ e <= Num.pow2 55.
Proof.
  intros Hn Ht. unfold elapsedSec, Num.fsub, Num.ofZ.
  cbn [Num.sub Num.add Num.neg Num.round].
  set (d := inject_Z now + - inject_Z T0).
  assert (Ed : d == inject_Z (now - T0)).
  { unfold d. rewrite <- inject_Z_opp, <- inject_Z_plus. reflexivity. }
  pose proof (difference_bounded now T0 Hn Ht) as Hd. fold d in Hd.
  destruct (NumFacts.round64_err d (Num.pow2 55) Hd pow2_55_small) as (dl & E1 & _).
  rewrite E1. unfold Num.fdiv. cbn [Num.div].
  change (Qeq_bool 1000 0) with false. cbv iota. cbn [Num.round].
  assert (R55 : Num.round64 (Num.pow2 55) = Fin (Num.pow2 55)) by (vm_compute; reflexivity).
  assert (Rm55 : Num.round64 (- Num.pow2 55) = Fin (- Num.pow2 55)) by (vm_compute; reflexivity).
  assert (R0 : Num.round64 0 = Fin 0) by reflexivity.
  assert (R1 : Num.round64 1 = Fin 1) by (vm_compute; reflexivity).
  assert (Rm1 : Num.round64 (- (1)) = Fin (- (1))) by (vm_compute; reflexivity).
  assert (Hdl : - Num.pow2 55 <= dl <= Num.pow2 55).
  { split.
    - apply (NumFacts.round64_mono_fin (- Num.pow2 55) d); [lra | exact Rm55 | exact E1].
    - apply (NumFacts.round64_mono_fin d (Num.pow2 55)); [lra | exact E1 | exact R55]. }
  assert (P55 : 0 < Num.pow2 55) by apply NumFacts.pow2_pos.
  assert (I : / 1000 == 1 # 1000) by reflexivity.
  assert (Hq : - Num.pow2 55 <= dl / 1000 <= Num.pow2 55).
  { unfold Qdiv. rewrite I. split; lra. }
  destruct (NumFacts.round64_err (dl / 1000) (Num.pow2 55) Hq pow2_55_small)
    as (e & E2 & _).
  exists e. split; [exact E2|].
  assert (C0 : exists c0, Num.round64 (1 # 1000) = Fin c0 /\ 1 # 1024 <= c0).
  { eexists. split; [vm_compute; reflexivity|]. apply Qle_bool_iff. reflexivity. }
  assert (Cm : exists c1, Num.round64 (- (1 # 1000)) = Fin c1 /\ c1 < 0).
  { eexists. split; [vm_compute; reflexivity|]. reflexivity. }
  destruct C0 as (c0 & Ec0 & Hc0). destruct Cm as (c1 & Ec1 & Hc1).
  repeat split.
  - intros Hlt.
    assert (Dm : d <= - (1)).
    { rewrite Ed. change (- (1)) with (inject_Z (-1)). rewrite <- Zle_Qle. lia. }
    assert (X : dl <= - (1)) by (apply (NumFacts.round64_mono_fin d (- (1))); assumption).
    assert (Y : e <= c1).
    { apply (NumFacts.round64_mono_fin (dl / 1000) (- (1 # 1000))); try assumption.
      unfold Qdiv. rewrite I. lra. }
    lra.
  - intros Hle.
    assert (Dm : 0 <= d).
    { rewrite Ed. change 0 with (inject_Z 0). rewrite <- Zle_Qle. lia. }
    assert (X : 0 <= dl) by (apply (NumFacts.round64_mono_fin 0 d); assumption).
    apply (NumFacts.round64_mono_fin 0 (dl / 1000)); try assumption.
    unfold Qdiv. rewrite I. lra.
  - intros Hlt.
    assert (Dm : 1 <= d).
    { rewrite Ed. change 1 with (inject_Z 1). rewrite <- Zle_Qle. lia. }
    assert (X : 1 <= dl) by (apply (NumFacts.round64_mono_fin 1 d); assumption).
    assert (Y : c0 <= e).
    { apply (NumFacts.round64_mono_fin (1 # 1000) (dl / 1000)); try assumption.
      unfold Qdiv. rewrite I. lra. }
    lra.
  - apply (NumFacts.round64_mono_fin (dl / 1000) (Num.pow2 55)); try assumption.
    unfold Qdiv. rewrite I. lra.
Qed.

Lemma elapsed_le (now now' T0 : Z) (e e' : Q) :
  (now <= now')%Z ->
  elapsedSec now (Num.ofZ T0) = Fin e -> elapsedSec now' (Num.ofZ T0) = Fin e' ->
  e <= e'.
Proof.
  unfold elapsedSec, Num.fsub, Num.fdiv, Num.ofZ.
  cbn [Num.sub Num.add Num.neg Num.round]. intros Hle.
  assert (Hq : inject_Z now + - inject_Z T0 <= inject_Z now' + - inject_Z T0).
  { rewrite Zle_Qle in Hle. lra. }
  destruct (Num.round64 (inject_Z now + - inject_Z T0)) as [| | |dl] eqn:E1;
    try (cbn; discriminate).
  destruct (Num.round64 (inject_Z now' + - inject_Z T0)) as [| | |dl'] eqn:E1';
    try (cbn; intros; discriminate).
  cbn [Num.div]. change (Qeq_bool 1000 0) with false. cbv iota. cbn [Num.round].
  intros E2 E2'.
  assert (X : dl <= dl') by (apply (NumFacts.round64_mono_fin _ _ _ _ Hq E1 E1')).
  apply (NumFacts.round64_mono_fin (dl / 1000) (dl' / 1000)); try assumption.
  assert (I : / 1000 == 1 # 1000) by reflexivity.
  unfold Qdiv. rewrite I. lra.
Qed.

(** With an origin instant on the clock, the elapsed time is negative
    exactly when the origin is in the future. *)
Lemma elapsed_negative_iff (now T0 : Z) :
  timeValue now -> timeValue T0 ->
  Num.lt (elapsedSec now (Num.ofZ T0)) (Fin 0) = true <-> (now < T0)%Z.
Proof.
  intros Hn Ht. destruct (elapsed_value now T0 Hn Ht) as (e & -> & Hneg & Hpos & _).
  cbn [Num.lt]. rewrite NumFacts.Qltb_lt. split.
  - intros H. destruct (Z_lt_le_dec now T0) as [L | L]; [exact L|].
    specialize (Hpos L). lra.
  - exact Hneg.
Qed.

(** *** The radii *)

Lemma below_overflow (q : Q) : q <= Num.pow2 60 -> q <= Num.pow2 1023.
Proof.
  intros H. apply Qle_trans with (Num.pow2 60); [exact H|].
  apply NumFacts.pow2_le. lia.
Qed.

Lemma fdiv_by_positive (x c : Q) :
  0 < c -> Num.fdiv (Fin x) (Fin c) = Num.round64 (x / c).
Proof.
  intros Hc. unfold Num.fdiv. cbn [Num.div].
  destruct (Qeq_bool c 0) eqn:E; [apply Qeq_bool_iff in E; lra | reflexivity].
Qed.

(** The radii at an elapsed time that is not negative: finite, ordered,
    and strictly ordered from 1/1024 s on. *)
Lemma radii_value (e : Q) :
  0 <= e <= Num.pow2 55 ->
  exists pk sk pd sd,
    pRadiusKm (Fin e) = Fin pk /\ sRadiusKm (Fin e) = Fin sk
    /\ pRadiusDeg (Fin e) = Fin pd /\ sRadiusDeg (Fin e) = Fin sd
    /\ 0 <= sk <= pk /\ 0 <= sd <= pd
    /\ (1 # 1024 <= e -> sk < pk /\ sd < pd).
Proof.
  intros [He0 He].
  destruct NumFacts.eta64_small as [Eta0 Eta].
  unfold pRadiusDeg, sRadiusDeg, pRadiusKm, sRadiusKm, V_P_WAVE, V_S_WAVE.
  let v := eval vm_compute in KM_PER_DEG in
  match v with Fin ?q => pose (kq := q); change KM_PER_DEG with (Fin kq) end.
  assert (HK : 0 < kq) by reflexivity.
  let w := eval vm_compute in (/ kq) in assert (IK : / kq == w) by reflexivity.
  assert (IK' : 1 # 128 <= / kq <= 1 # 64) by (split; apply Qle_bool_iff; reflexivity).
  clearbody kq.
  unfold Num.fmul. cbn [Num.mul Num.round].
  assert (V55 : Num.pow2 55 == 36028797018963968) by reflexivity.
  assert (V60 : Num.pow2 60 == 1152921504606846976) by reflexivity.
  destruct (NumFacts.round64_err_pos (e * (13 # 2)) (e * (13 # 2)))
    as (pk & Epk & [P1 P2] & P0); [split; lra | apply below_overflow; lra|].
  destruct (NumFacts.round64_err_pos (e * (7 # 2)) (e * (7 # 2)))
    as (sk & Esk & [S1 S2] & S0); [split; lra | apply below_overflow; lra|].
  rewrite Epk, Esk, !(fdiv_by_positive _ kq HK).
  change Num.eps64 with (1 # 9007199254740992) in *.
  assert (Mk : sk <= pk).
  { apply (NumFacts.round64_mono_fin (e * (7 # 2)) (e * (13 # 2))); try assumption. lra. }
  assert (Bp : pk <= Num.pow2 55 * 8) by lra.
  assert (Qp : 0 <= pk / kq <= pk * (1 # 64)).
  { unfold Qdiv. split.
    - apply Qmult_le_0_compat; lra.
    - apply NumFacts.Qmult_le_l_weak; lra. }
  assert (Qs : 0 <= sk / kq <= sk * (1 # 64)).
  { unfold Qdiv. split.
    - apply Qmult_le_0_compat; lra.
    - apply NumFacts.Qmult_le_l_weak; lra. }
  assert (Muv : sk / kq <= pk / kq).
  { unfold Qdiv. apply Qmult_le_compat_r; lra. }
  assert (Gq : 1 # 1024 <= e -> sk / kq + e * (1 # 128) <= pk / kq).
  { intros Hpos. unfold Qdiv.
    assert (X : (sk + e) * / kq <= pk * / kq) by (apply Qmult_le_compat_r; lra).
    assert (Y : e * (1 # 128) <= e * / kq) by (apply NumFacts.Qmult_le_l_weak; lra).
    set (a := / kq) in *. assert (Z : (sk + e) * a == sk * a + e * a) by ring.
    lra. }
  set (u := pk / kq) in *. set (v := sk / kq) in *.
  destruct (NumFacts.round64_err_pos u u)
    as (pd & Epd & [D1 D2] & D0); [split; lra | apply below_overflow; lra|].
  destruct (NumFacts.round64_err_pos v v)
    as (sd & Esd & [T1 T2] & T0); [split; lra | apply below_overflow; lra|].
  exists pk, sk, pd, sd. rewrite Epd, Esd.
  repeat (split; [reflexivity|]).
  assert (Md : sd <= pd).
  { apply (NumFacts.round64_mono_fin v u); assumption. }
  split; [split; assumption|]. split; [split; assumption|].
  intros Hpos. specialize (Gq Hpos).
  change Num.eps64 with (1 # 9007199254740992) in *. clearbody u v.
  split; lra.
Qed.

Lemma radii_le (e e' pk pk' sk sk' pd pd' sd sd' : Q) :
  e <= e' ->
  pRadiusKm (Fin e) = Fin pk -> pRadiusKm (Fin e') = Fin pk' ->
  sRadiusKm (Fin e) = Fin sk -> sRadiusKm (Fin e') = Fin sk' ->
  pRadiusDeg (Fin e) = Fin pd -> pRadiusDeg (Fin e') = Fin pd' ->
  sRadiusDeg (Fin e) = Fin sd -> sRadiusDeg (Fin e') = Fin sd' ->
  pk <= pk' /\ sk <= sk' /\ pd <= pd' /\ sd <= sd'.
Proof.
  intros Hle. unfold pRadiusDeg, sRadiusDeg.
  intros Ep Ep' Es Es'. rewrite Ep, Ep', Es, Es'.
  destruct KM_PER_DEG_value as (kq & -> & HK & _).
  assert (HK0 : 0 < kq) by lra.
  rewrite !(fdiv_by_positive _ kq HK0).
  unfold pRadiusKm, sRadiusKm, V_P_WAVE, V_S_WAVE, Num.fmul in Ep, Ep', Es, Es'.
  cbn [Num.mul Num.round] in Ep, Ep', Es, Es'.
  assert (Mp : pk <= pk').
  { apply (NumFacts.round64_mono_fin (e * (13 # 2)) (e' * (13 # 2))); try assumption. lra. }
  assert (Ms : sk <= sk').
  { apply (NumFacts.round64_mono_fin (e * (7 # 2)) (e' * (7 # 2))); try assumption. lra. }
  assert (Ik : 0 <= / kq) by (apply Qlt_le_weak, Qinv_lt_0_compat; exact HK0).
  intros Ed Ed' Et Et'. repeat split; try assumption.
  - apply (NumFacts.round64_mono_fin (pk / kq) (pk' / kq)); try assumption.
    unfold Qdiv. apply Qmult_le_compat_r; assumption.
  - apply (NumFacts.round64_mono_fin (sk / kq) (sk' / kq)); try assumption.
    unfold Qdiv. apply Qmult_le_compat_r; assumption.
Qed.

(** C7: at an instant [d] milliseconds after the origin instant, both time
    values, [animate] draws the P circle and the S circle with finite
    radii (in degrees) that are not negative; the P radius is strictly
    greater than the S radius when [d > 0], in kilometres and in degrees
    alike; and each radius is non-decreasing in [d]. *)
Theorem wave_radii_ordered (T0 d1 d2 : Z) (st : MapState) :
  timeValue T0 -> timeValue (T0 + d1) -> timeValue (T0 + d2) ->
  (0 <= d1)%Z -> (d1 <= d2)%Z ->
  exists e1 e2 pk1 sk1 pk2 sk2 p1 s1 p2 s2 : Q,
    elapsedSec (T0 + d1) (Num.ofZ T0) = Fin e1
    /\ elapsedSec (T0 + d2) (Num.ofZ T0) = Fin e2
    /\ pRadiusKm (Fin e1) = Fin pk1 /\ sRadiusKm (Fin e1) = Fin sk1
    /\ pRadiusKm (Fin e2) = Fin pk2 /\ sRadiusKm (Fin e2) = Fin sk2
    /\ waves (animate (T0 + d1) (Num.ofZ T0) st)
       = [mkWave PWave (Fin p1); mkWave SWave (Fin s1)]
    /\ waves (animate (T0 + d2) (Num.ofZ T0) st)
       = [mkWave PWave (Fin p2); mkWave SWave (Fin s2)]
    /\ 0 <= sk1 <= pk1 /\ 0 <= s1 <= p1
    /\ ((0 < d1)%Z -> sk1 < pk1 /\ s1 < p1)
    /\ pk1 <= pk2 /\ sk1 <= sk2 /\ p1 <= p2 /\ s1 <= s2.
Proof.
  intros Ht Ht1 Ht2 H0 H12.
  destruct (elapsed_value (T0 + d1) T0 Ht1 Ht) as (e1 & E1 & _ & Hp1 & Hs1 & Hb1).
  destruct (elapsed_value (T0 + d2) T0 Ht2 Ht) as (e2 & E2 & _ & Hp2 & _ & Hb2).
  specialize (Hp1 ltac:(lia)). specialize (Hp2 ltac:(lia)).
  pose proof (elapsed_le (T0 + d1) (T0 + d2) T0 e1 e2 ltac:(lia) E1 E2) as Hle.
  destruct (radii_value e1 (conj Hp1 Hb1))
    as (pk1 & sk1 & p1 & s1 & Ek1 & Es1 & Ed1 & Et1 & Ok1 & Od1 & Strict1).
  destruct (radii_value e2 (conj Hp2 Hb2))
    as (pk2 & sk2 & p2 & s2 & Ek2 & Es2 & Ed2 & Et2 & _ & _ & _).
  destruct (radii_le e1 e2 pk1 pk2 sk1 sk2 p1 p2 s1 s2 Hle
              Ek1 Ek2 Es1 Es2 Ed1 Ed2 Et1 Et2) as (M1 & M2 & M3 & M4).
  exists e1, e2, pk1, sk1, pk2, sk2, p1, s1, p2, s2.
  assert (N1 : Num.lt (Fin e1) (Fin 0) = false) by (apply NumFacts.lt_zero_false; exact Hp1).
  assert (N2 : Num.lt (Fin e2) (Fin 0) = false) by (apply NumFacts.lt_zero_false; exact Hp2).
  unfold animate. rewrite E1, E2, N1, N2. cbn [waves]. rewrite Ed1, Et1, Ed2, Et2.
  repeat (split; [first [assumption | reflexivity]|]).
  split.
  - intros Hd. apply Strict1. apply Hs1. lia.
  - repeat split; assumption.
Qed.

Lemma wave_radii_ordered_witness :
  exists e1 e2 pk1 sk1 pk2 sk2 p1 s1 p2 s2 : Q,
    elapsedSec (1000 + 2000) (Num.ofZ 1000) = Fin e1
    /\ elapsedSec (1000 + 5000) (Num.ofZ 1000) = Fin e2
    /\ pRadiusKm (Fin e1) = Fin pk1 /\ sRadiusKm (Fin e1) = Fin sk1
    /\ pRadiusKm (Fin e2) = Fin pk2 /\ sRadiusKm (Fin e2) = Fin sk2
    /\ waves (animate (1000 + 2000) (Num.ofZ 1000) (mkMap zoomIdentity [] false))
       = [mkWave PWave (Fin p1); mkWave SWave (Fin s1)]
    /\ waves (animate (1000 + 5000) (Num.ofZ 1000) (mkMap zoomIdentity [] false))
       = [mkWave PWave (Fin p2); mkWave SWave (Fin s2)]
    /\ 0 <= sk1 <= pk1 /\ 0 <= s1 <= p1
    /\ ((0 < 2000)%Z -> sk1 < pk1 /\ s1 < p1)
    /\ pk1 <= pk2 /\ sk1 <= sk2 /\ p1 <= p2 /\ s1 <= s2.
Proof.
  apply (wave_radii_ordered 1000 2000 5000 (mkMap zoomIdentity [] false));
    unfold timeValue, MAX_TIME; lia.
Defined.

(* ------------------------------------------------------------------ *)
(** ** Coordinate resolution *)

Section GazetteerFacts.

Variable G : list (jsstring * (number * number)).

(** No place of the gazetteer has the empty name. *)
Hypothesis keys_named : ~ In [] (keys G).

Lemma found_is_truthy (p : jsstring -> bool) (key : jsstring) :
  find p (keys G) = Some key -> truthyMatch (Some key) = true.
Proof.
  intros H. apply find_some in H as [Hin _].
  destruct key; [contradiction | reflexivity].
Qed.

Lemma station_of_key (key : jsstring) :
  In key (keys G) ->
  exists lat lon, station G key = Some (lat, lon) /\ In (key, (lat, lon)) G.
Proof using Type.
  unfold keys, station. intros Hin.
  destruct (find (fun e => JsString.eqb (fst e) key) G) as [[k' [lat lon]]|] eqn:E.
  - apply find_some in E as [HinG Heq]. apply JsStringFacts.eqb_eq in Heq.
    cbn in Heq. subst k'. exists lat, lon. split; [reflexivity | exact HinG].
  - apply in_map_iff in Hin as [[k' v] [Hk HinG]]. cbn in Hk. subst k'.
    pose proof (find_none _ _ E _ HinG) as Hn. cbn in Hn.
    rewrite (proj2 (JsStringFacts.eqb_eq key key) eq_refl) in Hn. discriminate.
Qed.

Lemma findCoordinate_refines (name : jsstring) :
  findCoordinate G name = resolveByPriority G name.
Proof.
  unfold findCoordinate, resolveByPriority, coordinateOf. cbv zeta.
  destruct (find (fun k => JsString.eqb k name) (keys G)) as [k0|] eqn:E0.
  { pose proof (found_is_truthy _ _ E0) as T. repeat (rewrite ?T; cbn [negb]).
    destruct (station G k0) as [[lat lon]|]; reflexivity. }
  cbn [truthyMatch negb].
  destruct (find (fun k => JsString.startsWith name k) (keys G)) as [k1|] eqn:E1.
  { pose proof (found_is_truthy _ _ E1) as T. repeat (rewrite ?T; cbn [negb]).
    destruct (station G k1) as [[lat lon]|]; reflexivity. }
  cbn [truthyMatch negb].
  destruct (find (fun k => JsString.includes name k) (keys G)) as [k2|] eqn:E2.
  { pose proof (found_is_truthy _ _ E2) as T. repeat (rewrite ?T; cbn [negb]).
    destruct (station G k2) as [[lat lon]|]; reflexivity. }
  reflexivity.
Qed.

Lemma coordinateOf_found (p : jsstring -> bool) (key : jsstring) :
  find p (keys G) = Some key ->
  exists lat lon, coordinateOf G key = Some (lon, lat)
                  /\ In (key, (lat, lon)) G /\ p key = true.
Proof using Type.
  intros H. apply find_some in H as [Hin Hp].
  destruct (station_of_key _ Hin) as (lat & lon & Hs & HinG).
  exists lat, lon. unfold coordinateOf. rewrite Hs. auto.
Qed.

Lemma resolve_none_iff (name : jsstring) :
  resolveByPriority G name = None
  <-> forall key, In key (keys G) -> JsString.includes name key = false.
Proof using Type.
  unfold resolveByPriority. split.
  - destruct (find _ (keys G)) as [k0|] eqn:E0.
    { destruct (coordinateOf_found _ _ E0) as (? & ? & -> & _). discriminate. }
    destruct (find (fun k => JsString.startsWith name k) (keys G)) as [k1|] eqn:E1.
    { destruct (coordinateOf_found _ _ E1) as (? & ? & -> & _). discriminate. }
    destruct (find (fun k => JsString.includes name k) (keys G)) as [k2|] eqn:E2.
    { destruct (coordinateOf_found _ _ E2) as (? & ? & -> & _). discriminate. }
    intros _ key Hin. exact (find_none _ _ E2 _ Hin).
  - intros Hno.
    destruct (find _ (keys G)) as [k0|] eqn:E0.
    { apply find_some in E0 as [Hin Heq]. apply JsStringFacts.eqb_eq in Heq.
      subst k0. pose proof (Hno _ Hin) as Hc.
      rewrite (JsStringFacts.startsWith_includes _ _
                 (JsStringFacts.startsWith_refl name)) in Hc. discriminate. }
    destruct (find (fun k => JsString.startsWith name k) (keys G)) as [k1|] eqn:E1.
    { apply find_some in E1 as [Hin Hp]. pose proof (Hno _ Hin) as Hc.
      rewrite (JsStringFacts.startsWith_includes _ _ Hp) in Hc. discriminate. }
    destruct (find (fun k => JsString.includes name k) (keys G)) as [k2|] eqn:E2.
    { apply find_some in E2 as [Hin Hp]. rewrite (Hno _ Hin) in Hp. discriminate. }
    reflexivity.
Qed.

End GazetteerFacts.

(** C5: over a gazetteer with no empty place name, [findCoordinate] is the
    resolution by priority: the first key equal to the name, else the first
    key that is a prefix of the name, else the first key the name contains,
    each first in the order of the keys, giving that key's [[lon, lat]];
    it is unresolved exactly when the name contains no key; and a caller
    collecting coordinates drops an unresolved name and goes on. *)
Theorem findCoordinate_by_priority
    (G : list (jsstring * (number * number))) (name : jsstring) :
  ~ In [] (keys G) ->
  findCoordinate G name = resolveByPriority G name
  /\ (forall key, find (fun k => JsString.eqb k name) (keys G) = Some key ->
      exists lat lon, findCoordinate G name = Some (lon, lat)
                      /\ In (key, (lat, lon)) G /\ key = name)
  /\ (find (fun k => JsString.eqb k name) (keys G) = None ->
      forall key, find (fun k => JsString.startsWith name k) (keys G) = Some key ->
      exists lat lon, findCoordinate G name = Some (lon, lat)
                      /\ In (key, (lat, lon)) G
                      /\ JsString.startsWith name key = true)
  /\ (find (fun k => JsString.eqb k name) (keys G) = None ->
      find (fun k => JsString.startsWith name k) (keys G) = None ->
      forall key, find (fun k => JsString.includes name k) (keys G) = Some key ->
      exists lat lon, findCoordinate G name = Some (lon, lat)
                      /\ In (key, (lat, lon)) G
                      /\ JsString.includes name key = true)
  /\ (findCoordinate G name = None
      <-> forall key, In key (keys G) -> JsString.includes name key = false)
  /\ (findCoordinate G name = None ->
      forall origin before after,
        areaCoords G origin (before ++ name :: after)
        = areaCoords G origin (before ++ after)).
Proof.
  intros Hkeys. pose proof (findCoordinate_refines G Hkeys name) as R.
  split; [exact R|]. rewrite R.
  split; [|split; [|split; [|split]]].
  - intros key E. destruct (coordinateOf_found G _ _ E) as (lat & lon & Hc & Hin & Hp).
    exists lat, lon. unfold resolveByPriority. rewrite E.
    apply JsStringFacts.eqb_eq in Hp. auto.
  - intros E0 key E. destruct (coordinateOf_found G _ _ E) as (lat & lon & Hc & Hin & Hp).
    exists lat, lon. unfold resolveByPriority. rewrite E0, E. auto.
  - intros E0 E1 key E.
    destruct (coordinateOf_found G _ _ E) as (lat & lon & Hc & Hin & Hp).
    exists lat, lon. unfold resolveByPriority. rewrite E0, E1, E. auto.
  - apply resolve_none_iff.
  - rewrite <- R. intros Hnone origin before after. unfold areaCoords.
    rewrite !flat_map_app. cbn [flat_map]. rewrite Hnone. reflexivity.
Qed.

Lemma findCoordinate_by_priority_witness :
  findCoordinate Sample.gazetteer Sample.wakayamaNorth
  = resolveByPriority Sample.gazetteer Sample.wakayamaNorth
  /\ findCoordinate Sample.gazetteer Sample.wakayamaNorth
     = Some (Fin (13517 # 100), Fin (3423 # 100)).
Proof.
  split; [|reflexivity].
  apply (findCoordinate_by_priority Sample.gazetteer Sample.wakayamaNorth).
  cbn. intros [H | [H | []]]; discriminate.
Defined.

(* ------------------------------------------------------------------ *)
(** ** Viewport fitting *)

Lemma boundsOf_snoc (ps : list Pixel) (p : Pixel) :
  boundsOf (ps ++ [p]) = extendBounds (boundsOf ps) p.
Proof. unfold boundsOf. rewrite fold_left_app. reflexivity. Qed.

(** [minX] is still [Infinity] after the loop exactly when no abscissa is
    below [Infinity]: each is NaN or [Infinity]. *)
Lemma minX_stays_unset (ps : list Pixel) (b : Bounds) :
  minX b = PosInf ->
  Forall (fun p => Num.lt (fst p) PosInf = false) ps ->
  minX (fold_left extendBounds ps b) = PosInf.
Proof.
  revert b. induction ps as [|[x y] ps IH]; intros b Hb Hall; cbn [fold_left].
  - exact Hb.
  - inversion_clear Hall as [|? ? Hx Hrest]. cbn [fst] in Hx.
    apply IH; [|exact Hrest]. cbn [extendBounds minX]. rewrite Hb, Hx. reflexivity.
Qed.

Lemma minX_set_stays (ps : list Pixel) (b : Bounds) :
  Num.lt (minX b) PosInf = true ->
  Num.lt (minX (fold_left extendBounds ps b)) PosInf = true.
Proof.
  revert b. induction ps as [|[x y] ps IH]; intros b Hb; cbn [fold_left].
  - exact Hb.
  - apply IH. cbn [extendBounds minX].
    destruct (Num.lt x (minX b)) eqn:E; [|exact Hb].
    destruct x as [| | |qx]; try reflexivity; try discriminate.
    destruct (minX b); discriminate.
Qed.

Lemma minX_unset_iff (ps : list Pixel) :
  minX (boundsOf ps) = PosInf
  <-> Forall (fun p => Num.lt (fst p) PosInf = false) ps.
Proof.
  split.
  - unfold boundsOf.
    assert (G : forall b, minX b = PosInf ->
                minX (fold_left extendBounds ps b) = PosInf ->
                Forall (fun p => Num.lt (fst p) PosInf = false) ps).
    { induction ps as [|[x y] ps IH]; intros b Hb H; [constructor|].
      cbn [fold_left] in H.
      destruct (Num.lt x PosInf) eqn:E.
      - exfalso.
        assert (S : Num.lt (minX (extendBounds b (x, y))) PosInf = true).
        { cbn [extendBounds minX]. rewrite Hb, E. exact E. }
        pose proof (minX_set_stays ps _ S) as C. rewrite H in C. discriminate.
      - constructor; [exact E|]. apply (IH (extendBounds b (x, y))); [|exact H].
        cbn [extendBounds minX]. rewrite Hb, E. reflexivity. }
    apply G. reflexivity.
  - apply minX_stays_unset. reflexivity.
Qed.

Lemma fitBounds_no_valid_point
    (refs : MapRefs) (coordinates : list Coordinate) (paddingPercent : number)
    (current : ViewportTransform) :
  coordinates = []
  \/ (forall projection, projectionRef refs = Some projection ->
      Forall (fun c => Num.lt (fst (projection c)) PosInf = false) coordinates) ->
  fitBounds refs coordinates paddingPercent current = current.
Proof.
  intros H. unfold fitBounds.
  destruct (svgRef refs); [|reflexivity].
  destruct (containerRef refs) as [[width height]|]; [|reflexivity].
  destruct (zoomBehaviorRef refs); [|reflexivity].
  destruct coordinates as [|c cs]; [reflexivity|].
  destruct (projectionRef refs) as [projection|]; [|reflexivity].
  destruct H as [H | H]; [discriminate|].
  specialize (H projection eq_refl).
  assert (E : minX (boundsOf (map projection (c :: cs))) = PosInf).
  { apply minX_unset_iff. apply Forall_map. exact H. }
  cbv zeta. rewrite E. reflexivity.
Qed.

Lemma areaCoords_exact (G : list (jsstring * (number * number)))
    (origin : Coordinate) (names : list jsstring) (c : Coordinate) :
  In c (areaCoords G origin names)
  <-> c = origin \/ exists a, In a names /\ findCoordinate G a = Some c.
Proof.
  unfold areaCoords. cbn [In]. rewrite in_flat_map. split.
  - intros [<- | (a & Ha & Hc)]; [left; reflexivity|].
    right. exists a. split; [exact Ha|].
    destruct (findCoordinate G a) as [c'|]; [|contradiction].
    destruct Hc as [<- | []]. reflexivity.
  - intros [-> | (a & Ha & Hc)]; [left; reflexivity|].
    right. exists a. split; [exact Ha|]. rewrite Hc. left. reflexivity.
Qed.

Lemma animate_transform (now : Z) (startTime : number) (st : MapState) :
  transform (animate now startTime st) = transform st.
Proof. unfold animate. destruct (Num.lt _ _); reflexivity. Qed.

(** C9, as stated, fails, in three ways.  (1) The epicentre name is not in
    the gazetteer and the one area name is, so some but not all names
    resolve: the EEW effect makes no fit and the transform stays the
    identity, whereas a fit on the resolvable point would move it.
    (2) The epicentre and the area both resolve but the Japan map is not
    loaded: the fit is made on the epicentre alone, not on the two points.
    (3) A request whose one point projects to an invalid pixel, its
    ordinate NaN, does change the transform: the zoom becomes the minimum
    zoom and the vertical translation NaN. *)
Lemma unresolved_epicentre_no_fit_counterexample :
  let getTime := fun _ : jsstring => Num.ofZ 0 in
  let start := mkMap zoomIdentity [] false in
  (* 1 *)
  (hypocenterName Sample.unknownEpicentre = Some Sample.hokkaido
   /\ areas Sample.unknownEpicentre = [Sample.osaka]
   /\ findCoordinate Sample.gazetteer Sample.hokkaido = None
   /\ findCoordinate Sample.gazetteer Sample.osaka = Some Sample.osakaPoint
   /\ transform (eewEffect Sample.gazetteer getTime Sample.refs true true true 5000
                   Sample.unknownEpicentre start)
      = zoomIdentity
   /\ k (fitBounds Sample.refs [Sample.osakaPoint] DEFAULT_PADDING zoomIdentity) = Fin 8
   /\ k zoomIdentity = Fin 1)
  (* 2 *)
  /\ (findCoordinate Sample.gazetteer Sample.wakayamaNorth = Some Sample.wakayamaPoint
      /\ areas Sample.knownEpicentre = [Sample.osaka]
      /\ transform (eewEffect Sample.gazetteer getTime Sample.refs true true false 5000
                      Sample.knownEpicentre start)
         = fitBounds Sample.refs [Sample.wakayamaPoint] DEFAULT_PADDING zoomIdentity
      /\ Num.seq (tx (fitBounds Sample.refs [Sample.wakayamaPoint]
                        DEFAULT_PADDING zoomIdentity))
                 (tx (fitBounds Sample.refs [Sample.wakayamaPoint; Sample.osakaPoint]
                        DEFAULT_PADDING zoomIdentity)) = false)
  (* 3 *)
  /\ (Num.isNaN (snd (Sample.linearProjection Sample.noLatitude)) = true
      /\ k (fitBounds Sample.refs [Sample.noLatitude] DEFAULT_PADDING zoomIdentity)
         = MIN_FIT_ZOOM
      /\ Num.isNaN (ty (fitBounds Sample.refs [Sample.noLatitude]
                          DEFAULT_PADDING zoomIdentity)) = true
      /\ Num.isNaN (ty zoomIdentity) = false).
Proof. cbv zeta. repeat split; vm_compute; reflexivity. Qed.

(** C9, amended: a request with no point, or in which no projected point
    has an abscissa below [Infinity] (as when every projection is
    [[NaN, NaN]]), leaves the transform as it was.  When the EEW effect
    runs its body and the epicentre name resolves, the transform becomes,
    with auto-zoom on, the fit of the epicentre together with exactly the
    area names that resolve if there are areas and the Japan map is
    loaded, and the fit of the epicentre alone otherwise; with auto-zoom
    off it stays.  When the epicentre name does not resolve, no fit is
    made and the transform is as it was, whatever areas resolve. *)
Theorem fit_uses_resolved_points
    (G : list (jsstring * (number * number))) (getTime : jsstring -> number)
    (refs : MapRefs) (projection : Coordinate -> Pixel)
    (coordinates : list Coordinate) (paddingPercent : number)
    (current : ViewportTransform) :
  projectionRef refs = Some projection ->
  Forall (fun c => Num.lt (fst (projection c)) PosInf = false) coordinates ->
  fitBounds refs coordinates paddingPercent current = current
  /\ fitBounds refs [] paddingPercent current = current
  /\ (forall gRef isAutoZoomEnabled japanGeoData now eew st name origin,
        eewIdle refs gRef eew = false ->
        hypocenterName eew = Some name ->
        findCoordinate G name = Some origin ->
        transform (eewEffect G getTime refs gRef isAutoZoomEnabled
                             japanGeoData now eew st)
        = (if isAutoZoomEnabled
           then fitBounds refs
                  (match areas eew with
                   | _ :: _ => if japanGeoData
                               then areaCoords G origin (areas eew)
                               else [origin]
                   | [] => [origin]
                   end)
                  DEFAULT_PADDING (transform st)
           else transform st)
        /\ forall c, In c (areaCoords G origin (areas eew))
                     <-> c = origin
                         \/ exists a, In a (areas eew)
                                      /\ findCoordinate G a = Some c)
  /\ (forall gRef isAutoZoomEnabled japanGeoData now eew st name,
        hypocenterName eew = Some name ->
        findCoordinate G name = None ->
        transform (eewEffect G getTime refs gRef isAutoZoomEnabled
                             japanGeoData now eew st)
        = transform st).
Proof.
  intros Hp Hall. split; [|split; [|split]].
  - apply fitBounds_no_valid_point. right. intros projection' E.
    rewrite Hp in E. injection E as <-. exact Hall.
  - apply fitBounds_no_valid_point. left. reflexivity.
  - intros gRef auto japan now eew st name origin Hidle Hn Ho.
    split; [|intros c; apply areaCoords_exact].
    unfold eewEffect. cbv zeta. rewrite Hidle, Hn.
    assert (Ht : exists occurred, occurredTime eew = Some occurred).
    { unfold eewIdle in Hidle. destruct (occurredTime eew) as [o|]; [eauto|].
      cbn in Hidle. rewrite orb_true_r in Hidle. discriminate. }
    destruct Ht as (occurred & ->). rewrite Ho.
    rewrite animate_transform. cbn [transform eewCleanup].
    unfold eewFitRequest. rewrite Hn, Ho.
    destruct auto; [|reflexivity].
    destruct (areas eew); [reflexivity|]. destruct japan; reflexivity.
  - intros gRef auto japan now eew st name Hn Ho.
    unfold eewEffect. cbv zeta. rewrite Hn, Ho.
    destruct (eewIdle refs gRef eew); [reflexivity|].
    destruct (occurredTime eew); reflexivity.
Qed.

Lemma fit_uses_resolved_points_witness :
  fitBounds Sample.refs [(NaN, NaN)] DEFAULT_PADDING zoomIdentity = zoomIdentity.
Proof.
  apply (fit_uses_resolved_points Sample.gazetteer (fun _ => NaN) Sample.refs
           Sample.linearProjection [(NaN, NaN)] DEFAULT_PADDING zoomIdentity).
  - reflexivity.
  - repeat constructor.
Defined.

(** *** The rounding errors of a fit *)

Lemma range_facts :
  1 <= FIT_RANGE /\ 1048576 * FIT_RANGE <= Num.pow2 1023.
Proof.
  unfold FIT_RANGE. split.
  - change 1 with (Num.pow2 0). apply NumFacts.pow2_le. lia.
  - apply Qle_trans with (Num.pow2 1020); [|apply NumFacts.pow2_le; lia].
    change 1020%Z with (20 + 1000)%Z. rewrite NumFacts.pow2_add.
    change (Num.pow2 20) with 1048576. apply Qle_refl.
Qed.

Lemma eta_range (b : Q) :
  0 <= b <= 4 * FIT_RANGE -> Num.eta64 * b <= 1 # 9007199254740992.
Proof.
  intros [H0 H]. destruct NumFacts.eta64_small as [E0 _].
  apply Qle_trans with (Num.eta64 * (4 * FIT_RANGE)).
  - apply NumFacts.Qmult_le_l_weak; [lra | exact H].
  - apply Qle_trans with (Num.pow2 (-73)); [|apply Qle_bool_iff; reflexivity].
    unfold Num.eta64, FIT_RANGE. change 4 with (Num.pow2 2).
    rewrite <- !NumFacts.pow2_add. apply NumFacts.pow2_le. lia.
Qed.

(** A factor between 0 and 8 scales a bound by at most 8. *)
Lemma scale8 (kq u B : Q) :
  0 <= kq <= 8 -> - B <= u <= B -> - (8 * B) <= kq * u <= 8 * B.
Proof.
  intros [K0 K8] [U1 U2].
  assert (HB : 0 <= B) by lra.
  destruct (Qlt_le_dec u 0) as [N | P].
  - assert (X : kq * u <= 0).
    { assert (Y : 0 <= kq * (- u)) by (apply Qmult_le_0_compat; lra).
      assert (Z : kq * - u == - (kq * u)) by ring. lra. }
    assert (Y : 8 * u <= kq * u).
    { assert (Z : 0 <= (8 - kq) * (- u)) by (apply Qmult_le_0_compat; lra).
      assert (Z' : (8 - kq) * - u == kq * u - 8 * u) by ring. lra. }
    split; lra.
  - assert (X : 0 <= kq * u) by (apply Qmult_le_0_compat; lra).
    assert (Y : kq * u <= 8 * u).
    { assert (Z : 0 <= (8 - kq) * u) by (apply Qmult_le_0_compat; lra).
      assert (Z' : (8 - kq) * u == 8 * u - kq * u) by ring. lra. }
    split; lra.
Qed.

(** A scale that is at most the rounded quotient [n / bw]. *)
Lemma le_fdiv (kq n bw : Q) :
  0 < kq <= 8 -> 0 <= bw <= 4 * FIT_RANGE ->
  Num.le (Fin kq) (Num.fdiv (Fin n) (Fin bw)) = true ->
  0 < n /\ kq * bw <= n + (1 # 9007199254740992) * n + (1 # 9007199254740992).
Proof.
  intros [K0 K8] [B0 BR] H.
  destruct NumFacts.eta64_small as [E0 E1].
  destruct range_facts as [R1 R2].
  unfold Num.fdiv in H. cbn [Num.div] in H.
  destruct (Qeq_bool bw 0) eqn:Ez.
  - apply Qeq_bool_iff in Ez.
    destruct (Qeq_bool n 0) eqn:En; [discriminate|].
    unfold Num.signedInf in H. destruct (Num.Qltb n 0) eqn:Es; [discriminate|].
    apply NumFacts.Qltb_ge in Es. apply Qeq_bool_neq in En.
    assert (Hn : 0 < n) by (apply Qle_lteq in Es as [L | E]; [exact L | exfalso; apply En; lra]).
    split; [exact Hn|]. rewrite Ez, Qmult_0_r. lra.
  - apply Qeq_bool_neq in Ez. cbn [Num.round] in H.
    assert (Hbw : 0 < bw) by (apply Qle_lteq in B0 as [L | E]; [exact L | exfalso; apply Ez; lra]).
    set (q := n / bw) in *.
    assert (Eq : q * bw == n) by (unfold q; field; lra).
    assert (Hq : 0 < q).
    { destruct (Qlt_le_dec 0 q) as [P | N]; [exact P|]. exfalso.
      pose proof (NumFacts.round64_le q 0 N) as L. rewrite NumFacts.round64_zero in L.
      pose proof (NumFacts.le_trans _ _ _ H L) as C. cbn in C.
      apply Qle_bool_iff in C. lra. }
    assert (Hn : 0 < n) by (rewrite <- Eq; apply Qmult_lt_0_compat; assumption).
    split; [exact Hn|].
    destruct (Qlt_le_dec (Num.pow2 1023) q) as [Big | Small].
    + assert (X : kq * bw <= q * bw).
      { apply Qmult_le_compat_r; [|lra]. lra. }
      assert (0 <= (1 # 9007199254740992) * n) by (apply Qmult_le_0_compat; lra).
      lra.
    + destruct (NumFacts.round64_err_pos q q) as (r & Er & [_ R] & _);
        [split; lra | exact Small|].
      rewrite Er in H. cbn in H. apply Qle_bool_iff in H.
      change Num.eps64 with (1 # 9007199254740992) in R.
      assert (X : kq * bw <= (q + (1 # 9007199254740992) * q + Num.eta64) * bw).
      { apply Qmult_le_compat_r; lra. }
      assert (Y : (q + (1 # 9007199254740992) * q + Num.eta64) * bw
                  == n + (1 # 9007199254740992) * n + Num.eta64 * bw).
      { rewrite <- Eq. ring. }
      pose proof (eta_range bw (conj B0 BR)) as Z.
      lra.
Qed.

Lemma Qabs_bounds (x : Q) : - Qabs x <= x <= Qabs x /\ 0 <= Qabs x.
Proof.
  split; [|apply Qabs_nonneg]. apply Qabs_Qle_condition. apply Qle_refl.
Qed.

(** The extent of the box: finite, not negative, with a relative error. *)
Lemma extent_value (a a' : Q) :
  Qabs a <= FIT_RANGE -> Qabs a' <= FIT_RANGE -> a <= a' ->
  exists bw, Num.fsub (Fin a') (Fin a) = Fin bw
             /\ 0 <= bw <= 4 * FIT_RANGE
             /\ - (Num.eps64 * (a' - a) + Num.eta64) <= bw - (a' - a)
                <= Num.eps64 * (a' - a) + Num.eta64.
Proof.
  intros Ha Ha' Hle.
  destruct (Qabs_bounds a) as [[A1 A2] A0]. destruct (Qabs_bounds a') as [[A1' A2'] A0'].
  destruct range_facts as [R1 R2]. destruct NumFacts.eta64_small as [E0 E1].
  destruct (NumFacts.round64_err_pos (a' + - a) (a' - a)) as (bw & E & [L U] & P);
    [split; lra | lra|].
  exists bw. unfold Num.fsub. cbn [Num.sub Num.add Num.neg Num.round].
  split; [exact E|]. change Num.eps64 with (1 # 9007199254740992) in *.
  split; [split; lra|]. split; lra.
Qed.

(** The scaled extent of the box is at most the extent of the padded
    viewport, up to rounding. *)
Lemma fit_spread (W p a a' bw kq : Q) :
  1 <= W <= FIT_RANGE -> 0 <= p <= 1 # 2 ->
  Qabs a <= FIT_RANGE -> Qabs a' <= FIT_RANGE -> a <= a' ->
  0 < kq <= 8 ->
  Num.fsub (Fin a') (Fin a) = Fin bw ->
  Num.le (Fin kq) (fitFactor (Fin W) (Fin p) (Fin bw)) = true ->
  kq * (a' - a)
  <= W - 2 * (p * W)
     + (1 # 9007199254740992) * (9 * W + 8 * (Qabs a + Qabs a') + 2).
Proof.
  intros [W1 WR] [P0 P1] Ha Ha' Hle [K0 K8] Ebw Hfit.
  destruct (Qabs_bounds a) as [[A1 A2] A0]. destruct (Qabs_bounds a') as [[A1' A2'] A0'].
  destruct range_facts as [R1 R2]. destruct NumFacts.eta64_small as [E0 E1].
  destruct (extent_value a a' Ha Ha' Hle) as (bw' & Ebw' & [B0 BR] & [BL BU]).
  rewrite Ebw in Ebw'. injection Ebw' as <-.
  unfold fitFactor in Hfit.
  (* p * 2 *)
  destruct (NumFacts.fmul_err p 2 1) as (c1 & Ec1 & [C1L C1U]); [split; lra | lra|].
  rewrite Ec1 in Hfit.
  change Num.eps64 with (1 # 9007199254740992) in *.
  (* 1 - p * 2 *)
  destruct (NumFacts.fsub_err 1 c1 2) as (c2 & Ec2 & [C2L C2U]); [split; lra | lra|].
  rewrite Ec2 in Hfit.
  change Num.eps64 with (1 # 9007199254740992) in *.
  (* W * (1 - p * 2) *)
  assert (M1 : W * c2 <= W * (1 - 2 * p + 4 * (1 # 9007199254740992))).
  { apply NumFacts.Qmult_le_l_weak; lra. }
  assert (M2 : W * c2 <= W * 2) by (apply NumFacts.Qmult_le_l_weak; lra).
  assert (M3 : W * (- (2)) <= W * c2) by (apply NumFacts.Qmult_le_l_weak; lra).
  destruct (NumFacts.fmul_err W c2 (2 * W)) as (n & En & [NL NU]); [split; lra | lra|].
  rewrite En in Hfit.
  change Num.eps64 with (1 # 9007199254740992) in *.
  destruct (le_fdiv kq n bw (conj K0 K8) (conj B0 BR) Hfit) as [Hn Hk].
  pose proof (scale8 kq (bw - (a' - a))
                ((1 # 9007199254740992) * (a' - a) + Num.eta64)
                ltac:(split; lra) ltac:(split; lra)) as [S1 S2].
  lra.
Qed.

Lemma half (x : Q) : x / 2 == x * (1 # 2).
Proof. reflexivity. Qed.

(** Along one axis: a point of the box lands in the padded viewport, up
    to the tolerance. *)
Lemma fit_axis (W p a a' x bw kq : Q) :
  1 <= W <= FIT_RANGE -> 0 <= p <= 1 # 2 ->
  Qabs a <= FIT_RANGE -> Qabs a' <= FIT_RANGE -> a <= x <= a' ->
  0 < kq <= 8 ->
  Num.fsub (Fin a') (Fin a) = Fin bw ->
  Num.le (Fin kq) (fitFactor (Fin W) (Fin p) (Fin bw)) = true ->
  withinPadded W p (fitTolerance W a a')
    (Num.fadd (Num.fmul (Fin x) (Fin kq))
       (Num.fsub (Num.fdiv (Fin W) (Fin 2))
          (Num.fdiv (Num.fmul (Fin kq) (Num.fadd (Fin a) (Fin a'))) (Fin 2)))).
Proof.
  intros HW Hp Ha Ha' [X1 X2] HK Ebw Hfit.
  pose proof (fit_spread W p a a' bw kq HW Hp Ha Ha' ltac:(lra) HK Ebw Hfit) as D.
  destruct HW as [W1 WR]. destruct Hp as [P0 P1]. destruct HK as [K0 K8].
  destruct (Qabs_bounds a) as [[A1 A2] A0]. destruct (Qabs_bounds a') as [[A1' A2'] A0'].
  destruct range_facts as [R1 R2]. destruct NumFacts.eta64_small as [E0 E1].
  set (A := Qabs a + Qabs a') in *.
  assert (EA : A == Qabs a + Qabs a') by reflexivity. clearbody A.
  assert (HA : 0 <= A <= 2 * FIT_RANGE) by (split; lra).
  (* minX + maxX *)
  destruct (NumFacts.fadd_err a a' A) as (s & Es & [SL SU]); [split; lra | lra|].
  rewrite Es. change Num.eps64 with (1 # 9007199254740992) in *.
  (* k * (minX + maxX) *)
  pose proof (scale8 kq s (A + (1 # 9007199254740992) * A + Num.eta64)
                ltac:(split; lra) ltac:(split; lra)) as [T1 T2].
  pose proof (scale8 kq (s - (a + a')) ((1 # 9007199254740992) * A + Num.eta64)
                ltac:(split; lra) ltac:(split; lra)) as [T3 T4].
  destruct (NumFacts.fmul_err kq s (9 * A + 1)) as (ks & Eks & [KL KU]);
    [split; lra | lra|].
  rewrite Eks. change Num.eps64 with (1 # 9007199254740992) in *.
  (* ... / 2 *)
  pose proof (half ks) as Hks. set (ks2 := ks / 2) in *.
  destruct (NumFacts.fdiv_err ks 2 (9 * A + 1)) as (h & Eh & [HL HU]);
    [discriminate | fold ks2; split; lra | lra|].
  rewrite Eh. fold ks2 in HL, HU. change Num.eps64 with (1 # 9007199254740992) in *.
  (* width / 2 *)
  pose proof (half W) as HW2. set (W2 := W / 2) in *.
  destruct (NumFacts.fdiv_err W 2 W) as (w2 & Ew2 & [WL WU]);
    [discriminate | fold W2; split; lra | lra|].
  rewrite Ew2. fold W2 in WL, WU. change Num.eps64 with (1 # 9007199254740992) in *.
  (* tx *)
  destruct (NumFacts.fsub_err w2 h (W + 9 * A + 2)) as (t & Et & [TL TU]);
    [split; lra | lra|].
  rewrite Et. change Num.eps64 with (1 # 9007199254740992) in *.
  (* x * k *)
  pose proof (scale8 kq x A ltac:(split; lra) ltac:(split; lra)) as [T5 T6].
  assert (Exk : x * kq == kq * x) by ring.
  destruct (NumFacts.fmul_err x kq (8 * A)) as (P & EP & [PL PU]);
    [split; lra | lra|].
  rewrite EP. change Num.eps64 with (1 # 9007199254740992) in *.
  (* x * k + tx *)
  destruct (NumFacts.fadd_err P t (2 * W + 20 * A + 4)) as (X & EX & [XL XU]);
    [split; lra | lra|].
  rewrite EX. change Num.eps64 with (1 # 9007199254740992) in *.
  assert (N1 : 0 <= kq * (x - a)) by (apply Qmult_le_0_compat; lra).
  assert (N2 : 0 <= kq * (a' - x)) by (apply Qmult_le_0_compat; lra).
  exists X. split; [reflexivity|].
  unfold fitTolerance. change (Num.pow2 (-48)) with (1 # 281474976710656).
  split; lra.
Qed.

(** *** The bounding box of pixels in range *)

Lemma extend_unset (x y : Q) :
  extendBounds noBounds (Fin x, Fin y) = mkBounds (Fin x) (Fin x) (Fin y) (Fin y).
Proof. reflexivity. Qed.

Lemma inRange_abs (q : Q) : inRange q <-> Qabs q <= FIT_RANGE.
Proof. unfold inRange. symmetry. apply Qabs_Qle_condition. Qed.

Lemma extend_boxed (ps : list Pixel) (b : Bounds) (a a' c c' x y : Q) :
  boundsAre ps b a a' c c' ->
  inRange a -> inRange a' -> inRange c -> inRange c' -> inRange x -> inRange y ->
  exists e e' f f',
    boundsAre (ps ++ [(Fin x, Fin y)]) (extendBounds b (Fin x, Fin y)) e e' f f'
    /\ inRange e /\ inRange e' /\ inRange f /\ inRange f'.
Proof.
  intros (-> & Ha & Hc & Hall) Ra Ra' Rc Rc' Rx Ry.
  exists (if Num.Qltb x a then x else a), (if Num.Qltb a' x then x else a'),
         (if Num.Qltb y c then y else c), (if Num.Qltb c' y then y else c').
  unfold boundsAre, extendBounds. cbn [minX maxX minY maxY Num.lt Num.gt].
  destruct (Num.Qltb x a) eqn:E1; destruct (Num.Qltb a' x) eqn:E2;
  destruct (Num.Qltb y c) eqn:E3; destruct (Num.Qltb c' y) eqn:E4;
  rewrite ?NumFacts.Qltb_lt, ?NumFacts.Qltb_ge in *;
  (split; [|unfold inRange in *; repeat split; lra]);
  (split; [reflexivity|]); (split; [lra|]); (split; [lra|]);
  (apply Forall_app; split;
   [ revert Hall; apply Forall_impl; intros p (u & v & -> & Hu & Hv);
     exists u, v; repeat split; lra
   | constructor; [|constructor]; exists x, y; repeat split; lra ]).
Qed.

Lemma boundsOf_range (ps : list Pixel) :
  ps <> [] -> Forall inFitRange ps ->
  exists a a' c c',
    boundsAre ps (boundsOf ps) a a' c c'
    /\ inRange a /\ inRange a' /\ inRange c /\ inRange c'.
Proof.
  induction ps as [|p ps IH] using rev_ind; [congruence|].
  intros _ Hfin. apply Forall_app in Hfin as [Hps Hp].
  inversion_clear Hp as [|? ? (x & y & -> & Hx & Hy) _].
  apply inRange_abs in Hx, Hy.
  rewrite boundsOf_snoc.
  destruct ps as [|q ps'].
  - exists x, x, y, y. cbn [app]. unfold boundsOf. cbn [fold_left].
    rewrite extend_unset. split; [|unfold inRange in *; repeat split; lra].
    unfold boundsAre. split; [reflexivity|].
    split; [lra|]. split; [lra|]. constructor; [|constructor].
    exists x, y. repeat split; lra.
  - destruct (IH ltac:(discriminate) Hps) as (a & a' & c & c' & HB & Ra & Ra' & Rc & Rc').
    eapply extend_boxed; eassumption.
Qed.

(** *** The scale *)

Lemma MIN_FIT_ZOOM_value :
  exists mq, MIN_FIT_ZOOM = Fin mq /\ 1 # 8 <= mq <= 1 # 4.
Proof. eexists. split; [vm_compute; reflexivity|]. split; apply Qle_bool_iff; reflexivity. Qed.

(** The fit factor of a box in range is a number that is not negative. *)
Lemma fitFactor_nonneg (W p bw : Q) :
  1 <= W <= FIT_RANGE -> 0 <= p <= (1 # 2) - Num.pow2 (-54) -> 0 <= bw ->
  Num.nonneg (fitFactor (Fin W) (Fin p) (Fin bw)).
Proof.
  intros [W1 WR] [P0 P1] B0.
  destruct range_facts as [R1 R2]. destruct NumFacts.eta64_small as [E0 E1].
  change (Num.pow2 (-54)) with (1 # 18014398509481984) in P1.
  unfold fitFactor.
  destruct (NumFacts.fmul_err p 2 1) as (c1 & Ec1 & _); [split; lra | lra|].
  rewrite Ec1. unfold Num.fmul in Ec1. cbn [Num.mul Num.round] in Ec1.
  assert (T1 : Num.round64 (1 - (1 # 9007199254740992))
               = Fin (1 - (1 # 9007199254740992))) by (vm_compute; reflexivity).
  assert (C1 : c1 <= 1 - (1 # 9007199254740992)).
  { apply (NumFacts.round64_mono_fin (p * 2) (1 - (1 # 9007199254740992)));
      try assumption. lra. }
  assert (C0 : 0 <= c1).
  { apply (NumFacts.round64_mono_fin 0 (p * 2)); try assumption; [lra | reflexivity]. }
  destruct (NumFacts.fsub_err 1 c1 2) as (c2 & Ec2 & _); [split; lra | lra|].
  rewrite Ec2. unfold Num.fsub in Ec2. cbn [Num.sub Num.add Num.neg Num.round] in Ec2.
  assert (T2 : Num.round64 (1 # 9007199254740992) = Fin (1 # 9007199254740992))
    by (vm_compute; reflexivity).
  assert (T3 : Num.round64 1 = Fin 1) by (vm_compute; reflexivity).
  assert (C2 : (1 # 9007199254740992) <= c2).
  { apply (NumFacts.round64_mono_fin (1 # 9007199254740992) (1 + - c1));
      try assumption. lra. }
  assert (C2' : c2 <= 1).
  { apply (NumFacts.round64_mono_fin (1 + - c1) 1); try assumption. lra. }
  assert (M1 : 1 * c2 <= W * c2) by (apply Qmult_le_compat_r; lra).
  assert (M2 : W * c2 <= W * 1) by (apply NumFacts.Qmult_le_l_weak; lra).
  destruct (NumFacts.fmul_err W c2 W) as (n & En & _); [split; lra | lra|].
  rewrite En. unfold Num.fmul in En. cbn [Num.mul Num.round] in En.
  assert (Hn : (1 # 9007199254740992) <= n).
  { apply (NumFacts.round64_mono_fin (1 # 9007199254740992) (W * c2));
      try assumption. lra. }
  unfold Num.fdiv. cbn [Num.div].
  destruct (Qeq_bool bw 0) eqn:Ez.
  - destruct (Qeq_bool n 0) eqn:En0; [apply Qeq_bool_iff in En0; lra|].
    unfold Num.signedInf. destruct (Num.Qltb n 0) eqn:Es;
      [apply NumFacts.Qltb_lt in Es; lra|]. left. reflexivity.
  - apply Qeq_bool_neq in Ez. cbn [Num.round]. apply NumFacts.round64_nonneg.
    apply Qle_shift_div_l; [|lra].
    apply Qle_lteq in B0 as [L | E]; [exact L | exfalso; apply Ez; lra].
Qed.

Lemma min_nonneg (a b : number) :
  Num.nonneg a -> Num.nonneg b -> Num.nonneg (Num.min a b).
Proof.
  intros [-> | (x & -> & Hx)] [-> | (y & -> & Hy)]; cbn.
  - left. reflexivity.
  - right. exists y. auto.
  - right. exists x. auto.
  - destruct (Num.Qltb y x); right; eauto.
Qed.

Lemma clampZoom_range (k0 : number) :
  Num.nonneg k0 ->
  exists kq, clampZoom k0 = Fin kq
             /\ Num.le MIN_FIT_ZOOM (Fin kq) = true
             /\ Num.le (Fin kq) MAX_FIT_ZOOM = true.
Proof.
  destruct MIN_FIT_ZOOM_value as (mq & Em & M1 & M2).
  intros Hk. unfold clampZoom, MAX_FIT_ZOOM. rewrite Em.
  destruct Hk as [-> | (x & -> & Hx)]; cbn [Num.gt Num.lt Num.le].
  - destruct (Num.Qltb 8 mq) eqn:E; [apply NumFacts.Qltb_lt in E; lra|].
    exists 8. split; [reflexivity|]. rewrite !Qle_bool_iff. split; lra.
  - destruct (Num.Qltb 8 x) eqn:E1; cbn [Num.lt].
    + destruct (Num.Qltb 8 mq) eqn:E; [apply NumFacts.Qltb_lt in E; lra|].
      exists 8. split; [reflexivity|]. rewrite !Qle_bool_iff. split; lra.
    + apply NumFacts.Qltb_ge in E1. destruct (Num.Qltb x mq) eqn:E2.
      * exists mq. split; [reflexivity|]. rewrite !Qle_bool_iff. split; lra.
      * apply NumFacts.Qltb_ge in E2. exists x. split; [reflexivity|].
        rewrite !Qle_bool_iff. split; lra.
Qed.

(** When the minimum zoom does not raise it, the scale is at most the
    factor it was made from. *)
Lemma clampZoom_below (k0 : number) :
  Num.le MIN_FIT_ZOOM k0 = true ->
  exists kq, clampZoom k0 = Fin kq /\ 0 < kq <= 8
             /\ Num.le (Fin kq) k0 = true.
Proof.
  destruct MIN_FIT_ZOOM_value as (mq & Em & M1 & M2).
  unfold clampZoom, MAX_FIT_ZOOM. rewrite Em. intros H.
  destruct k0 as [| | |x]; cbn [Num.le] in H; try discriminate;
    cbn [Num.gt Num.lt].
  - destruct (Num.Qltb 8 mq) eqn:E; [apply NumFacts.Qltb_lt in E; lra|].
    exists 8. split; [reflexivity|]. split; [lra | reflexivity].
  - apply Qle_bool_iff in H. destruct (Num.Qltb 8 x) eqn:E1; cbn [Num.lt].
    + apply NumFacts.Qltb_lt in E1.
      destruct (Num.Qltb 8 mq) eqn:E; [apply NumFacts.Qltb_lt in E; lra|].
      exists 8. split; [reflexivity|]. split; [lra|]. cbn. apply Qle_bool_iff. lra.
    + apply NumFacts.Qltb_ge in E1. destruct (Num.Qltb x mq) eqn:E2.
      * apply NumFacts.Qltb_lt in E2. exfalso. lra.
      * exists x. split; [reflexivity|]. split; [lra|]. cbn. apply Qle_bool_iff. lra.
Qed.

Lemma le_min (kq : Q) (a b : number) :
  Num.le (Fin kq) (Num.min a b) = true ->
  Num.le (Fin kq) a = true /\ Num.le (Fin kq) b = true.
Proof.
  destruct a as [| | |x], b as [| | |y]; cbn; try discriminate; auto.
  destruct (Num.Qltb y x) eqn:E; cbn; rewrite !Qle_bool_iff; intros H.
  - apply NumFacts.Qltb_lt in E. split; lra.
  - apply NumFacts.Qltb_ge in E. split; lra.
Qed.

(** C6, amended: for two or more points whose projections are finite (of
    magnitude at most [FIT_RANGE]) and whose bounding box is not a single
    point, on a viewport of at least one pixel each way with a padding
    fraction that is a binary64 number in [0, 1/2), the scale factor of
    [fitBounds] is the minimum of the horizontal and vertical fit factors
    clamped to [MIN_FIT_ZOOM, MAX_FIT_ZOOM] = [0.2, 8]; it lies between
    the two; and when that minimum is not below the minimum zoom, every
    projected point is carried by the transform into the viewport shrunk
    by the padding fraction, up to the rounding of the binary64
    operations: along each axis at most [fitTolerance], that is [2^-48]
    times one pixel plus the extent of the viewport plus eight times the
    magnitudes of the two ends of the bounding box.  (When the minimum
    clamp raises the scale, the points need not fit; and without the
    tolerance the containment fails by an ulp.) *)
Theorem fitBounds_clamped_fit
    (projection : Coordinate -> Pixel) (W H p : Q)
    (coordinates : list Coordinate) (current : ViewportTransform) :
  let refs := mkRefs true (Some (Fin W, Fin H)) true (Some projection) in
  let b := boundsOf (map projection coordinates) in
  let scaleX := fitFactor (Fin W) (Fin p) (Num.fsub (maxX b) (minX b)) in
  let scaleY := fitFactor (Fin H) (Fin p) (Num.fsub (maxY b) (minY b)) in
  let t := fitBounds refs coordinates (Fin p) current in
  1 <= W <= FIT_RANGE -> 1 <= H <= FIT_RANGE ->
  0 <= p <= (1 # 2) - Num.pow2 (-54) ->
  (2 <= List.length coordinates)%nat ->
  Forall (fun c => inFitRange (projection c)) coordinates ->
  singlePoint b = false ->
  k t = clampZoom (Num.min scaleX scaleY)
  /\ Num.le MIN_FIT_ZOOM (k t) = true
  /\ Num.le (k t) MAX_FIT_ZOOM = true
  /\ (Num.le MIN_FIT_ZOOM (Num.min scaleX scaleY) = true ->
      exists a a' c c',
        boundsAre (map projection coordinates) b a a' c c'
        /\ Forall (fun cd =>
                     let q := applyTransform t (projection cd) in
                     withinPadded W p (fitTolerance W a a') (fst q)
                     /\ withinPadded H p (fitTolerance H c c') (snd q))
                  coordinates).
Proof.
  intros refs b scaleX scaleY t HW HH Hp Hlen Hfin Hns.
  destruct range_facts as [R1 R2].
  assert (Hp' : 0 <= p <= 1 # 2).
  { change (Num.pow2 (-54)) with (1 # 18014398509481984) in Hp. lra. }
  destruct coordinates as [|c0 cs]; [cbn in Hlen; lia|].
  destruct (boundsOf_range (map projection (c0 :: cs)))
    as (a & a' & c & c' & HB & Ra & Ra' & Rc & Rc');
    [discriminate | apply Forall_map; exact Hfin |].
  pose proof HB as (Eb & Ha & Hc & Hall). fold b in Eb, HB.
  assert (Et : t = fitBounds refs (c0 :: cs) (Fin p) current) by reflexivity.
  unfold fitBounds in Et.
  cbn [svgRef containerRef zoomBehaviorRef projectionRef refs] in Et.
  fold b in Et. cbv zeta in Et.
  unfold singlePoint in Hns. rewrite Hns in Et.
  subst scaleX scaleY. fold (fitFactor (Fin W) (Fin p)) in Et.
  assert (Em : Num.seq (minX b) PosInf = false) by (rewrite Eb; reflexivity).
  rewrite Em in Et. clear Em Hns.
  unfold inRange in Ra, Ra', Rc, Rc'.
  destruct (NumFacts.fsub_err a' a (2 * FIT_RANGE)) as (bw & Ebw & _);
    [split; lra | lra |].
  destruct (NumFacts.fsub_err c' c (2 * FIT_RANGE)) as (bh & Ebh & _);
    [split; lra | lra |].
  assert (T0 : Num.round64 0 = Fin 0) by reflexivity.
  assert (Hbw : 0 <= bw).
  { apply (NumFacts.round64_mono_fin 0 (a' + - a)); [lra | exact T0 | exact Ebw]. }
  assert (Hbh : 0 <= bh).
  { apply (NumFacts.round64_mono_fin 0 (c' + - c)); [lra | exact T0 | exact Ebh]. }
  rewrite Eb in Et |- *. cbn [minX maxX minY maxY] in Et |- *.
  rewrite Ebw, Ebh in Et |- *.
  set (k0 := Num.min (fitFactor (Fin W) (Fin p) (Fin bw))
                     (fitFactor (Fin H) (Fin p) (Fin bh))) in *.
  assert (Hk0 : Num.nonneg k0).
  { apply min_nonneg; apply fitFactor_nonneg; assumption. }
  rewrite Et. cbn [k]. split; [reflexivity|].
  destruct (clampZoom_range k0 Hk0) as (kr & Ekr & L1 & L2).
  split; [rewrite Ekr; exact L1|]. split; [rewrite Ekr; exact L2|].
  intros Hmin.
  destruct (clampZoom_below k0 Hmin) as (kq & Ekq & Hkq & Hle).
  apply le_min in Hle as [HleX HleY].
  exists a, a', c, c'. split; [rewrite <- Eb; exact HB|].
  rewrite Ekq.
  rewrite Forall_map in Hall. rewrite Forall_forall in Hall |- *.
  intros cd Hin. destruct (Hall cd Hin) as (x & y & Epx & Hx & Hy).
  rewrite Epx. unfold applyTransform. cbn [fst snd k tx ty].
  split.
  - apply (fit_axis W p a a' x bw kq); try assumption;
      solve [apply Qabs_Qle_condition; assumption | lra].
  - apply (fit_axis H p c c' y bh kq); try assumption;
      solve [apply Qabs_Qle_condition; assumption | lra].
Qed.

(** C6, as stated, fails.  First: two points far apart, with a bounding
    box of non-zero width and height; the fit factors are below the
    minimum zoom, the scale is raised to it, and the first point is carried
    to x = 325, left of the viewport shrunk by the padding (350 to 650).
    Second: two points whose fit is not clamped; the binary64 rounding of
    [1 - 0.35 * 2] and of the translation carries the second point to
    x = 650.0000000000001, right of the shrunk viewport, whether the
    padding fraction is taken as 0.35 or as the binary64 number the code
    holds. *)
Lemma min_zoom_breaks_padding_counterexample :
  let t := fitBounds Sample.refs Sample.farApart DEFAULT_PADDING zoomIdentity in
  let b := boundsOf (map Sample.linearProjection Sample.farApart) in
  let t' := fitBounds Sample.refs Sample.roundedPair DEFAULT_PADDING zoomIdentity in
  let b' := boundsOf (map Sample.linearProjection Sample.roundedPair) in
  let stored := 3152519739159347 # 9007199254740992 in
  DEFAULT_PADDING = Fin stored
  /\ ((2 <= List.length Sample.farApart)%nat
      /\ map Sample.linearProjection Sample.farApart
         = [(Fin (-795), Fin 1130); (Fin 955, Fin 80)]
      /\ singlePoint b = false
      /\ Num.lt (Num.min (fitFactor (Fin 1000) DEFAULT_PADDING
                            (Num.fsub (maxX b) (minX b)))
                         (fitFactor (Fin 1000) DEFAULT_PADDING
                            (Num.fsub (maxY b) (minY b))))
                MIN_FIT_ZOOM = true
      /\ k t = MIN_FIT_ZOOM
      /\ applyTransform t (Sample.linearProjection (Fin 100, Fin 20))
         = (Fin 325, Fin 605)
      /\ ~ insidePadded 1000 1000 (35 # 100) (Fin 325, Fin 605)
      /\ ~ insidePadded 1000 1000 stored (Fin 325, Fin 605))
  /\ ((2 <= List.length Sample.roundedPair)%nat
      /\ map Sample.linearProjection Sample.roundedPair
         = [(Fin 465, Fin 885); (Fin 745, Fin 640)]
      /\ singlePoint b' = false
      /\ Num.le MIN_FIT_ZOOM
                (Num.min (fitFactor (Fin 1000) DEFAULT_PADDING
                            (Num.fsub (maxX b') (minX b')))
                         (fitFactor (Fin 1000) DEFAULT_PADDING
                            (Num.fsub (maxY b') (minY b')))) = true
      /\ k t' = Fin (2412642657519909 # 2251799813685248)
      /\ applyTransform t' (Sample.linearProjection (Fin 144, Fin 34))
         = (Fin (5717460464435201 # 8796093022208),
            Fin (3243559301939199 # 8796093022208))
      /\ ~ insidePadded 1000 1000 (35 # 100)
             (Fin (5717460464435201 # 8796093022208),
              Fin (3243559301939199 # 8796093022208))
      /\ ~ insidePadded 1000 1000 stored
             (Fin (5717460464435201 # 8796093022208),
              Fin (3243559301939199 # 8796093022208))).
Proof.
  cbv zeta. split; [vm_compute; reflexivity|]. split.
  - split; [cbn; lia|]. do 5 (split; [vm_compute; reflexivity|]).
    split; intros [(q & E & L1 & L2) _]; cbn [fst] in E; injection E as <-;
      apply Qle_bool_iff in L1; vm_compute in L1; discriminate.
  - split; [cbn; lia|]. do 5 (split; [vm_compute; reflexivity|]).
    split; intros [(q & E & L1 & L2) _]; cbn [fst] in E; injection E as <-;
      apply Qle_bool_iff in L2; vm_compute in L2; discriminate.
Qed.

Lemma fitBounds_clamped_fit_witness :
  let t := fitBounds Sample.refs Sample.closePair DEFAULT_PADDING zoomIdentity in
  let b := boundsOf (map Sample.linearProjection Sample.closePair) in
  let stored := 3152519739159347 # 9007199254740992 in
  k t = MAX_FIT_ZOOM
  /\ exists a a' c c',
       boundsAre (map Sample.linearProjection Sample.closePair) b a a' c c'
       /\ Forall (fun cd =>
                    let q := applyTransform t (Sample.linearProjection cd) in
                    withinPadded 1000 stored (fitTolerance 1000 a a') (fst q)
                    /\ withinPadded 1000 stored (fitTolerance 1000 c c') (snd q))
                 Sample.closePair.
Proof.
  cbv zeta.
  destruct (fitBounds_clamped_fit Sample.linearProjection 1000 1000
              (3152519739159347 # 9007199254740992)
              Sample.closePair zoomIdentity) as (Hk & _ & _ & Hin).
  - split; apply Qle_bool_iff; vm_compute; reflexivity.
  - split; apply Qle_bool_iff; vm_compute; reflexivity.
  - split; apply Qle_bool_iff; vm_compute; reflexivity.
  - cbn; lia.
  - repeat constructor;
      (eexists; eexists; split; [vm_compute; reflexivity|];
       split; apply Qle_bool_iff; vm_compute; reflexivity).
  - vm_compute; reflexivity.
  - split.
    + etransitivity; [exact Hk | vm_compute; reflexivity].
    + apply Hin. vm_compute. reflexivity.
Defined.

(* ------------------------------------------------------------------ *)
(** ** More on the feeds and the reconciliation *)

(** X1: handling a message, whatever its payload, leaves both connection
    statuses, both sockets and the pending reconnections as they were; a
    message of the report feed leaves the live early-warning state as it
    was, and a message of the early-warning feed leaves the live report as
    it was; a report whose code is not 551, and an early-warning message
    tagged otherwise than [jma_eew], change nothing at all. *)
Theorem message_touches_only_its_store
    (payload : Type)
    (parseP2P : payload -> Feed.parsed Feed.P2PQuakeData)
    (parseWolfx : payload -> Feed.parsed Feed.WolfxMessage)
    (f : Feed.FeedId) (now : Z) (ev : payload) (st : Feed.AppState) :
  let after := Feed.stateOf (Feed.onmessage parseP2P parseWolfx f now ev st) in
  Feed.p2pStatus after = Feed.p2pStatus st
  /\ Feed.wolfxStatus after = Feed.wolfxStatus st
  /\ Feed.p2pWs after = Feed.p2pWs st
  /\ Feed.wolfxWs after = Feed.wolfxWs st
  /\ Feed.timers after = Feed.timers st
  /\ (f = Feed.P2P -> Feed.liveEEW after = Feed.liveEEW st)
  /\ (f = Feed.Wolfx -> Feed.liveQuake after = Feed.liveQuake st)
  /\ (forall data, f = Feed.P2P -> parseP2P ev = Feed.Value data ->
      Feed.code data <> 551%Z -> after = st)
  /\ (forall m, f = Feed.Wolfx -> parseWolfx ev = Feed.Value m ->
      Feed.tagIs (Feed.tagType m) Feed.jma_eew = false ->
      Feed.tagIs (Feed.tagtype m) Feed.jma_eew = false -> after = st).
Proof.
  intros after. subst after. destruct f; cbn [Feed.onmessage].
  - unfold Feed.onmessageP2P.
    destruct (parseP2P ev) as [| |data] eqn:E; cbn [Feed.stateOf].
    1,2: repeat split; try reflexivity; try discriminate.
    destruct (Z.eqb_spec (Feed.code data) 551) as [Hc|Hc]; cbn [Feed.stateOf].
    + repeat split; try reflexivity; try discriminate.
      intros d _ Hd Hne. inversion Hd; subst d. contradiction.
    + repeat split; try reflexivity; try discriminate.
  - unfold Feed.onmessageWolfx.
    destruct (parseWolfx ev) as [| |m] eqn:E; cbn [Feed.stateOf].
    1,2: repeat split; try reflexivity; try discriminate.
    destruct (Feed.tagIs (Feed.tagType m) Feed.jma_eew
              || Feed.tagIs (Feed.tagtype m) Feed.jma_eew) eqn:T; cbn [Feed.stateOf].
    + repeat split; try reflexivity; try discriminate.
      intros m' _ Hm H1 H2. inversion Hm; subst m'. rewrite H1, H2 in T.
      discriminate.
    + repeat split; try reflexivity; try discriminate.
Qed.

(** X2: a non-cancel frame opens a fresh inactivity window for the
    interval installed for the state it sets: a firing of that interval's
    callback (which reads the state it captured and updates the current
    one) no more than 20000 ms after the frame was handled leaves the
    current state, whatever it is, as it was; so the check made once the
    effect has re-run leaves the state exactly as the frame set it, and
    active.  An interval installed for an earlier state [old] can still
    fire before the effect re-runs: it leaves the fresh state alone when
    [old] is not stale, and deactivates it when [old] is stale. *)
Theorem frame_opens_fresh_window
    (mode : ViewMode) (arrived now : Z) (data : WolfxEEWData.t)
    (prev cur old : EEWState) :
  let fresh := handleLiveWolfxEEW arrived data prev in
  isCancelFrame data = false ->
  (now - arrived <= 20000)%Z ->
  timeoutTick now fresh cur = cur
  /\ stalenessCheck mode now fresh = fresh
  /\ isActive (stalenessCheck mode now fresh) = true
  /\ (isStale now old = false -> timeoutTick now old fresh = fresh)
  /\ (isStale now old = true ->
      timeoutTick now old fresh = deactivate fresh
      /\ isActive (timeoutTick now old fresh) = false).
Proof.
  intros fresh Hnc Hw.
  destruct (handle_non_cancel arrived data prev Hnc) as (Ha & _ & _ & _ & Hu).
  fold fresh in Ha, Hu.
  assert (S : isStale now fresh = false).
  { unfold isStale. rewrite Hu.
    assert ((20000 <? now - arrived)%Z = false) as -> by (apply Z.ltb_ge; lia).
    apply andb_false_r. }
  assert (E : stalenessCheck mode now fresh = fresh).
  { apply stalenessCheck_unchanged. right. exact S. }
  split; [unfold timeoutTick; rewrite S; reflexivity|].
  split; [exact E|]. split; [rewrite E; exact Ha|].
  unfold timeoutTick. split; intros ->; [reflexivity|].
  split; reflexivity.
Qed.

Lemma frame_opens_fresh_window_witness :
  let fresh := handleLiveWolfxEEW 30000 Sample.updateFrame Sample.finalState in
  let old := handleLiveWolfxEEW 1000 Sample.updateFrame Sample.finalState in
  timeoutTick 31000 fresh old = old
  /\ stalenessCheck live 31000 fresh = fresh
  /\ isActive (stalenessCheck live 31000 fresh) = true
  /\ isStale 31000 old = true
  /\ timeoutTick 31000 old fresh = deactivate fresh
  /\ isActive (timeoutTick 31000 old fresh) = false.
Proof.
  cbv zeta.
  destruct (frame_opens_fresh_window live 30000 31000 Sample.updateFrame
              Sample.finalState
              (handleLiveWolfxEEW 1000 Sample.updateFrame Sample.finalState)
              (handleLiveWolfxEEW 1000 Sample.updateFrame Sample.finalState))
    as (H1 & H2 & H3 & _ & H5); [reflexivity | lia |].
  split; [exact H1|]. split; [exact H2|]. split; [exact H3|].
  split; [reflexivity|]. apply H5. reflexivity.
Defined.

(* ------------------------------------------------------------------ *)
(** ** The USGS conversion *)

Lemma convertMMItoJMA_known (mmi : number) :
  convertMMItoJMA mmi <> JMASeismicIntensity.Unknown.
Proof.
  unfold convertMMItoJMA.
  repeat match goal with |- context [if ?c then _ else _] => destruct c end;
    discriminate.
Qed.

(** X3: the conversion of a USGS intensity is monotone: a larger intensity
    never gets a lower grade; it never gives the unknown grade; and a
    feature gets the unknown grade exactly when it has neither a usable
    [mmi] nor a usable [cdi] (absent, zero or NaN). *)
Theorem convertMMItoJMA_monotone (a b : number) (mmi cdi : option number) :
  (Num.le a b = true ->
   (JMASeismicIntensity.value (convertMMItoJMA a)
    <= JMASeismicIntensity.value (convertMMItoJMA b))%Z)
  /\ convertMMItoJMA a <> JMASeismicIntensity.Unknown
  /\ (usgsScale mmi cdi = JMASeismicIntensity.Unknown
      <-> truthyNumber mmi = false /\ truthyNumber cdi = false).
Proof.
  split; [|split].
  - destruct a as [| | |x], b as [| | |y]; cbn [Num.le]; try discriminate;
      intros H.
    3: { apply Qle_bool_iff in H. unfold convertMMItoJMA. cbn [Num.lt].
         repeat match goal with
                | |- context [if Num.Qltb ?u ?v then _ else _] =>
                    let E := fresh "E" in
                    destruct (Num.Qltb u v) eqn:E;
                    [apply NumFacts.Qltb_lt in E | apply NumFacts.Qltb_ge in E]
                end; cbn; try lia; exfalso; lra. }
    all: unfold convertMMItoJMA; cbn [Num.lt];
      repeat match goal with
             | |- context [if ?c then _ else _] => destruct c
             end; cbn; lia.
  - apply convertMMItoJMA_known.
  - unfold usgsScale. destruct (truthyNumber mmi) eqn:Em.
    + rewrite Em. destruct mmi as [x|]; [|discriminate]. split.
      * intros H. exfalso. exact (convertMMItoJMA_known x H).
      * intros [H _]. discriminate.
    + destruct (truthyNumber cdi) eqn:Ec.
      * rewrite Ec. destruct cdi as [x|]; [|discriminate]. split.
        -- intros H. exfalso. exact (convertMMItoJMA_known x H).
        -- intros [_ H]. discriminate.
      * cbn. split; auto.
Qed.

(* ------------------------------------------------------------------ *)
(** ** Fitting one point, and the report auto-zoom *)

Lemma boundsOf_same_from (ps : list Pixel) (px py : Q) :
  Forall (fun p => p = (Fin px, Fin py)) ps ->
  fold_left extendBounds ps (mkBounds (Fin px) (Fin px) (Fin py) (Fin py))
  = mkBounds (Fin px) (Fin px) (Fin py) (Fin py).
Proof.
  induction ps as [|p ps IH]; intros Hall; cbn [fold_left]; [reflexivity|].
  inversion_clear Hall as [|? ? Hp Hps]. subst p.
  assert (E : extendBounds (mkBounds (Fin px) (Fin px) (Fin py) (Fin py))
                           (Fin px, Fin py)
              = mkBounds (Fin px) (Fin px) (Fin py) (Fin py)).
  { unfold extendBounds. cbn [minX maxX minY maxY Num.lt Num.gt].
    assert (Hx : Num.Qltb px px = false) by (apply NumFacts.Qltb_ge; lra).
    assert (Hy : Num.Qltb py py = false) by (apply NumFacts.Qltb_ge; lra).
    rewrite Hx, Hy. reflexivity. }
  rewrite E. apply IH. exact Hps.
Qed.

(** A box whose two ends are one number has extent zero. *)
Lemma extent_zero (px : Q) : Num.fsub (Fin px) (Fin px) = Fin 0.
Proof.
  unfold Num.fsub. cbn [Num.sub Num.add Num.neg Num.round].
  rewrite (NumFacts.round64_proper (px + - px) 0) by ring. reflexivity.
Qed.

(** Along one axis, a pixel scaled by [kq] and moved by
    [extent / 2 - kq * px] lands at the middle of the viewport, up to the
    rounding of the five operations. *)
Lemma centre_axis (W px kq : Q) :
  0 <= W <= FIT_RANGE -> Qabs px <= FIT_RANGE -> 0 <= kq <= 8 ->
  atCentre W (fitTolerance W px px)
    (Num.fadd (Num.fmul (Fin px) (Fin kq))
       (Num.fsub (Num.fdiv (Fin W) (Fin 2)) (Num.fmul (Fin kq) (Fin px)))).
Proof.
  intros [W0 WR] Hpx [K0 K8].
  destruct (Qabs_bounds px) as [[A1 A2] A0].
  destruct range_facts as [R1 R2]. destruct NumFacts.eta64_small as [E0 E1].
  unfold atCentre, fitTolerance. set (A := Qabs px) in *. clearbody A.
  pose proof (scale8 kq px A ltac:(split; lra) ltac:(split; lra)) as [T1 T2].
  assert (Exk : px * kq == kq * px) by ring.
  (* width / 2 *)
  pose proof (half W) as HW2. set (W2 := W / 2) in *.
  destruct (NumFacts.fdiv_err W 2 W) as (w2 & Ew2 & [WL WU]);
    [discriminate | fold W2; split; lra | lra|].
  rewrite Ew2. fold W2 in WL, WU. change Num.eps64 with (1 # 9007199254740992) in *.
  (* k * px *)
  destruct (NumFacts.fmul_err kq px (8 * A)) as (m & Em & [ML MU]);
    [split; lra | lra|].
  rewrite Em. change Num.eps64 with (1 # 9007199254740992) in *.
  (* tx *)
  destruct (NumFacts.fsub_err w2 m (W + 9 * A + 2)) as (t & Et & [TL TU]);
    [split; lra | lra|].
  rewrite Et. change Num.eps64 with (1 # 9007199254740992) in *.
  (* px * k *)
  destruct (NumFacts.fmul_err px kq (8 * A)) as (P & EP & [PL PU]);
    [split; lra | lra|].
  rewrite EP. change Num.eps64 with (1 # 9007199254740992) in *.
  (* px * k + tx *)
  destruct (NumFacts.fadd_err P t (2 * W + 20 * A + 4)) as (X & EX & [XL XU]);
    [split; lra | lra|].
  rewrite EX. change Num.eps64 with (1 # 9007199254740992) in *.
  exists X. split; [reflexivity|].
  change (Num.pow2 (-48)) with (1 # 281474976710656).
  apply Qabs_Qle_condition. split; lra.
Qed.

(** The transform of a request whose points all project to one pixel. *)
Lemma fitBounds_same_pixel
    (projection : Coordinate -> Pixel) (W H px py : Q) (paddingPercent : number)
    (coordinates : list Coordinate) (current : ViewportTransform) :
  coordinates <> [] ->
  Forall (fun c => projection c = (Fin px, Fin py)) coordinates ->
  fitBounds (mkRefs true (Some (Fin W, Fin H)) true (Some projection))
            coordinates paddingPercent current
  = mkTransform SINGLE_POINT_ZOOM
      (Num.fsub (Num.fdiv (Fin W) (Fin 2)) (Num.fmul SINGLE_POINT_ZOOM (Fin px)))
      (Num.fsub (Num.fdiv (Fin H) (Fin 2)) (Num.fmul SINGLE_POINT_ZOOM (Fin py))).
Proof.
  intros Hne Hall.
  destruct coordinates as [|c0 cs]; [contradiction|].
  unfold fitBounds. cbn [svgRef containerRef zoomBehaviorRef projectionRef].
  assert (Eb : boundsOf (map projection (c0 :: cs))
               = mkBounds (Fin px) (Fin px) (Fin py) (Fin py)).
  { inversion_clear Hall as [|? ? H0 Hcs]. unfold boundsOf. cbn [map fold_left].
    rewrite H0. change (extendBounds noBounds (Fin px, Fin py))
      with (mkBounds (Fin px) (Fin px) (Fin py) (Fin py)).
    apply boundsOf_same_from. apply Forall_map. exact Hcs. }
  cbv zeta. rewrite Eb. cbn [minX maxX minY maxY].
  rewrite !extent_zero. cbn [Num.seq].
  change (Qeq_bool 0 0) with true. cbn [andb]. reflexivity.
Qed.

(** X4: when every point of a request projects to one and the same finite
    pixel (a single point, or one point repeated), [fitBounds] uses the
    fixed zoom 8, whatever the padding fraction, and carries that pixel to
    the centre of the viewport up to the rounding of the binary64
    operations: along each axis, when the extent of the viewport and the
    pixel are within [FIT_RANGE], at most [fitTolerance] away from half
    the extent. *)
Theorem fitBounds_single_point
    (projection : Coordinate -> Pixel) (W H px py : Q) (paddingPercent : number)
    (coordinates : list Coordinate) (current : ViewportTransform) :
  coordinates <> [] ->
  Forall (fun c => projection c = (Fin px, Fin py)) coordinates ->
  let t := fitBounds (mkRefs true (Some (Fin W, Fin H)) true (Some projection))
                     coordinates paddingPercent current in
  k t = SINGLE_POINT_ZOOM
  /\ k t = Fin 8
  /\ (0 <= W <= FIT_RANGE -> Qabs px <= FIT_RANGE ->
      atCentre W (fitTolerance W px px) (fst (applyTransform t (Fin px, Fin py))))
  /\ (0 <= H <= FIT_RANGE -> Qabs py <= FIT_RANGE ->
      atCentre H (fitTolerance H py py) (snd (applyTransform t (Fin px, Fin py)))).
Proof.
  intros Hne Hall t. subst t.
  rewrite (fitBounds_same_pixel projection W H px py) by assumption.
  cbn [k]. split; [reflexivity|]. split; [reflexivity|].
  unfold applyTransform. cbn [fst snd k tx ty]. unfold SINGLE_POINT_ZOOM.
  split; intros HW Hp; apply centre_axis; try assumption; split; lra.
Qed.

Lemma fitBounds_single_point_witness :
  let t := fitBounds Sample.refs [(Fin 140, Fin 36)] DEFAULT_PADDING zoomIdentity in
  k t = Fin 8
  /\ atCentre 1000 (fitTolerance 1000 605 605)
       (fst (applyTransform t (Fin 605, Fin 570)))
  /\ atCentre 1000 (fitTolerance 1000 570 570)
       (snd (applyTransform t (Fin 605, Fin 570))).
Proof.
  cbv zeta.
  destruct (fitBounds_single_point Sample.linearProjection 1000 1000 605 570
              DEFAULT_PADDING [(Fin 140, Fin 36)] zoomIdentity)
    as (_ & Hk & Hx & Hy).
  - discriminate.
  - constructor; [vm_compute; reflexivity | constructor].
  - split; [exact Hk|].
    split; [apply Hx | apply Hy];
      solve [split; apply Qle_bool_iff; vm_compute; reflexivity
            | apply Qle_bool_iff; vm_compute; reflexivity].
Defined.

(** The centring is not exact: a pixel at x = -10.1 on a viewport 1000
    wide is carried to 499.99999999999994. *)
Example single_point_off_centre :
  let projection := fun _ : Coordinate => (Num.ofQ (-101 # 10), Fin 0) in
  let t := fitBounds (mkRefs true (Some (Fin 1000, Fin 1000)) true (Some projection))
                     [(Fin 0, Fin 0)] DEFAULT_PADDING zoomIdentity in
  fst (applyTransform t (projection (Fin 0, Fin 0)))
  = Fin (500 - (1 # 17592186044416)).
Proof. vm_compute. reflexivity. Qed.

(** X5: a report whose only resolved coordinate is its epicentre, with a
    finite projection, is shown at zoom 2 when the epicentre lies outside
    longitudes 120..155 or latitudes 20..50 and at zoom 8 otherwise, and
    centred on that epicentre up to the rounding of the binary64
    operations: along each axis, when the extent of the viewport and the
    pixel are within [FIT_RANGE], at most [fitTolerance] away from half
    the extent. *)
Theorem quakeZoom_single_epicentre
    (G : list (jsstring * (number * number)))
    (projection : Coordinate -> Pixel) (W H px py : Q)
    (q : MapQuake) (eew : EEWState) (current : ViewportTransform) (c : Coordinate) :
  isActive eew = false ->
  quakeCoords G q = [c] ->
  projection c = (Fin px, Fin py) ->
  let t := quakeZoomEffect G (mkRefs true (Some (Fin W, Fin H)) true (Some projection))
                           true (Some q) eew current in
  k t = (if isFarAway [c] then FAR_AWAY_ZOOM else SINGLE_POINT_ZOOM)
  /\ k t = Fin (if isFarAway [c] then 2 else 8)
  /\ (0 <= W <= FIT_RANGE -> Qabs px <= FIT_RANGE ->
      atCentre W (fitTolerance W px px) (fst (applyTransform t (Fin px, Fin py))))
  /\ (0 <= H <= FIT_RANGE -> Qabs py <= FIT_RANGE ->
      atCentre H (fitTolerance H py py) (snd (applyTransform t (Fin px, Fin py)))).
Proof.
  intros Ha Hc Hp t. subst t. unfold quakeZoomEffect.
  rewrite Ha, Hc. cbn [negb orb].
  destruct (isFarAway [c]) eqn:F.
  - cbn [svgRef containerRef zoomBehaviorRef projectionRef].
    cbv zeta. rewrite Hp. cbn [k fst snd].
    split; [reflexivity|]. split; [reflexivity|].
    unfold applyTransform. cbn [fst snd k tx ty]. unfold FAR_AWAY_ZOOM.
    split; intros HW Hq; apply centre_axis; try assumption; split; lra.
  - rewrite (fitBounds_same_pixel projection W H px py);
      [| discriminate | constructor; [exact Hp | constructor]].
    cbn [k]. split; [reflexivity|]. split; [reflexivity|].
    unfold applyTransform. cbn [fst snd k tx ty]. unfold SINGLE_POINT_ZOOM.
    split; intros HW Hq; apply centre_axis; try assumption; split; lra.
Qed.

Lemma quakeZoom_single_epicentre_witness :
  let q := mkMapQuake (Some (mkHypocenter (JsString.lit "Chile") (Fin (-33)) (Fin (-70)))) [] in
  let t := quakeZoomEffect Sample.gazetteer Sample.refs true (Some q) initialEEW
                           zoomIdentity in
  k t = Fin 2
  /\ atCentre 1000 (fitTolerance 1000 (-6745) (-6745))
       (fst (applyTransform t (Fin (-6745), Fin 2985)))
  /\ atCentre 1000 (fitTolerance 1000 2985 2985)
       (snd (applyTransform t (Fin (-6745), Fin 2985))).
Proof.
  cbv zeta.
  destruct (quakeZoom_single_epicentre Sample.gazetteer Sample.linearProjection
              1000 1000 (-6745) 2985
              (mkMapQuake (Some (mkHypocenter (JsString.lit "Chile") (Fin (-33)) (Fin (-70)))) [])
              initialEEW zoomIdentity (Fin (-70), Fin (-33)))
    as (_ & Hk & Hx & Hy).
  - reflexivity.
  - reflexivity.
  - vm_compute. reflexivity.
  - split; [exact Hk|].
    split; [apply Hx | apply Hy];
      solve [split; apply Qle_bool_iff; vm_compute; reflexivity
            | apply Qle_bool_iff; vm_compute; reflexivity].
Defined.

(** X6: the report auto-zoom collects the epicentre and exactly the
    observation points that resolve, by address first and prefecture
    second.  The coordinates of the epicentre are used as given when
    neither is -1; when one is -1 and the name is not empty and resolves,
    the place the name resolves to is used; when one is -1 and the name is
    empty or does not resolve, the epicentre is left out while the points
    are kept; a report without hypocentre has no epicentre.  With auto-zoom
    on, no early warning active and something resolved, the effect is the
    fit of exactly these coordinates with padding 0.35, unless they are a
    single far-away point, which is shown at zoom 2.  With auto-zoom off,
    an early warning active, no report, or nothing resolved, the transform
    stays as it was. *)
Theorem report_zoom_uses_resolved
    (G : list (jsstring * (number * number))) (refs : MapRefs)
    (isAutoZoomEnabled : bool) (q : MapQuake) (eew : EEWState)
    (current : ViewportTransform) :
  (forall c, In c (quakeCoords G q)
             <-> In c (epicentreCoords G q)
                 \/ exists p, In p (points q)
                    /\ (findCoordinate G (addr p) = Some c
                        \/ (findCoordinate G (addr p) = None
                            /\ findCoordinate G (pref p) = Some c)))
  /\ (hypocenter q = None -> epicentreCoords G q = [])
  /\ (forall h, hypocenter q = Some h ->
      Num.seq (longitude h) (Fin (-1)) = false ->
      Num.seq (latitude h) (Fin (-1)) = false ->
      epicentreCoords G q = [(longitude h, latitude h)])
  /\ (forall h c, hypocenter q = Some h ->
      Num.seq (longitude h) (Fin (-1)) = true
      \/ Num.seq (latitude h) (Fin (-1)) = true ->
      JsString.truthy (name h) = true ->
      findCoordinate G (name h) = Some c ->
      epicentreCoords G q = [c])
  /\ (forall h, hypocenter q = Some h ->
      Num.seq (longitude h) (Fin (-1)) = true
      \/ Num.seq (latitude h) (Fin (-1)) = true ->
      JsString.truthy (name h) = false \/ findCoordinate G (name h) = None ->
      epicentreCoords G q = []
      /\ quakeCoords G q
         = flat_map (fun p => match findCoordinate G (addr p) with
                              | Some c => [c]
                              | None => match findCoordinate G (pref p) with
                                        | Some c => [c]
                                        | None => []
                                        end
                              end) (points q))
  /\ (isAutoZoomEnabled = true -> isActive eew = false ->
      quakeCoords G q <> [] -> isFarAway (quakeCoords G q) = false ->
      quakeZoomEffect G refs isAutoZoomEnabled (Some q) eew current
      = fitBounds refs (quakeCoords G q) DEFAULT_PADDING current)
  /\ (isAutoZoomEnabled = true -> isActive eew = false ->
      isFarAway (quakeCoords G q) = true ->
      exists c, quakeCoords G q = [c]
        /\ quakeZoomEffect G refs isAutoZoomEnabled (Some q) eew current
           = match svgRef refs, zoomBehaviorRef refs,
                   projectionRef refs, containerRef refs with
             | true, true, Some projection, Some (width, height) =>
                 mkTransform FAR_AWAY_ZOOM
                   (Num.fsub (Num.fdiv width (Fin 2))
                      (Num.fmul FAR_AWAY_ZOOM (fst (projection c))))
                   (Num.fsub (Num.fdiv height (Fin 2))
                      (Num.fmul FAR_AWAY_ZOOM (snd (projection c))))
             | _, _, _, _ => current
             end)
  /\ (isAutoZoomEnabled = false \/ isActive eew = true \/ quakeCoords G q = [] ->
      quakeZoomEffect G refs isAutoZoomEnabled (Some q) eew current = current)
  /\ quakeZoomEffect G refs isAutoZoomEnabled None eew current = current.
Proof.
  assert (EP : forall p,
             match pointCoordinate G p with Some c => [c] | None => [] end
             = match findCoordinate G (addr p) with
               | Some c => [c]
               | None => match findCoordinate G (pref p) with
                         | Some c => [c]
                         | None => []
                         end
               end).
  { intros p. unfold pointCoordinate.
    destruct (findCoordinate G (addr p)); reflexivity. }
  assert (EK : forall h, hypocenter q = Some h ->
               Num.seq (longitude h) (Fin (-1)) = true
               \/ Num.seq (latitude h) (Fin (-1)) = true ->
               negb (Num.seq (longitude h) (Fin (-1)))
               && negb (Num.seq (latitude h) (Fin (-1))) = false).
  { intros h _ [-> | ->]; [reflexivity | apply andb_false_r]. }
  repeat match goal with |- _ /\ _ => split end.
  - intros c. unfold quakeCoords. rewrite in_app_iff, in_flat_map. split.
    + intros [He | (p & Hp & Hc)]; [left; exact He|].
      right. exists p. split; [exact Hp|]. rewrite EP in Hc.
      destruct (findCoordinate G (addr p)) as [c'|].
      * destruct Hc as [<- | []]. left. reflexivity.
      * destruct (findCoordinate G (pref p)) as [c'|]; [|contradiction].
        destruct Hc as [<- | []]. right. split; reflexivity.
    + intros [He | (p & Hp & Hc)]; [left; exact He|].
      right. exists p. split; [exact Hp|]. rewrite EP.
      destruct Hc as [-> | [-> ->]]; left; reflexivity.
  - intros Hh. unfold epicentreCoords. rewrite Hh. reflexivity.
  - intros h Hh Hlon Hlat. unfold epicentreCoords. rewrite Hh, Hlon, Hlat.
    reflexivity.
  - intros h c Hh Hunknown Hname Hc. unfold epicentreCoords.
    rewrite Hh, (EK h Hh Hunknown), Hname, Hc. reflexivity.
  - intros h Hh Hunknown Hname.
    assert (E : epicentreCoords G q = []).
    { unfold epicentreCoords. rewrite Hh, (EK h Hh Hunknown).
      destruct Hname as [-> | ->]; [reflexivity|].
      destruct (JsString.truthy (name h)); reflexivity. }
    split; [exact E|]. unfold quakeCoords. rewrite E. cbn [app].
    apply flat_map_ext. exact EP.
  - intros -> Ha Hne Hfar. unfold quakeZoomEffect. rewrite Ha. cbn [negb orb].
    cbv zeta. rewrite Hfar.
    destruct (quakeCoords G q); [contradiction | reflexivity].
  - intros -> Ha Hfar. unfold quakeZoomEffect. rewrite Ha. cbn [negb orb].
    cbv zeta. rewrite Hfar.
    destruct (quakeCoords G q) as [|c [|c' l]] eqn:E; try discriminate.
    exists c. split; [reflexivity|].
    destruct (svgRef refs), (zoomBehaviorRef refs), (projectionRef refs),
      (containerRef refs) as [[width height]|]; reflexivity.
  - intros Hskip. unfold quakeZoomEffect.
    destruct Hskip as [-> | [-> | ->]]; [reflexivity | | ].
    + rewrite orb_true_r. reflexivity.
    + destruct (negb isAutoZoomEnabled || isActive eew); reflexivity.
  - reflexivity.
Qed.

(** A report whose epicentre has no coordinates (-1) and a name that
    resolves by prefix, with one station that resolves by prefecture: the
    effect fits the place of the name and the station. *)
Lemma report_zoom_uses_resolved_witness :
  let h := mkHypocenter Sample.wakayamaNorth (Fin (-1)) (Fin (-1)) in
  let p := mkPoint Sample.osaka (JsString.lit "nowhere") 30 in
  let q := mkMapQuake (Some h) [p] in
  epicentreCoords Sample.gazetteer q = [Sample.wakayamaPoint]
  /\ quakeCoords Sample.gazetteer q = [Sample.wakayamaPoint; Sample.osakaPoint]
  /\ quakeZoomEffect Sample.gazetteer Sample.refs true (Some q) initialEEW zoomIdentity
     = fitBounds Sample.refs [Sample.wakayamaPoint; Sample.osakaPoint]
                 DEFAULT_PADDING zoomIdentity.
Proof.
  intros h p q.
  destruct (report_zoom_uses_resolved Sample.gazetteer Sample.refs true q
              initialEEW zoomIdentity)
    as (_ & _ & _ & Hname & _ & Hfit & _).
  split; [apply (Hname h); [reflexivity | left; reflexivity | reflexivity
                           | vm_compute; reflexivity]|].
  split; [vm_compute; reflexivity|].
  rewrite Hfit; [ | reflexivity | reflexivity | vm_compute; discriminate
                | vm_compute; reflexivity ].
  f_equal.
Defined.

(* ------------------------------------------------------------------ *)
(** ** Markers *)

Lemma eqb_refl (a : jsstring) : JsString.eqb a a = true.
Proof. apply JsStringFacts.eqb_eq. reflexivity. Qed.

Lemma eqb_neq (a b : jsstring) : JsString.eqb a b = false <-> a <> b.
Proof.
  destruct (JsString.eqb a b) eqn:E.
  - apply JsStringFacts.eqb_eq in E. split; [discriminate | contradiction].
  - split; [|reflexivity]. intros _ H. apply JsStringFacts.eqb_eq in H. congruence.
Qed.

Lemma mapGet_some (key : jsstring) (m : PlotData) (v : Z) :
  mapGet key m = Some v -> In (key, v) m.
Proof.
  unfold mapGet.
  destruct (find (fun e => JsString.eqb (fst e) key) m) as [[k' v']|] eqn:E;
    [|discriminate].
  cbn. intros H. inversion H; subst v'. apply find_some in E as [Hin Hk].
  apply JsStringFacts.eqb_eq in Hk. cbn in Hk. subst k'. exact Hin.
Qed.

Lemma mapGet_none (key : jsstring) (m : PlotData) :
  mapGet key m = None -> ~ In key (map fst m).
Proof.
  unfold mapGet.
  destruct (find (fun e => JsString.eqb (fst e) key) m) as [e|] eqn:E;
    [discriminate|].
  intros _ Hin. apply in_map_iff in Hin as ([k' v'] & Hk & Hin). cbn in Hk. subst k'.
  pose proof (find_none _ _ E _ Hin) as Hn. cbn in Hn. rewrite eqb_refl in Hn.
  discriminate.
Qed.

Lemma mapSet_keys (key : jsstring) (v : Z) (m : PlotData) :
  map fst (mapSet key v m)
  = if existsb (fun e => JsString.eqb (fst e) key) m
    then map fst m else map fst m ++ [key].
Proof.
  induction m as [|[k' v'] m IH]; cbn [mapSet existsb map fst app]; [reflexivity|].
  destruct (JsString.eqb k' key) eqn:E; cbn [orb map fst].
  - apply JsStringFacts.eqb_eq in E. subst k'. reflexivity.
  - rewrite IH. destruct (existsb _ m); reflexivity.
Qed.

Lemma existsb_key (key : jsstring) (m : PlotData) :
  existsb (fun e => JsString.eqb (fst e) key) m = true <-> In key (map fst m).
Proof.
  rewrite existsb_exists, in_map_iff. split.
  - intros ([k' v'] & Hin & Hk). apply JsStringFacts.eqb_eq in Hk. cbn in Hk.
    subst k'. exists (key, v'). auto.
  - intros ([k' v'] & Hk & Hin). cbn in Hk. subst k'. exists (key, v').
    split; [exact Hin | apply eqb_refl].
Qed.

Lemma mapSet_NoDup (key : jsstring) (v : Z) (m : PlotData) :
  NoDup (map fst m) -> NoDup (map fst (mapSet key v m)).
Proof.
  intros Hnd. rewrite mapSet_keys.
  destruct (existsb _ m) eqn:E; [exact Hnd|].
  apply NoDup_app; [exact Hnd | repeat constructor; intros [] |].
  intros k' Hin [<- | []]. apply existsb_key in Hin. congruence.
Qed.

Lemma mapSet_in (key : jsstring) (v : Z) (m : PlotData) (k' : jsstring) (v' : Z) :
  NoDup (map fst m) ->
  In (k', v') (mapSet key v m) ->
  (k' = key /\ v' = v) \/ (k' <> key /\ In (k', v') m).
Proof.
  induction m as [|[k0 v0] m IH]; cbn [mapSet map fst]; intros Hnd.
  - intros [H | []]. inversion H. left. auto.
  - inversion_clear Hnd as [|? ? Hnotin Hnd'].
    destruct (JsString.eqb k0 key) eqn:E.
    + apply JsStringFacts.eqb_eq in E. subst k0.
      intros [H | H]; [inversion H; left; auto|].
      right. split; [|right; exact H].
      intros ->. apply Hnotin. apply in_map_iff. exists (key, v'). auto.
    + apply eqb_neq in E. intros [H | H].
      * inversion H; subst k' v'. right. split; [exact E | left; reflexivity].
      * destruct (IH Hnd' H) as [L | [N Hin]]; [left; exact L|].
        right. split; [exact N | right; exact Hin].
Qed.

Lemma mapSet_new (key : jsstring) (v : Z) (m : PlotData) :
  In (key, v) (mapSet key v m).
Proof.
  induction m as [|[k0 v0] m IH]; cbn [mapSet]; [left; reflexivity|].
  destruct (JsString.eqb k0 key); [left; reflexivity | right; exact IH].
Qed.

Lemma mapSet_old (key : jsstring) (v : Z) (m : PlotData) (k' : jsstring) (v' : Z) :
  k' <> key -> In (k', v') m -> In (k', v') (mapSet key v m).
Proof.
  intros Hne. induction m as [|[k0 v0] m IH]; cbn [mapSet]; [intros []|].
  intros [H | H].
  - inversion H; subst k0 v0. apply eqb_neq in Hne. rewrite Hne. left. reflexivity.
  - destruct (JsString.eqb k0 key); right; [exact H | exact (IH H)].
Qed.

Lemma in_keys (key : jsstring) (v : Z) (m : PlotData) :
  In (key, v) m -> In key (map fst m).
Proof. intros H. apply in_map_iff. exists (key, v). auto. Qed.

Lemma NoDup_keys_functional (m : PlotData) (key : jsstring) (v v' : Z) :
  NoDup (map fst m) -> In (key, v) m -> In (key, v') m -> v = v'.
Proof.
  induction m as [|[k0 v0] m IH]; cbn [map fst]; intros Hnd; [intros []|].
  inversion_clear Hnd as [|? ? Hnotin Hnd'].
  intros [H | H] [H' | H'].
  - congruence.
  - inversion H; subst k0 v0. exfalso. apply Hnotin. exact (in_keys _ _ _ H').
  - inversion H'; subst k0 v0. exfalso. apply Hnotin. exact (in_keys _ _ _ H).
  - exact (IH Hnd' H H').
Qed.

Section PlotFacts.

Variable G : list (jsstring * (number * number)).

Lemma plotPoint_invariant (seen : list QuakePoint) (m : PlotData) (p : QuakePoint) :
  plotInvariant G seen m -> plotInvariant G (seen ++ [p]) (plotPoint G m p).
Proof.
  intros (Hnd & Hval & Hcov). unfold plotPoint.
  destruct (matchedKey G p) as [key|] eqn:Ek.
  2: { split; [exact Hnd|]. split.
       - intros k0 v Hin. destruct (Hval k0 v Hin) as (Hpos & (p0 & Hp0 & Hm0 & Hs0) & Hmax).
         split; [exact Hpos|]. split.
         + exists p0. rewrite in_app_iff. auto.
         + intros p1 Hp1 Hm1. apply in_app_iff in Hp1 as [Hp1 | [<- | []]];
             [exact (Hmax p1 Hp1 Hm1) | congruence].
       - intros p1 k1 Hp1 Hm1 Hs1. apply in_app_iff in Hp1 as [Hp1 | [<- | []]];
           [exact (Hcov p1 k1 Hp1 Hm1 Hs1) | congruence]. }
  cbv zeta.
  destruct (mapGet key m) as [v|] eqn:Eg.
  - apply mapGet_some in Eg.
    destruct (Hval key v Eg) as (Hpos & (p0 & Hp0 & Hm0 & Hs0) & Hmax).
    assert (Hcur : (v = 0 /\ (if Z.eqb v 0 then -1 else v) = -1
                    \/ (if Z.eqb v 0 then -1 else v) = v)%Z)
      by (destruct (Z.eqb_spec v 0); lia).
    destruct (Z.ltb_spec (if Z.eqb v 0 then -1 else v) (scale p)) as [Hlt | Hge].
    + (* the entry is raised to [scale p] *)
      assert (Hvp : (v <= scale p)%Z) by lia.
      split; [apply mapSet_NoDup; exact Hnd|]. split.
      * intros k0 v0 Hin.
        destruct (mapSet_in key (scale p) m k0 v0 Hnd Hin) as [[-> ->] | [Hne Hin']].
        -- split; [lia|]. split.
           ++ exists p. rewrite in_app_iff. cbn. auto.
           ++ intros p1 Hp1 Hm1. apply in_app_iff in Hp1 as [Hp1 | [<- | []]];
                [|lia]. pose proof (Hmax p1 Hp1 Hm1). lia.
        -- destruct (Hval k0 v0 Hin') as (Hpos0 & (p1 & Hp1 & Hm1 & Hs1) & Hmax0).
           split; [exact Hpos0|]. split.
           ++ exists p1. rewrite in_app_iff. auto.
           ++ intros p2 Hp2 Hm2. apply in_app_iff in Hp2 as [Hp2 | [<- | []]];
                [exact (Hmax0 p2 Hp2 Hm2) | congruence].
      * intros p1 k1 Hp1 Hm1 Hs1.
        destruct (list_eq_dec N.eq_dec k1 key) as [-> | Hne].
        -- exact (in_keys _ _ _ (mapSet_new key (scale p) m)).
        -- apply in_app_iff in Hp1 as [Hp1 | [<- | []]]; [|congruence].
           pose proof (Hcov p1 k1 Hp1 Hm1 Hs1) as Hin.
           apply in_map_iff in Hin as ([k' v'] & Hk & Hin). cbn in Hk. subst k'.
           exact (in_keys _ _ _ (mapSet_old key (scale p) m k1 v' Hne Hin)).
    + (* the entry stays *)
      assert (Hpv : (scale p <= v)%Z) by lia.
      split; [exact Hnd|]. split.
      * intros k0 v0 Hin.
        destruct (Hval k0 v0 Hin) as (Hpos0 & (p1 & Hp1 & Hm1 & Hs1) & Hmax0).
        split; [exact Hpos0|]. split.
        -- exists p1. rewrite in_app_iff. auto.
        -- intros p2 Hp2 Hm2. apply in_app_iff in Hp2 as [Hp2 | [<- | []]];
             [exact (Hmax0 p2 Hp2 Hm2)|].
           assert (k0 = key) by congruence. subst k0.
           rewrite (NoDup_keys_functional m key v0 v Hnd Hin Eg). exact Hpv.
      * intros p1 k1 Hp1 Hm1 Hs1. apply in_app_iff in Hp1 as [Hp1 | [<- | []]];
          [exact (Hcov p1 k1 Hp1 Hm1 Hs1)|].
        assert (k1 = key) by congruence. subst k1. exact (in_keys _ _ _ Eg).
  - pose proof (mapGet_none _ _ Eg) as Hnotin.
    destruct (Z.ltb_spec (-1) (scale p)) as [Hlt | Hge].
    + split; [apply mapSet_NoDup; exact Hnd|]. split.
      * intros k0 v0 Hin.
        destruct (mapSet_in key (scale p) m k0 v0 Hnd Hin) as [[-> ->] | [Hne Hin']].
        -- split; [lia|]. split.
           ++ exists p. rewrite in_app_iff. cbn. auto.
           ++ intros p1 Hp1 Hm1. apply in_app_iff in Hp1 as [Hp1 | [<- | []]];
                [|lia].
              destruct (Z.le_gt_cases (scale p1) (-1)) as [Hs | Hs]; [lia|].
              exfalso. apply Hnotin. apply (Hcov p1 key Hp1 Hm1). lia.
        -- destruct (Hval k0 v0 Hin') as (Hpos0 & (p1 & Hp1 & Hm1 & Hs1) & Hmax0).
           split; [exact Hpos0|]. split.
           ++ exists p1. rewrite in_app_iff. auto.
           ++ intros p2 Hp2 Hm2. apply in_app_iff in Hp2 as [Hp2 | [<- | []]];
                [exact (Hmax0 p2 Hp2 Hm2) | congruence].
      * intros p1 k1 Hp1 Hm1 Hs1.
        destruct (list_eq_dec N.eq_dec k1 key) as [-> | Hne].
        -- exact (in_keys _ _ _ (mapSet_new key (scale p) m)).
        -- apply in_app_iff in Hp1 as [Hp1 | [<- | []]]; [|congruence].
           pose proof (Hcov p1 k1 Hp1 Hm1 Hs1) as Hin.
           apply in_map_iff in Hin as ([k' v'] & Hk & Hin). cbn in Hk. subst k'.
           exact (in_keys _ _ _ (mapSet_old key (scale p) m k1 v' Hne Hin)).
    + split; [exact Hnd|]. split.
      * intros k0 v0 Hin.
        destruct (Hval k0 v0 Hin) as (Hpos0 & (p1 & Hp1 & Hm1 & Hs1) & Hmax0).
        split; [exact Hpos0|]. split.
        -- exists p1. rewrite in_app_iff. auto.
        -- intros p2 Hp2 Hm2. apply in_app_iff in Hp2 as [Hp2 | [<- | []]];
             [exact (Hmax0 p2 Hp2 Hm2)|].
           assert (k0 = key) by congruence. subst k0.
           exfalso. apply Hnotin. exact (in_keys _ _ _ Hin).
      * intros p1 k1 Hp1 Hm1 Hs1. apply in_app_iff in Hp1 as [Hp1 | [<- | []]];
          [exact (Hcov p1 k1 Hp1 Hm1 Hs1) | lia].
Qed.

Lemma plotAll_invariant (ps : list QuakePoint) : plotInvariant G ps (plotAll G ps).
Proof.
  induction ps as [|p ps IH] using rev_ind.
  - split; [constructor|]. split; [intros ? ? [] | intros ? ? []].
  - unfold plotAll. rewrite fold_left_app. cbn [fold_left].
    apply plotPoint_invariant. exact IH.
Qed.

End PlotFacts.

Section MarkerFacts.

Variable G : list (jsstring * (number * number)).
Variable project : Coordinate -> option Pixel.

Lemma stationMarker_inv (key : jsstring) (s : Z) (m : MarkerData) :
  In m (stationMarker G project (key, s)) ->
  id m = pointId key /\ type m = intensity /\ markerScale m = Some s /\ (10 <= s)%Z.
Proof.
  unfold stationMarker. destruct (station G key) as [[lat lon]|]; [|intros []].
  destruct (project (lon, lat)) as [px|]; [|intros []].
  destruct (Z.leb_spec 10 s) as [H|H]; [|intros []].
  intros [<- | []]. cbn. auto.
Qed.

Lemma pointId_inj (a b : jsstring) : pointId a = pointId b -> a = b.
Proof. unfold pointId. apply app_inv_head. Qed.

Lemma stationMarkers_ids (m : PlotData) :
  NoDup (map fst m) -> NoDup (map id (flat_map (stationMarker G project) m)).
Proof.
  induction m as [|[key s] m IH]; cbn [map fst flat_map]; intros Hnd;
    [constructor|].
  inversion_clear Hnd as [|? ? Hnotin Hnd']. rewrite map_app.
  apply NoDup_app; [ | exact (IH Hnd') | ].
  - unfold stationMarker. destruct (station G key) as [[lat lon]|]; [|constructor].
    destruct (project (lon, lat)); [|constructor].
    destruct (10 <=? s)%Z; repeat constructor. intros [].
  - intros i Hi Hi'. apply in_map_iff in Hi as (mk & <- & Hmk).
    apply stationMarker_inv in Hmk as (Hid & _).
    apply in_map_iff in Hi' as (mk' & Heq & Hmk').
    apply in_flat_map in Hmk' as ([key' s'] & Hin & Hmk').
    apply stationMarker_inv in Hmk' as (Hid' & _).
    apply Hnotin. rewrite Hid, Hid' in Heq. apply pointId_inj in Heq. subst key'.
    exact (in_keys _ _ _ Hin).
Qed.

Lemma epicenterAt_inv (c : Coordinate) :
  epicenterAt project c = []
  \/ exists m, epicenterAt project c = [m] /\ id m = epicenterId.
Proof.
  unfold epicenterAt. destruct (project c); [right | left; reflexivity].
  eexists. split; reflexivity.
Qed.

Lemma epicenterMarker_inv (latestQuake : option MapQuake) (eew : EEWState) :
  epicenterMarker G project latestQuake eew = []
  \/ exists m, epicenterMarker G project latestQuake eew = [m] /\ id m = epicenterId.
Proof.
  unfold epicenterMarker.
  destruct (isActive eew && truthyMatch (hypocenterName eew)).
  - destruct (hypocenterName eew) as [hypo|]; [|left; reflexivity]. cbv zeta.
    destruct (truthyMatch _); [|left; reflexivity].
    destruct (find _ _) as [key|]; [|left; reflexivity].
    destruct (station G key) as [[lat lon]|]; [|left; reflexivity].
    apply epicenterAt_inv.
  - destruct latestQuake as [q|]; [|left; reflexivity].
    destruct (hypocenter q) as [h|]; [|left; reflexivity].
    destruct (_ && _); [|left; reflexivity]. apply epicenterAt_inv.
Qed.

(** X7: no two markers of the map share an id; while an early warning is
    active no station is drawn; and each station marker stands for a
    gazetteer key, shows an intensity of at least 10 that some observation
    plotted at that key reports, and no observation plotted there reports
    a larger one. *)
Theorem station_markers_strongest
    (latestQuake : option MapQuake) (eew : EEWState) :
  NoDup (map id (markers G project latestQuake eew))
  /\ (isActive eew = true -> stationMarkers G project latestQuake eew = [])
  /\ (forall q m, latestQuake = Some q ->
      In m (stationMarkers G project latestQuake eew) ->
      exists key s,
        id m = pointId key /\ type m = intensity /\ markerScale m = Some s
        /\ (10 <= s)%Z
        /\ (exists p, In p (points q) /\ matchedKey G p = Some key /\ scale p = s)
        /\ (forall p, In p (points q) -> matchedKey G p = Some key ->
                      (scale p <= s)%Z)).
Proof.
  split; [|split].
  - unfold markers. rewrite map_app. apply NoDup_app.
    + unfold stationMarkers. destruct latestQuake as [q|]; [|constructor].
      destruct (negb (isActive eew)); [|constructor].
      apply stationMarkers_ids. apply (plotAll_invariant G (points q)).
    + destruct (epicenterMarker_inv latestQuake eew) as [-> | (m & -> & _)];
        repeat constructor. intros [].
    + intros i Hi Hi'.
      destruct (epicenterMarker_inv latestQuake eew) as [E | (m & E & Hid)];
        rewrite E in Hi'; [destruct Hi'|]. destruct Hi' as [<- | []].
      apply in_map_iff in Hi as (mk & Heq & Hmk). unfold stationMarkers in Hmk.
      destruct latestQuake as [q|]; [|destruct Hmk].
      destruct (negb (isActive eew)); [|destruct Hmk].
      apply in_flat_map in Hmk as ([key s] & _ & Hmk).
      apply stationMarker_inv in Hmk as (Hid' & _).
      rewrite Hid, Hid' in Heq. discriminate.
  - intros Ha. unfold stationMarkers. rewrite Ha.
    destruct latestQuake; reflexivity.
  - intros q m -> Hm. unfold stationMarkers in Hm.
    destruct (negb (isActive eew)); [|destruct Hm].
    apply in_flat_map in Hm as ([key s] & Hin & Hm).
    apply stationMarker_inv in Hm as (Hid & Hty & Hs & H10).
    destruct (plotAll_invariant G (points q)) as (_ & Hval & _).
    destruct (Hval key s Hin) as (_ & Hex & Hmax).
    exists key, s. auto 10.
Qed.

(** X8: for an active early warning with an epicentre name, over a
    gazetteer with no empty place name and a projection that places every
    point, the epicentre cross is drawn exactly when the wave animation
    has an origin, that is, when [findCoordinate] resolves the name. *)
Theorem epicentre_marker_iff_origin
    (latestQuake : option MapQuake) (eew : EEWState) (hypo : jsstring) :
  ~ In [] (keys G) ->
  (forall c, project c <> None) ->
  isActive eew = true ->
  hypocenterName eew = Some hypo ->
  hypo <> [] ->
  (epicenterMarker G project latestQuake eew <> []
   <-> findCoordinate G hypo <> None).
Proof.
  intros Hkeys Hproj Ha Hn Hne.
  pose proof (findCoordinate_refines G Hkeys hypo) as R.
  pose proof (resolve_none_iff G hypo) as Hnone. rewrite <- R in Hnone.
  unfold epicenterMarker. rewrite Ha, Hn. cbn [andb truthyMatch].
  assert (JsString.truthy hypo = true) as -> by (destruct hypo; [contradiction | reflexivity]).
  cbv zeta.
  destruct (find (fun k => JsString.includes hypo k) (keys G)) as [key|] eqn:E.
  - rewrite (found_is_truthy G Hkeys _ _ E).
    pose proof E as E'. apply find_some in E' as [Hin Hinc].
    destruct (station_of_key G key Hin) as (lat & lon & -> & _).
    unfold epicenterAt. destruct (project (lon, lat)) eqn:P;
      [|exfalso; exact (Hproj _ P)].
    split; [|discriminate]. intros _ Hf. pose proof (proj1 Hnone Hf) as Hf'.
    rewrite (Hf' key Hin) in Hinc. discriminate.
  - cbn [truthyMatch]. split; [congruence|]. intros Hf. exfalso. apply Hf.
    apply (proj2 Hnone). intros key Hin. exact (find_none _ _ E _ Hin).
Qed.

End MarkerFacts.

Lemma epicentre_marker_iff_origin_witness :
  let eew := mkEEWState true false (Some false) (Some Sample.wakayamaNorth)
                        None None None [] None None None in
  epicenterMarker Sample.gazetteer (fun c => Some (Sample.linearProjection c)) None eew <> []
  <-> findCoordinate Sample.gazetteer Sample.wakayamaNorth <> None.
Proof.
  intros eew.
  apply (epicentre_marker_iff_origin Sample.gazetteer
           (fun c => Some (Sample.linearProjection c)) None eew Sample.wakayamaNorth).
  - cbn. intros [H | [H | []]]; discriminate.
  - discriminate.
  - reflexivity.
  - reflexivity.
  - discriminate.
Defined.

(* ------------------------------------------------------------------ *)
(** ** The alarm and the display *)

Module AppFacts.
Import Sound App.

Lemma startAlarm_loop (s : SoundService) : loopInterval (startAlarm s) <> None.
Proof.
  unfold startAlarm. destruct (loopInterval s) eqn:E; [congruence|]. discriminate.
Qed.

Lemma stopAlarm_loop (s : SoundService) : loopInterval (stopAlarm s) = None.
Proof. unfold stopAlarm. destruct (loopInterval s) eqn:E; [reflexivity | exact E]. Qed.

Lemma startAlarm_running (s : SoundService) :
  loopInterval s <> None -> startAlarm s = s.
Proof. unfold startAlarm. destruct (loopInterval s); [reflexivity | contradiction]. Qed.

Lemma stopAlarm_stopped (s : SoundService) :
  loopInterval s = None -> stopAlarm s = s.
Proof. unfold stopAlarm. intros ->. reflexivity. Qed.

Lemma playTone_loop (f : Z) (s : SoundService) :
  loopInterval (playTone f s) = loopInterval s
  /\ intervals (playTone f s) = intervals s
  /\ _enabled (playTone f s) = _enabled s.
Proof. unfold playTone. destruct (_ || _); repeat split. Qed.

Lemma startAlarm_tidy (s : SoundService) : tidy s -> tidy (startAlarm s).
Proof.
  unfold tidy, startAlarm. destruct (loopInterval s) eqn:E; [rewrite E; auto|].
  intros H. cbn [loopInterval intervals]. unfold playPong.
  destruct (playTone_loop 784 s) as (_ & -> & _). rewrite H. reflexivity.
Qed.

Lemma stopAlarm_tidy (s : SoundService) : tidy s -> tidy (stopAlarm s).
Proof.
  unfold tidy, stopAlarm. destruct (loopInterval s) as [h|] eqn:E; [|rewrite E; auto].
  intros ->. cbn. rewrite Nat.eqb_refl. reflexivity.
Qed.

Section WithClock.

Variable getTime : jsstring -> number.

Lemma audioEffect_sound (now : Z) (st : State) :
  isSoundEnabled st = true ->
  exists s,
    soundService (audioEffect getTime now st) = s
    /\ (loopInterval s <> None <-> alarmDue (displayEEW st) = true)
    /\ _enabled s = _enabled (soundService st)
    /\ (tidy (soundService st) -> tidy s).
Proof.
  intros Hon. unfold audioEffect. rewrite Hon. cbn [negb]. cbv zeta.
  fold (alarmDue (displayEEW st)).
  set (s0 := soundService st).
  set (s1 := if alarmDue (displayEEW st) then startAlarm s0 else stopAlarm s0).
  assert (H1 : (loopInterval s1 <> None <-> alarmDue (displayEEW st) = true)
               /\ _enabled s1 = _enabled s0 /\ (tidy s0 -> tidy s1)).
  { subst s1. destruct (alarmDue (displayEEW st)).
    - split; [split; [reflexivity | intros _; apply startAlarm_loop]|].
      split; [|apply startAlarm_tidy].
      unfold startAlarm. destruct (loopInterval s0); [reflexivity|].
      cbn. apply playTone_loop.
    - split; [split; [intros H; exfalso; apply H; apply stopAlarm_loop | discriminate]|].
      split; [|apply stopAlarm_tidy].
      unfold stopAlarm. destruct (loopInterval s0); reflexivity. }
  clearbody s1. subst s0.
  set (s2 := if isActive (displayEEW st) && negb (isActive (prevEEWRef st))
                && negb (isWarning (displayEEW st))
             then play Forecast s1 else s1).
  assert (H2 : loopInterval s2 = loopInterval s1 /\ intervals s2 = intervals s1
               /\ _enabled s2 = _enabled s1).
  { subst s2. destruct (_ && _); repeat split. }
  clearbody s2.
  set (caseB := truthyFlag (isFinal (displayEEW st))
                && negb (truthyFlag (isFinal (prevEEWRef st)))
                && isActive (displayEEW st)).
  set (s3 := if caseB then play Notification (stopAlarm s2) else s2).
  assert (H3 : loopInterval s3 = loopInterval s1 /\ intervals s3 = intervals s1
               /\ _enabled s3 = _enabled s1).
  { subst s3. destruct caseB eqn:B; [|exact H2].
    assert (Hdue : alarmDue (displayEEW st) = false).
    { unfold caseB in B. unfold alarmDue.
      destruct (truthyFlag (isFinal (displayEEW st))); [|discriminate].
      apply andb_false_r. }
    destruct H1 as (H1 & _). destruct H2 as (L2 & I2 & E2).
    assert (L1 : loopInterval s1 = None).
    { destruct (loopInterval s1) eqn:L; [|reflexivity].
      assert (Some n <> None) as X by discriminate. apply H1 in X. congruence. }
    rewrite stopAlarm_stopped by congruence. cbn. auto. }
  clearbody s3.
  assert (H4 : forall s4, s4 = s3 \/ s4 = play QuakeInfo s3 ->
               (loopInterval s4 <> None <-> alarmDue (displayEEW st) = true)
               /\ _enabled s4 = _enabled (soundService st)
               /\ (tidy (soundService st) -> tidy s4)).
  { destruct H3 as (L3 & I3 & E3). destruct H1 as (A & B & C).
    intros s4 [-> | ->]; cbn [play loopInterval _enabled intervals].
    - split; [rewrite L3; exact A|]. split; [rewrite E3; exact B|].
      intros T. specialize (C T). unfold tidy in *. rewrite I3, L3. exact C.
    - split; [rewrite L3; exact A|]. split; [rewrite E3; exact B|].
      intros T. specialize (C T). unfold tidy in *.
      cbn [play loopInterval _enabled intervals]. rewrite I3, L3. exact C. }
  destruct (displayQuake st) as [quake|].
  - destruct (negb (JsString.eqb (Feed._id quake) (prevQuakeIdRef st))).
    + destruct (_ || _); cbn [soundService]; eexists; (split; [reflexivity|]);
        apply H4; auto.
    + cbn [soundService]. eexists. split; [reflexivity|]. apply H4. auto.
  - cbn [soundService]. eexists. split; [reflexivity|]. apply H4. auto.
Qed.

(** X9: with sound on, after the audio effect has run the alarm loops
    exactly when the displayed early warning is active, is a warning and is
    not final. *)
Theorem alarm_follows_warning (now : Z) (st : State) :
  isSoundEnabled st = true ->
  (loopInterval (soundService (audioEffect getTime now st)) <> None
   <-> isActive (displayEEW st) = true
       /\ isWarning (displayEEW st) = true
       /\ isFinal (displayEEW st) <> Some true).
Proof.
  intros Hon. destruct (audioEffect_sound now st Hon) as (s & -> & Hs & _).
  rewrite Hs. unfold alarmDue. rewrite !andb_true_iff, negb_true_iff.
  unfold truthyFlag. destruct (isFinal (displayEEW st)) as [[|]|];
    intuition congruence.
Qed.


Lemma audioEffect_frame (now : Z) (st : State) :
  liveQuake (audioEffect getTime now st) = liveQuake st
  /\ liveEEW (audioEffect getTime now st) = liveEEW st
  /\ displayQuake (audioEffect getTime now st) = displayQuake st
  /\ displayEEW (audioEffect getTime now st) = displayEEW st
  /\ mode (audioEffect getTime now st) = mode st
  /\ isSoundEnabled (audioEffect getTime now st) = isSoundEnabled st
  /\ simulationTimers (audioEffect getTime now st) = simulationTimers st.
Proof.
  unfold audioEffect. destruct (negb (isSoundEnabled st)); [repeat split|].
  cbv zeta. destruct (displayQuake st) as [quake|];
    [destruct (negb (JsString.eqb _ _))|]; repeat split.
Qed.

Lemma alarmInvariant_ext (st st' : State) :
  soundService st' = soundService st ->
  isSoundEnabled st' = isSoundEnabled st ->
  alarmInvariant st -> alarmInvariant st'.
Proof. unfold alarmInvariant. intros -> ->. auto. Qed.

(** A timeout of the simulation writes the display and nothing else but
    its own bookkeeping. *)
Lemma fireTimer_frame (id : nat) (stamp : Z) (iso : jsstring) (st : State) :
  liveQuake (fireTimer id stamp iso st) = liveQuake st
  /\ liveEEW (fireTimer id stamp iso st) = liveEEW st
  /\ mode (fireTimer id stamp iso st) = mode st
  /\ isSoundEnabled (fireTimer id stamp iso st) = isSoundEnabled st
  /\ soundService (fireTimer id stamp iso st) = soundService st
  /\ timerIds (simulationTimers (fireTimer id stamp iso st))
     = timerIds (simulationTimers st)
  /\ (forall e, In e (pending (simulationTimers (fireTimer id stamp iso st))) ->
                In e (pending (simulationTimers st)))
  /\ (find (fun e => Nat.eqb (fst e) id) (pending (simulationTimers st)) = None ->
      fireTimer id stamp iso st = st).
Proof.
  unfold fireTimer. cbv zeta.
  destruct (find _ (pending (simulationTimers st))) as [[h s]|] eqn:F.
  - assert (Hsub : forall e,
              In e (filter (fun e => negb (Nat.eqb (fst e) id))
                           (pending (simulationTimers st))) ->
              In e (pending (simulationTimers st))).
    { intros e He. apply filter_In in He. tauto. }
    destruct s; cbn; repeat split; try assumption; discriminate.
  - repeat split; auto.
Qed.

Lemma handleReturnHome_alarmInvariant (st : State) :
  alarmInvariant st -> alarmInvariant (handleReturnHome st).
Proof.
  intros (Ht & He & Hl). unfold handleReturnHome, alarmInvariant.
  cbn [soundService isSoundEnabled].
  split; [apply stopAlarm_tidy; exact Ht|]. split.
  - unfold stopAlarm. destruct (loopInterval (soundService st)); exact He.
  - rewrite stopAlarm_loop. congruence.
Qed.

Lemma step_keeps_alarmInvariant (st : State) (a : Action) :
  alarmInvariant st -> alarmInvariant (step getTime st a).
Proof.
  intros Hinv. pose proof Hinv as (Ht & He & Hl).
  destruct a as [|now|now captured|data|now data|tid stamp iso| |data|originTime stamp|];
    cbn [step].
  - unfold syncEffect. destruct (ViewMode_eqb _ _); unfold alarmInvariant;
      cbn [soundService isSoundEnabled];
      (split; [exact Ht | split; [exact He | exact Hl]]).
  - destruct (isSoundEnabled st) eqn:Hon.
    + destruct (audioEffect_sound now st Hon) as (s & Es & _ & Hen & Htidy).
      destruct (audioEffect_frame now st) as (_ & _ & _ & _ & _ & Hs & _).
      unfold alarmInvariant. rewrite Es, Hs, Hon. split; [apply Htidy; exact Ht|].
      split; [congruence | auto].
    + unfold audioEffect. rewrite Hon. cbn [negb]. unfold alarmInvariant. rewrite Hon.
      split; [exact Ht | split; [exact He | exact Hl]].
  - destruct (timeoutInstalled live captured); [|exact Hinv].
    apply (alarmInvariant_ext st); [reflexivity | reflexivity | exact Hinv].
  - apply (alarmInvariant_ext st); [reflexivity | reflexivity | exact Hinv].
  - apply (alarmInvariant_ext st); [reflexivity | reflexivity | exact Hinv].
  - destruct (fireTimer_frame tid stamp iso st) as (_ & _ & _ & Hs & Hv & _).
    apply (alarmInvariant_ext st); assumption.
  - apply handleReturnHome_alarmInvariant. exact Hinv.
  - apply (alarmInvariant_ext st); [reflexivity | reflexivity | exact Hinv].
  - apply (alarmInvariant_ext (handleReturnHome st));
      [reflexivity | reflexivity | apply handleReturnHome_alarmInvariant; exact Hinv].
  - unfold toggleSound, alarmInvariant. cbv zeta.
    cbn [soundService isSoundEnabled].
    destruct (isSoundEnabled st) eqn:Hon; cbn [negb].
    + unfold setEnabled. cbn [negb].
      split; [apply stopAlarm_tidy; exact Ht|]. split.
      * unfold stopAlarm. cbn.
        destruct (loopInterval (soundService st)); reflexivity.
      * rewrite stopAlarm_loop. congruence.
    + unfold setEnabled. cbn [negb play intervals loopInterval _enabled].
      split; [exact Ht|]. split; [reflexivity|]. reflexivity.
Qed.

Lemma run_keeps_alarmInvariant (actions : list Action) (st : State) :
  alarmInvariant st -> alarmInvariant (run getTime actions st).
Proof.
  unfold run. revert st.
  induction actions as [|a rest IH]; intros st Hst; cbn [fold_left];
    [exact Hst|].
  apply IH. apply step_keeps_alarmInvariant. exact Hst.
Qed.

(** X10: from the start of the application and through any sequence of
    events, at most one alarm interval is alive, it is the one the service
    remembers, and none is alive while sound is off. *)
Theorem alarm_never_leaks (actions : list Action) (hasContext : bool) :
  alarmInvariant (run getTime actions (initial hasContext))
  /\ (List.length (intervals (soundService (run getTime actions (initial hasContext))))
      <= 1)%nat
  /\ (isSoundEnabled (run getTime actions (initial hasContext)) = false ->
      intervals (soundService (run getTime actions (initial hasContext))) = []).
Proof.
  assert (Hinv : alarmInvariant (run getTime actions (initial hasContext))).
  { apply run_keeps_alarmInvariant. repeat split; cbn; congruence. }
  split; [exact Hinv|]. destruct Hinv as (Ht & _ & Hl). rewrite Ht.
  destruct (loopInterval _) eqn:L.
  - split; [cbn; lia|]. intros Hoff.
    assert (Some n <> None) as X by discriminate. apply Hl in X. congruence.
  - split; [cbn; lia | reflexivity].
Qed.

(** X11: the audio effect replays nothing: run again with nothing changed
    on display, at whatever instant, it leaves the application as the first
    run left it: no second chime, notification, announcement or pong. *)
Theorem audioEffect_idempotent (now later : Z) (st : State) :
  audioEffect getTime later (audioEffect getTime now st)
  = audioEffect getTime now st.
Proof.
  destruct (isSoundEnabled st) eqn:Hon.
  2: { unfold audioEffect at 2. rewrite Hon. cbn [negb].
       unfold audioEffect. rewrite Hon. reflexivity. }
  destruct (audioEffect_sound now st Hon) as (s & Es & Hloop & _).
  set (st1 := audioEffect getTime now st) in *.
  assert (F : displayQuake st1 = displayQuake st /\ displayEEW st1 = displayEEW st
              /\ mode st1 = mode st /\ isSoundEnabled st1 = true
              /\ prevEEWRef st1 = displayEEW st
              /\ (forall quake, displayQuake st = Some quake ->
                  prevQuakeIdRef st1 = Feed._id quake)).
  { subst st1. unfold audioEffect. rewrite Hon. cbn [negb]. cbv zeta.
    destruct (displayQuake st) as [quake|] eqn:Q.
    - destruct (JsString.eqb (Feed._id quake) (prevQuakeIdRef st)) eqn:E;
        cbn [negb]; repeat split; try reflexivity.
      + intros q' Hq. inversion Hq; subst q'. cbn.
        apply JsStringFacts.eqb_eq in E. congruence.
      + intros q' Hq. inversion Hq; subst q'. reflexivity.
    - repeat split. intros q' Hq. discriminate. }
  destruct F as (Fq & Fd & Fm & Fon & Fprev & Fid).
  unfold audioEffect at 1. rewrite Fon. cbn [negb]. cbv zeta.
  rewrite Fd, Fprev, Es.
  fold (alarmDue (displayEEW st)).
  assert (E1 : (if alarmDue (displayEEW st) then startAlarm s else stopAlarm s) = s).
  { destruct (alarmDue (displayEEW st)) eqn:D.
    - apply startAlarm_running. apply Hloop. reflexivity.
    - apply stopAlarm_stopped. destruct (loopInterval s) eqn:L; [|reflexivity].
      assert (Some n <> None) as X by discriminate. apply Hloop in X. congruence. }
  rewrite E1.
  assert (EA : isActive (displayEEW st) && negb (isActive (displayEEW st))
               && negb (isWarning (displayEEW st)) = false)
    by (destruct (isActive (displayEEW st)); reflexivity).
  assert (EB : truthyFlag (isFinal (displayEEW st))
               && negb (truthyFlag (isFinal (displayEEW st)))
               && isActive (displayEEW st) = false)
    by (destruct (truthyFlag (isFinal (displayEEW st))); reflexivity).
  rewrite EA, EB, Fq.
  destruct (displayQuake st) as [quake|] eqn:Q.
  - rewrite (Fid quake eq_refl).
    assert (JsString.eqb (Feed._id quake) (Feed._id quake) = true) as ->
      by (apply JsStringFacts.eqb_eq; reflexivity).
    cbn [negb]. destruct st1 as [a b c d e f g h i j]. cbn in *.
    subst. rewrite (Fid quake eq_refl). reflexivity.
  - destruct st1 as [a b c d e f g h i j]. cbn in *. subst. reflexivity.
Qed.

(** Returning home clears every timeout whose handle is kept. *)
Lemma clearTimers_pending (t : SimTimers) :
  (forall e, In e (pending t) -> In (fst e) (timerIds t)) ->
  pending (clearTimers t) = [].
Proof.
  intros Htracked. unfold clearTimers. cbn [pending].
  induction (pending t) as [|e l IH]; [reflexivity|]. cbn [filter].
  assert (X : existsb (Nat.eqb (fst e)) (timerIds t) = true).
  { apply existsb_exists. exists (fst e). split.
    - apply Htracked. left. reflexivity.
    - apply Nat.eqb_refl. }
  rewrite X. cbn [negb]. apply IH. intros e' He'. apply Htracked. right. exact He'.
Qed.

Lemma step_keeps_timersTracked (st : State) (a : Action) :
  timersTracked st -> timersTracked (step getTime st a).
Proof.
  unfold timersTracked. intros Hst.
  pose proof (clearTimers_pending (simulationTimers st) Hst) as Hclear.
  destruct a as [|now|now captured|data|now data|tid stamp iso| |data|originTime stamp|];
    cbn [step].
  - unfold syncEffect. destruct (ViewMode_eqb _ _); exact Hst.
  - destruct (audioEffect_frame now st) as (_ & _ & _ & _ & _ & _ & ->). exact Hst.
  - destruct (timeoutInstalled live captured); exact Hst.
  - exact Hst.
  - exact Hst.
  - destruct (fireTimer_frame tid stamp iso st) as (_ & _ & _ & _ & _ & Hi & Hp & _).
    intros e He. rewrite Hi. apply Hst. apply Hp. exact He.
  - unfold handleReturnHome. cbn [simulationTimers]. rewrite Hclear.
    intros e [].
  - exact Hst.
  - unfold startSimulation. cbv zeta. cbn [simulationTimers pending timerIds].
    unfold handleReturnHome. cbn [simulationTimers]. rewrite Hclear.
    cbn [clearTimers timerIds lastTimer app].
    intros e He. cbn [In] in He |- *.
    destruct He as [<- | [<- | [<- | [<- | []]]]]; cbn [fst]; auto.
  - exact Hst.
Qed.

Lemma run_keeps_timersTracked (actions : list Action) (st : State) :
  timersTracked st -> timersTracked (run getTime actions st).
Proof.
  unfold run. revert st.
  induction actions as [|a rest IH]; intros st Hst; cbn [fold_left];
    [exact Hst|].
  apply IH. apply step_keeps_timersTracked. exact Hst.
Qed.

(** X12: while the mode is not live and no timeout of the simulation is
    pending, nothing that happens without the user (the feeds, the
    inactivity check, the effects, a timeout that is no longer pending)
    changes what is displayed or the mode, and no timeout becomes pending;
    choosing a past report shows it with no early warning, in history
    mode, whatever is live, and leaves the timeouts of a simulation as
    they are; returning home leaves no timeout pending when every pending
    one has its handle kept, as it is in every state the application
    reaches; and after returning home the next sync shows the live report
    and the live early-warning state.  (A pending timeout of the
    simulation rewrites the display in simulation mode, and in history
    mode too, since choosing a past report does not clear it.) *)
Theorem display_follows_mode (actions : list Action) (st : State) :
  mode st <> live ->
  pending (simulationTimers st) = [] ->
  forallb background actions = true ->
  mode (run getTime actions st) = mode st
  /\ displayQuake (run getTime actions st) = displayQuake st
  /\ displayEEW (run getTime actions st) = displayEEW st
  /\ pending (simulationTimers (run getTime actions st)) = []
  /\ (forall data,
        displayQuake (handleSelectHistoryQuake data (run getTime actions st))
        = Some data
        /\ isActive (displayEEW (handleSelectHistoryQuake data
                                   (run getTime actions st))) = false
        /\ mode (handleSelectHistoryQuake data (run getTime actions st)) = history
        /\ simulationTimers (handleSelectHistoryQuake data (run getTime actions st))
           = simulationTimers (run getTime actions st))
  /\ (forall (before : list Action) (hasContext : bool),
        pending (simulationTimers
                   (handleReturnHome (run getTime before (initial hasContext)))) = [])
  /\ mode (handleReturnHome (run getTime actions st)) = live
  /\ displayQuake (syncEffect (handleReturnHome (run getTime actions st)))
     = liveQuake (run getTime actions st)
  /\ displayEEW (syncEffect (handleReturnHome (run getTime actions st)))
     = liveEEW (run getTime actions st).
Proof.
  intros Hmode Hpend Hbg.
  assert (H : mode (run getTime actions st) = mode st
              /\ displayQuake (run getTime actions st) = displayQuake st
              /\ displayEEW (run getTime actions st) = displayEEW st
              /\ pending (simulationTimers (run getTime actions st)) = []).
  { unfold run. revert st Hmode Hpend Hbg.
    induction actions as [|a rest IH]; intros st Hmode Hpend Hbg; cbn [fold_left];
      [repeat split; assumption|].
    cbn [forallb] in Hbg. apply andb_true_iff in Hbg as [Ha Hrest].
    assert (S1 : mode (step getTime st a) = mode st
                 /\ displayQuake (step getTime st a) = displayQuake st
                 /\ displayEEW (step getTime st a) = displayEEW st
                 /\ pending (simulationTimers (step getTime st a)) = []).
    { destruct a as [|now|now captured|data|now data|tid stamp iso| |data|originTime stamp|];
        try discriminate; cbn [step].
      - unfold syncEffect. destruct (ViewMode_eqb (mode st) live) eqn:E;
          [|repeat split; assumption].
        exfalso. apply Hmode. destruct (mode st); [reflexivity | discriminate..].
      - destruct (audioEffect_frame now st) as (_ & _ & Q & D & M & _ & T).
        rewrite T. auto.
      - destruct (timeoutInstalled live captured); repeat split; assumption.
      - repeat split; assumption.
      - repeat split; assumption.
      - destruct (fireTimer_frame tid stamp iso st) as (_ & _ & _ & _ & _ & _ & _ & Hnone).
        rewrite Hnone by (rewrite Hpend; reflexivity).
        repeat split; assumption. }
    destruct S1 as (M1 & Q1 & D1 & P1).
    destruct (IH (step getTime st a)) as (M & Q & D & P);
      [rewrite M1; exact Hmode | exact P1 | exact Hrest |].
    rewrite M, Q, D. auto. }
  destruct H as (M & Q & D & P).
  split; [exact M|]. split; [exact Q|]. split; [exact D|]. split; [exact P|].
  split; [intros data; repeat split|].
  split.
  { intros before hasContext. unfold handleReturnHome. cbn [simulationTimers].
    apply clearTimers_pending.
    apply (run_keeps_timersTracked before (initial hasContext)).
    intros e []. }
  repeat split.
Qed.

(** Without the hypothesis on the timeouts the display does change: a
    simulation is started, a past report is chosen, and the first timeout
    of the simulation then shows the simulated warning in history mode. *)
Example history_after_simulation_rewritten :
  let chosen := Feed.mkQuake (JsString.lit "jma_20240101") 551
                             (JsString.lit "2024-01-01") in
  let st := run getTime [StartSimulation (JsString.lit "2024-01-01T00:00:00Z") 1000;
                         SelectHistory chosen] (initial true) in
  let st' := step getTime st (SimTimer 1 7000 (JsString.lit "2024-01-01T00:00:07Z")) in
  mode st = history
  /\ isActive (displayEEW st) = false
  /\ mode st' = history
  /\ isActive (displayEEW st') = true
  /\ isWarning (displayEEW st') = true
  /\ displayQuake st' = Some chosen.
Proof. cbv zeta. repeat split. Qed.

End WithClock.

End AppFacts.

Lemma alarm_follows_warning_witness :
  let st := App.mkState None initialEEW None Sample.finalState live true App.noTimers
                        initialEEW [] (Sound.mkService true true None [] 0 [] []) in
  Sound.loopInterval (App.soundService (App.audioEffect (fun _ => NaN) 5000 st)) <> None
  <-> isActive Sample.finalState = true
      /\ isWarning Sample.finalState = true
      /\ isFinal Sample.finalState <> Some true.
Proof.
  intros st. apply (AppFacts.alarm_follows_warning (fun _ => NaN) 5000 st).
  reflexivity.
Defined.

Lemma display_follows_mode_witness :
  let st := App.handleSelectHistoryQuake
              (Feed.mkQuake (JsString.lit "jma_20240101") 551 (JsString.lit "2024-01-01"))
              (App.initial true) in
  let actions := [App.LiveEEW 1000 Sample.finalFrame; App.Sync; App.Audio 1000;
                  App.SimTimer 1 2000 (JsString.lit "2024-01-01T00:00:02Z");
                  App.Timeout 30000 Sample.finalState] in
  App.mode (App.run (fun _ => NaN) actions st) = history
  /\ isActive (App.displayEEW (App.run (fun _ => NaN) actions st)) = false
  /\ App.pending (App.simulationTimers (App.run (fun _ => NaN) actions st)) = [].
Proof.
  intros st actions.
  destruct (AppFacts.display_follows_mode (fun _ => NaN) actions st)
    as (M & _ & D & P & _).
  - discriminate.
  - reflexivity.
  - reflexivity.
  - rewrite M, D. split; [reflexivity|]. split; [reflexivity | exact P].
Defined.

(* ------------------------------------------------------------------ *)
(** ** Numbers and times read aloud *)

Module SpeechFacts.
Import Speech.

Lemma keysEqb_eq (a b : list jsstring) : keysEqb a b = true -> a = b.
Proof.
  revert b. induction a as [|x a IH]; intros [|y b]; cbn; try discriminate;
    [reflexivity|].
  intros H. apply andb_true_iff in H as [Hx Hab].
  apply JsStringFacts.eqb_eq in Hx. rewrite Hx, (IH b Hab). reflexivity.
Qed.

Lemma in_range (z bound : Z) :
  (0 <= z < bound)%Z -> In z (map Z.of_nat (seq 0 (Z.to_nat bound))).
Proof.
  intros H. apply in_map_iff. exists (Z.to_nat z). split; [lia|].
  apply in_seq. lia.
Qed.

Section WithFormat.

Variable formatOther : Q -> jsstring.

Lemma every_number_ok :
  forallb (numberKeysOk formatOther) (map Z.of_nat (seq 0 (Z.to_nat 10000))) = true.
Proof. vm_compute. reflexivity. Qed.

Lemma every_time_ok :
  forallb (timeKeysOk formatOther)
          (list_prod (map Z.of_nat (seq 0 (Z.to_nat 24)))
                     (map Z.of_nat (seq 0 (Z.to_nat 60)))) = true.
Proof. vm_compute. reflexivity. Qed.

Lemma getNumberKeys_floor (q : Q) :
  getNumberKeys formatOther (Fin q)
  = getNumberKeys formatOther (Num.ofZ (Qfloor q)).
Proof.
  unfold getNumberKeys, floor, Num.ofZ. rewrite Qfloor_Z. reflexivity.
Qed.

Lemma numberKeysOk_spec (z : Z) :
  (0 <= z < 10000)%Z ->
  getNumberKeys formatOther (Num.ofZ z) <> []
  /\ forallb isAssetKey (getNumberKeys formatOther (Num.ofZ z)) = true
  /\ said (getNumberKeys formatOther (Num.ofZ z)) = z.
Proof.
  intros Hz. pose proof every_number_ok as H.
  rewrite forallb_forall in H. specialize (H z (in_range z 10000 Hz)).
  unfold numberKeysOk in H. cbv zeta in H.
  apply andb_true_iff in H as [H Hlen]. apply andb_true_iff in H as [Hkeys Hsaid].
  apply Z.eqb_eq in Hsaid. split; [|split; assumption].
  intros E. rewrite E in Hlen. discriminate.
Qed.

(** X13: for every number from 0 up to, not including, 10000, whole or
    not, [getNumberKeys] gives a non-empty run of keys, each a key of
    [VOICE_ASSETS], that says the number rounded down. *)
Theorem getNumberKeys_says_floor (q : Q) :
  0 <= q -> q < 10000 ->
  getNumberKeys formatOther (Fin q) <> []
  /\ forallb isAssetKey (getNumberKeys formatOther (Fin q)) = true
  /\ said (getNumberKeys formatOther (Fin q)) = Qfloor q.
Proof.
  intros H0 H1. rewrite getNumberKeys_floor. apply numberKeysOk_spec. split.
  - change 0%Z with (Qfloor 0). apply Qfloor_resp_le. exact H0.
  - pose proof (Qfloor_le q) as Hf.
    assert (inject_Z (Qfloor q) < inject_Z 10000) as Hlt.
    { apply Qle_lt_trans with q; [exact Hf | exact H1]. }
    rewrite <- Zlt_Qlt in Hlt. exact Hlt.
Qed.

(** X14: for every hour 0..23 and minute 0..59, [getTimeKeys] says the
    half of the day ([gozen] before noon, [gogo] from noon), then the hour
    on the twelve-hour clock, with 12 for midnight and noon, then [ji], and
    then the minute and [fun] unless the minute is 0; every key is a key
    of [VOICE_ASSETS]. *)
Theorem getTimeKeys_twelve_hour (h m : Z) :
  (0 <= h < 24)%Z -> (0 <= m < 60)%Z ->
  exists hourKeys minuteKeys,
    getTimeKeys formatOther (Num.ofZ h) (Num.ofZ m)
    = [if (h <? 12)%Z then JsString.lit "gozen" else JsString.lit "gogo"]
      ++ hourKeys ++ [JsString.lit "ji"]
      ++ (if Z.eqb m 0 then [] else minuteKeys ++ [JsString.lit "fun"])
    /\ said hourKeys = (if Z.eqb (h mod 12) 0 then 12 else h mod 12)%Z
    /\ (1 <= said hourKeys <= 12)%Z
    /\ said minuteKeys = m
    /\ forallb isAssetKey (getTimeKeys formatOther (Num.ofZ h) (Num.ofZ m)) = true.
Proof.
  intros Hh Hm. pose proof every_time_ok as H. rewrite forallb_forall in H.
  specialize (H (h, m)).
  assert (Hin : In (h, m) (list_prod (map Z.of_nat (seq 0 (Z.to_nat 24)))
                                      (map Z.of_nat (seq 0 (Z.to_nat 60)))))
    by (apply in_prod; [exact (in_range h 24 Hh) | exact (in_range m 60 Hm)]).
  specialize (H Hin). unfold timeKeysOk in H. cbv zeta in H.
  apply andb_true_iff in H as [Hkeys Heq]. apply keysEqb_eq in Heq.
  set (hour12 := (if Z.eqb (h mod 12) 0 then 12 else h mod 12)%Z) in *.
  assert (Hh12 : (1 <= hour12 <= 12)%Z).
  { unfold hour12. destruct (Z.eqb_spec (h mod 12) 0); [lia|].
    pose proof (Z.mod_pos_bound h 12 ltac:(lia)). lia. }
  destruct (numberKeysOk_spec hour12 ltac:(lia)) as (_ & _ & Sh).
  destruct (numberKeysOk_spec m ltac:(lia)) as (_ & _ & Sm).
  exists (getNumberKeys formatOther (Num.ofZ hour12)),
         (getNumberKeys formatOther (Num.ofZ m)).
  split; [exact Heq|]. rewrite Sh. auto.
Qed.

End WithFormat.

End SpeechFacts.

Lemma getNumberKeys_says_floor_witness :
  Speech.said (Speech.getNumberKeys (fun _ => []) (Fin (105 # 10))) = 10%Z.
Proof.
  apply (SpeechFacts.getNumberKeys_says_floor (fun _ => []) (105 # 10));
    unfold Qle, Qlt; cbn; lia.
Defined.

Lemma getTimeKeys_twelve_hour_witness :
  exists hourKeys minuteKeys,
    Speech.getTimeKeys (fun _ => []) (Num.ofZ 0) (Num.ofZ 5)
    = [JsString.lit "gozen"] ++ hourKeys ++ [JsString.lit "ji"]
      ++ (minuteKeys ++ [JsString.lit "fun"])
    /\ Speech.said hourKeys = 12%Z
    /\ (1 <= Speech.said hourKeys <= 12)%Z
    /\ Speech.said minuteKeys = 5%Z
    /\ forallb Speech.isAssetKey
               (Speech.getTimeKeys (fun _ => []) (Num.ofZ 0) (Num.ofZ 5)) = true.
Proof.
  apply (SpeechFacts.getTimeKeys_twelve_hour (fun _ => []) 0 5); lia.
Defined.

(* ------------------------------------------------------------------ *)
(** ** The intensity report *)

Module InfoPanelFacts.
Abbreviation pointScale := scale.
Import InfoPanel.

Section Sorting.

Variable A : Type.
Variable leb : A -> A -> bool.
Hypothesis leb_total : forall a b, leb a b = true \/ leb b a = true.
Hypothesis leb_trans : forall a b c, leb a b = true -> leb b c = true -> leb a c = true.

Lemma insertBy_perm (a : A) (l : list A) : Permutation (a :: l) (insertBy leb a l).
Proof using Type.
  induction l as [|b l IH]; cbn [insertBy]; [reflexivity|].
  destruct (leb a b); [reflexivity|].
  rewrite perm_swap. apply perm_skip. exact IH.
Qed.

Lemma sortBy_perm (l : list A) : Permutation l (sortBy leb l).
Proof using Type.
  induction l as [|a l IH]; cbn [sortBy fold_right]; [reflexivity|].
  rewrite <- insertBy_perm. apply perm_skip. exact IH.
Qed.

Lemma insertBy_sorted (a : A) (l : list A) :
  StronglySorted (fun x y => leb x y = true) l ->
  StronglySorted (fun x y => leb x y = true) (insertBy leb a l).
Proof.
  induction l as [|b l IH]; cbn [insertBy]; intros Hs.
  - constructor; constructor.
  - inversion_clear Hs as [|? ? Hl Hb]. destruct (leb a b) eqn:E.
    + constructor; [constructor; assumption|].
      constructor; [exact E|]. revert Hb. apply Forall_impl.
      intros c Hc. exact (leb_trans a b c E Hc).
    + constructor; [exact (IH Hl)|].
      apply (Permutation_Forall (insertBy_perm a l)). constructor; [|exact Hb].
      destruct (leb_total a b) as [H | H]; [congruence | exact H].
Qed.

Lemma sortBy_sorted (l : list A) :
  StronglySorted (fun x y => leb x y = true) (sortBy leb l).
Proof.
  induction l as [|a l IH]; cbn [sortBy fold_right]; [constructor|].
  apply insertBy_sorted. exact IH.
Qed.

End Sorting.

Lemma stringLeb_total (a b : jsstring) :
  stringLeb a b = true \/ stringLeb b a = true.
Proof.
  revert b. induction a as [|u a IH]; intros [|v b]; cbn [stringLeb]; auto.
  destruct (N.ltb_spec u v), (N.ltb_spec v u), (N.eqb_spec u v), (N.eqb_spec v u);
    auto; try lia.
Qed.

Lemma stringLeb_trans (a b c : jsstring) :
  stringLeb a b = true -> stringLeb b c = true -> stringLeb a c = true.
Proof.
  revert b c. induction a as [|u a IH]; intros [|v b] [|w c]; cbn [stringLeb];
    auto; try discriminate.
  destruct (N.ltb_spec u v), (N.ltb_spec v w), (N.ltb_spec u w),
           (N.eqb_spec u v), (N.eqb_spec v w), (N.eqb_spec u w);
    auto; try discriminate; try lia. apply IH.
Qed.

Lemma dedupe_spec (values : list Z) :
  NoDup (dedupe values) /\ forall v, In v (dedupe values) <-> In v values.
Proof.
  unfold dedupe.
  assert (G : forall seen, NoDup seen ->
              NoDup (fold_left (fun seen v => if existsb (Z.eqb v) seen
                                              then seen else seen ++ [v]) values seen)
              /\ forall v, In v (fold_left (fun seen v => if existsb (Z.eqb v) seen
                                              then seen else seen ++ [v]) values seen)
                           <-> In v seen \/ In v values).
  { induction values as [|x values IH]; intros seen Hnd; cbn [fold_left].
    - split; [exact Hnd|]. intros v. cbn. tauto.
    - destruct (existsb (Z.eqb x) seen) eqn:E.
      + destruct (IH seen Hnd) as (N1 & I1). split; [exact N1|].
        intros v. rewrite I1. cbn [In]. split; [tauto|].
        intros [H | [<- | H]]; auto. left.
        apply existsb_exists in E as (y & Hy & Exy). apply Z.eqb_eq in Exy.
        subst y. exact Hy.
      + assert (Hnotin : ~ In x seen).
        { intros Hin. assert (existsb (Z.eqb x) seen = true) as X.
          { apply existsb_exists. exists x. split; [exact Hin | apply Z.eqb_refl]. }
          congruence. }
        destruct (IH (seen ++ [x])) as (N1 & I1).
        { apply NoDup_app; [exact Hnd | repeat constructor; intros [] |].
          intros y Hy [<- | []]. contradiction. }
        split; [exact N1|]. intros v. rewrite I1, in_app_iff. cbn [In]. tauto. }
  destruct (G [] (NoDup_nil _)) as (N1 & I1). split; [exact N1|].
  intros v. rewrite I1. cbn. tauto.
Qed.

Lemma in_areas (a : jsstring) (areas : list jsstring) :
  existsb (JsString.eqb a) areas = true <-> In a areas.
Proof.
  rewrite existsb_exists. split.
  - intros (b & Hb & E). apply JsStringFacts.eqb_eq in E. subst b. exact Hb.
  - intros H. exists a. split; [exact H | apply JsStringFacts.eqb_eq; reflexivity].
Qed.

Lemma mapHas_iff (key : jsstring) (m : PrefsMap) :
  mapHas key m = true <-> In key (map fst m).
Proof.
  unfold mapHas. rewrite existsb_exists, in_map_iff. split.
  - intros ([k areas] & Hin & E). apply JsStringFacts.eqb_eq in E. cbn in E.
    subst k. exists (key, areas). auto.
  - intros ([k areas] & Hk & Hin). cbn in Hk. subst k. exists (key, areas).
    split; [exact Hin | apply JsStringFacts.eqb_eq; reflexivity].
Qed.

Lemma pushArea_keys (key a : jsstring) (m : PrefsMap) :
  map fst (pushArea key a m) = map fst m.
Proof.
  induction m as [|[k areas] m IH]; cbn [pushArea map fst]; [reflexivity|].
  destruct (JsString.eqb k key); cbn [map fst]; [reflexivity|].
  rewrite IH. reflexivity.
Qed.

Lemma pushArea_in (key a : jsstring) (m : PrefsMap) (k : jsstring)
    (areas : list jsstring) :
  NoDup (map fst m) ->
  In (k, areas) (pushArea key a m) ->
  (k <> key /\ In (k, areas) m)
  \/ (k = key /\ exists areas0,
        In (key, areas0) m
        /\ areas = if existsb (JsString.eqb a) areas0 then areas0 else areas0 ++ [a]).
Proof.
  induction m as [|[k0 areas0] m IH]; cbn [pushArea map fst]; intros Hnd;
    [intros []|].
  inversion_clear Hnd as [|? ? Hnotin Hnd'].
  destruct (JsString.eqb k0 key) eqn:E.
  - apply JsStringFacts.eqb_eq in E. subst k0. intros [H | H].
    + inversion H; subst. right. split; [reflexivity|]. exists areas0.
      split; [left; reflexivity | reflexivity].
    + left. split; [|right; exact H]. intros ->. apply Hnotin.
      apply in_map_iff. exists (key, areas). auto.
  - intros [H | H].
    + inversion H; subst. left. split; [|left; reflexivity].
      intros ->. rewrite (proj2 (JsStringFacts.eqb_eq key key) eq_refl) in E.
      discriminate.
    + destruct (IH Hnd' H) as [[N Hin] | [-> (as0 & Hin & Eq)]].
      * left. split; [exact N | right; exact Hin].
      * right. split; [reflexivity|]. exists as0. split; [right; exact Hin | exact Eq].
Qed.

Lemma keys_functional (m : PrefsMap) (key : jsstring) (u v : list jsstring) :
  NoDup (map fst m) -> In (key, u) m -> In (key, v) m -> u = v.
Proof.
  induction m as [|[k0 w] m IH]; cbn [map fst]; intros Hnd; [intros []|].
  inversion_clear Hnd as [|? ? Hnotin Hnd'].
  assert (K : forall z, In (k0, z) m -> False).
  { intros z Hz. apply Hnotin. apply in_map_iff. exists (k0, z). auto. }
  intros [H | H] [H' | H'].
  - congruence.
  - inversion H; subst. exfalso. exact (K _ H').
  - inversion H'; subst. exfalso. exact (K _ H).
  - exact (IH Hnd' H H').
Qed.

Lemma addPoint_invariant (seen : list QuakePoint) (m : PrefsMap) (p : QuakePoint) :
  prefsInvariant seen m -> prefsInvariant (seen ++ [p]) (addPoint m p).
Proof.
  intros (Hnd & Hval & Hcov). unfold addPoint.
  set (m1 := if negb (mapHas (pref p) m) then m ++ [(pref p, [])] else m).
  assert (H1 : prefsInvariant seen m1 /\ In (pref p) (map fst m1)).
  { subst m1. destruct (mapHas (pref p) m) eqn:E; cbn [negb].
    - split; [split; [exact Hnd | split; assumption]|]. apply mapHas_iff. exact E.
    - assert (Hnotin : ~ In (pref p) (map fst m)).
      { intros Hin. apply mapHas_iff in Hin. congruence. }
      split; [|rewrite map_app, in_app_iff; right; left; reflexivity].
      split; [|split].
      + rewrite map_app. apply NoDup_app; [exact Hnd | repeat constructor; intros [] |].
        intros k Hk [<- | []]. contradiction.
      + intros key areas Hin. apply in_app_iff in Hin as [Hin | [Hin | []]];
          [exact (Hval key areas Hin)|].
        inversion Hin; subst key areas. split; [constructor|].
        intros a. split; [intros []|]. intros (p' & Hp' & Hk & _).
        exfalso. apply Hnotin. rewrite <- Hk. exact (Hcov p' Hp').
      + intros p' Hp'. rewrite map_app, in_app_iff. left. exact (Hcov p' Hp'). }
  clearbody m1. destruct H1 as ((Hnd1 & Hval1 & Hcov1) & Hkey).
  split; [|split].
  - rewrite pushArea_keys. exact Hnd1.
  - intros key areas Hin.
    destruct (pushArea_in (pref p) (addr p) m1 key areas Hnd1 Hin)
      as [[N Hin'] | [-> (areas0 & Hin' & ->)]].
    + destruct (Hval1 key areas Hin') as (Na & Ha). split; [exact Na|].
      intros a. rewrite Ha. split.
      * intros (p' & Hp' & Hk & Had). exists p'. rewrite in_app_iff. auto.
      * intros (p' & Hp' & Hk & Had).
        apply in_app_iff in Hp' as [Hp' | [<- | []]]; [|congruence].
        exists p'. auto.
    + destruct (Hval1 (pref p) areas0 Hin') as (Na & Ha).
      destruct (existsb (JsString.eqb (addr p)) areas0) eqn:E.
      * apply in_areas in E. split; [exact Na|]. intros a. rewrite Ha. split.
        -- intros (p' & Hp' & Hk & Had). exists p'. rewrite in_app_iff. auto.
        -- intros (p' & Hp' & Hk & Had).
           apply in_app_iff in Hp' as [Hp' | [<- | []]]; [exists p'; auto|].
           subst a. apply Ha. exact E.
      * assert (Hnotin : ~ In (addr p) areas0).
        { intros Hin0. apply in_areas in Hin0. congruence. }
        split.
        -- apply NoDup_app; [exact Na | repeat constructor; intros [] |].
           intros a Hin0 [<- | []]. contradiction.
        -- intros a. rewrite in_app_iff, Ha. cbn [In]. split.
           ++ intros [(p' & Hp' & Hk & Had) | [<- | []]].
              ** exists p'. rewrite in_app_iff. auto.
              ** exists p. rewrite in_app_iff. cbn. auto.
           ++ intros (p' & Hp' & Hk & Had).
              apply in_app_iff in Hp' as [Hp' | [<- | []]];
                [left; exists p'; auto | right; left; exact Had].
  - intros p' Hp'. rewrite pushArea_keys.
    apply in_app_iff in Hp' as [Hp' | [<- | []]]; [exact (Hcov1 p' Hp') | exact Hkey].
Qed.

Lemma prefsMapOf_invariant (ps : list QuakePoint) :
  prefsInvariant ps (prefsMapOf ps).
Proof.
  induction ps as [|p ps IH] using rev_ind.
  - split; [constructor|]. split; [intros ? ? [] | intros ? []].
  - unfold prefsMapOf. rewrite fold_left_app. cbn [fold_left].
    apply addPoint_invariant. exact IH.
Qed.

Lemma strictly_sorted {A : Type} (R R' : A -> A -> Prop) (l : list A) :
  (forall a b, R a b -> a <> b -> R' a b) ->
  StronglySorted R l -> NoDup l -> StronglySorted R' l.
Proof.
  intros Himp. induction 1 as [|a l Hs IH Hall]; intros Hnd; [constructor|].
  inversion_clear Hnd as [|? ? Hnotin Hnd']. constructor; [exact (IH Hnd')|].
  apply Forall_forall. intros b Hb. rewrite Forall_forall in Hall.
  apply Himp; [exact (Hall b Hb)|]. intros ->. contradiction.
Qed.

Lemma uniqueScales_spec (pts : list QuakePoint) :
  StronglySorted (fun a b => (b < a)%Z) (uniqueScales pts)
  /\ forall s, In s (uniqueScales pts)
               <-> exists p, In p pts /\ pointScale p = s.
Proof.
  unfold uniqueScales.
  destruct (dedupe_spec (map pointScale pts)) as (Nd & Hin).
  pose proof (sortBy_perm Z (fun a b => (b <=? a)%Z)
                (dedupe (map pointScale pts))) as P.
  split.
  - apply (strictly_sorted (fun a b => (b <=? a)%Z = true)).
    + intros a b H N. apply Z.leb_le in H. lia.
    + apply sortBy_sorted.
      * intros a b. rewrite !Z.leb_le. lia.
      * intros a b c. rewrite !Z.leb_le. lia.
    + exact (Permutation_NoDup P Nd).
  - intros s. split.
    + intros H. apply (Permutation_in _ (Permutation_sym P)) in H.
      apply Hin in H. apply in_map_iff in H as (p & Hs & Hp). exists p. auto.
    + intros (p & Hp & Hs). apply (Permutation_in _ P). apply Hin.
      apply in_map_iff. exists p. auto.
Qed.

(** X15: the intensity report lists the grades in strictly decreasing
    order, each once; under a grade each prefecture appears once, with its
    addresses in code-unit order and without repetition; and an address is
    listed under a grade and a prefecture exactly when some observation
    point has that grade, prefecture and address. *)
Theorem intensityGroups_sorted_complete (pts : list QuakePoint) :
  StronglySorted (fun a b => (b < a)%Z) (map scale (intensityGroups pts))
  /\ (forall g, In g (intensityGroups pts) ->
      NoDup (map name (prefs g))
      /\ forall e, In e (prefs g) ->
           NoDup (areas e)
           /\ StronglySorted (fun a b => stringLeb a b = true) (areas e))
  /\ (forall s prefecture address,
      (exists p, In p pts /\ pointScale p = s /\ pref p = prefecture
                 /\ addr p = address)
      <-> exists g e, In g (intensityGroups pts) /\ scale g = s
                      /\ In e (prefs g) /\ name e = prefecture
                      /\ In address (areas e)).
Proof.
  destruct (uniqueScales_spec pts) as (Hsorted & Hscales).
  assert (Hmap : map scale (intensityGroups pts) = uniqueScales pts).
  { unfold intensityGroups. rewrite map_map. cbn [groupOf scale]. apply map_id. }
  split; [rewrite Hmap; exact Hsorted|]. split.
  - intros g Hg. unfold intensityGroups in Hg.
    apply in_map_iff in Hg as (s & <- & Hs). cbn [groupOf prefs].
    destruct (prefsMapOf_invariant (pointsInScale pts s)) as (Hnd & Hval & _).
    split.
    + rewrite map_map. cbn [name]. exact Hnd.
    + intros e He. apply in_map_iff in He as ([k u] & <- & Hin). cbn [areas fst snd].
      destruct (Hval k u Hin) as (Nu & _). split.
      * exact (Permutation_NoDup (sortBy_perm _ stringLeb u) Nu).
      * apply sortBy_sorted; [exact stringLeb_total | exact stringLeb_trans].
  - intros s prefecture address. split.
    + intros (p & Hp & Hs & Hpref & Haddr).
      exists (groupOf pts s).
      destruct (prefsMapOf_invariant (pointsInScale pts s)) as (Hnd & Hval & Hcov).
      assert (Hps : In p (pointsInScale pts s)).
      { unfold pointsInScale. apply filter_In. split; [exact Hp|].
        apply Z.eqb_eq. exact Hs. }
      pose proof (Hcov p Hps) as Hkey.
      apply in_map_iff in Hkey as ([k u] & Hk & Hin). cbn in Hk. subst k.
      exists (mkPref (pref p) (sortBy stringLeb u)).
      split; [|split; [reflexivity|split; [|split; [exact Hpref|]]]].
      * unfold intensityGroups. apply in_map. apply Hscales. exists p. auto.
      * cbn [groupOf prefs]. apply in_map_iff. exists (pref p, u). auto.
      * cbn [areas]. apply (Permutation_in _ (sortBy_perm _ stringLeb u)).
        destruct (Hval (pref p) u Hin) as (_ & Hu). apply Hu. exists p. auto.
    + intros (g & e & Hg & Hs & He & Hn & Ha).
      unfold intensityGroups in Hg. apply in_map_iff in Hg as (s' & <- & Hs').
      cbn [groupOf scale prefs] in *. subst s'.
      apply in_map_iff in He as ([k u] & <- & Hin). cbn [name areas fst snd] in *.
      subst k.
      destruct (prefsMapOf_invariant (pointsInScale pts s)) as (_ & Hval & _).
      destruct (Hval prefecture u Hin) as (_ & Hu).
      apply (Permutation_in _ (Permutation_sym (sortBy_perm _ stringLeb u))) in Ha.
      apply Hu in Ha as (p & Hp & Hpref & Haddr).
      unfold pointsInScale in Hp. apply filter_In in Hp as (Hp & Hsc).
      apply Z.eqb_eq in Hsc. exists p. auto.
Qed.

End InfoPanelFacts.
